(** * locate-path: first-match path resolution with a TTL-LRU existence cache

    A shallow embedding of [src/index.js] and the properties of its
    specification.

    - JavaScript strings are [string]; the insertion-ordered [Map] of the
      cache is an association list whose order is the iteration order.
    - [Date.now()] is an oracle [now : nat -> Z]: the wall-clock reading at
      the n-th cache operation of the process.
    - The filesystem is an oracle [FS] answering [stat] and [lstat].
    - The two module-level caches, the operation counter and a log of
      every cache access and filesystem probe form the [World], threaded
      through the code by a small state monad.
    - The asynchronous locator is a pool of tasks stepped by an arbitrary
      scheduler: a per-candidate check runs in two atomic parts, before
      and after its [await]. *)

From Stdlib Require Import String Ascii List ZArith Lia Bool PeanoNat.
From Stdlib Require Import DecimalString.
Import ListNotations.

Local Open Scope string_scope.
Local Open Scope list_scope.

Set Default Proof Using "Type".

(* ================================================================== *)
(** ** Type selectors *)

(** [typeMappings]: the own properties of the object literal. *)
Definition typeMappings (type : string) : option string :=
  if String.eqb type "directory" then Some "isDirectory"
  else if String.eqb type "file" then Some "isFile"
  else None.

(** [checkType]: [None] when the call returns, [Some message] when it
    throws [new Error(message)]. *)
Definition checkType (type : string) : option string :=
  if String.eqb type "both" then None
  else match typeMappings type with
       | Some _ => None
       | None => Some (String.append "Invalid type specified: " type)
       end.

(** What a [Stats] object answers to the two predicates the code calls. *)
Record Stats := mkStats { isFile : bool; isDirectory : bool }.

(** [matchType]; [None] is the [TypeError] of calling [stat[undefined]]. *)
Definition matchType (type : string) (stat : Stats) : option bool :=
  if String.eqb type "both" then Some (isFile stat || isDirectory stat)
  else match typeMappings type with
       | Some method =>
           if String.eqb method "isFile" then Some (isFile stat)
           else Some (isDirectory stat)
       | None => None
       end.

Definition valid_type (type : string) : Prop :=
  type = "file" \/ type = "directory" \/ type = "both".

(* ================================================================== *)
(** ** Cache keys *)

Definition string_of_bool (b : bool) : string :=
  if b then "true" else "false".

(** The template literal [`${resolvedPath}:${type}:${allowSymlinks}`]. *)
Definition cacheKey (resolvedPath type : string) (allowSymlinks : bool)
  : string :=
  String.append resolvedPath
    (String.append ":"
       (String.append type
          (String.append ":" (string_of_bool allowSymlinks)))).

(* ================================================================== *)
(** ** The insertion-ordered Map *)

Record Entry := mkEntry { value : bool; timestamp : Z }.

(** Oldest insertion first. A [Map] holds a key at most once: see
    [map_wf]. *)
Definition JsMap := list (string * Entry).

Definition map_keys (m : JsMap) : list string := map fst m.

Definition map_wf (m : JsMap) : Prop := NoDup (map_keys m).

Definition map_size (m : JsMap) : nat := length m.

Fixpoint map_get (key : string) (m : JsMap) : option Entry :=
  match m with
  | [] => None
  | (k, e) :: m' => if String.eqb k key then Some e else map_get key m'
  end.

Definition map_has (key : string) (m : JsMap) : bool :=
  match map_get key m with Some _ => true | None => false end.

Fixpoint map_delete (key : string) (m : JsMap) : JsMap :=
  match m with
  | [] => []
  | (k, e) :: m' =>
      if String.eqb k key then m' else (k, e) :: map_delete key m'
  end.

(** [Map.prototype.set]: an existing key keeps its place, a new key goes
    last. *)
Fixpoint map_set (key : string) (e : Entry) (m : JsMap) : JsMap :=
  match m with
  | [] => [(key, e)]
  | (k, e0) :: m' =>
      if String.eqb k key then (k, e) :: m' else (k, e0) :: map_set key e m'
  end.

(** [cache.keys().next().value] *)
Definition map_first_key (m : JsMap) : option string :=
  match m with
  | [] => None
  | (k, _) :: _ => Some k
  end.

(* ================================================================== *)
(** ** class LRUCache *)

Record LRUCache := mkLRU { maxSize : nat; ttl : Z; cache : JsMap }.

Definition newLRUCache (maxSize : nat) (ttl : Z) : LRUCache :=
  mkLRU maxSize ttl [].

Definition with_cache (this : LRUCache) (m : JsMap) : LRUCache :=
  mkLRU (maxSize this) (ttl this) m.

(** [get(key)]; [now] is what [Date.now()] answers during the call. *)
Definition LRU_get (now : Z) (key : string) (this : LRUCache)
  : option bool * LRUCache :=
  match map_get key (cache this) with
  | None => (None, this)
  | Some entry =>
      if (now - timestamp entry >? ttl this)%Z
      then (None, with_cache this (map_delete key (cache this)))
      else (Some (value entry),
            with_cache this
              (map_set key entry (map_delete key (cache this))))
  end.

(** [set(key, value)] *)
Definition LRU_set (now : Z) (key : string) (v : bool) (this : LRUCache)
  : LRUCache :=
  let m :=
    if map_has key (cache this) then map_delete key (cache this)
    else if (maxSize this <=? map_size (cache this))%nat then
      match map_first_key (cache this) with
      | Some firstKey => map_delete firstKey (cache this)
      | None => cache this
      end
    else cache this in
  with_cache this (map_set key (mkEntry v now) m).

(** [clear()] *)
Definition LRU_clear (this : LRUCache) : LRUCache := with_cache this [].

(** A call on one cache, for statements about sequences of calls. *)
Inductive CacheOp :=
| OpGet (now : Z) (key : string)
| OpSet (now : Z) (key : string) (v : bool)
| OpClear.

Definition apply_op (op : CacheOp) (this : LRUCache) : LRUCache :=
  match op with
  | OpGet now key => snd (LRU_get now key this)
  | OpSet now key v => LRU_set now key v this
  | OpClear => LRU_clear this
  end.

Definition apply_ops (ops : list CacheOp) (this : LRUCache) : LRUCache :=
  fold_left (fun c op => apply_op op c) ops this.

(* ================================================================== *)
(** ** The process state *)

Inductive Which := Positive | Negative.

(** What the log records: a [get] or a [set] on one of the two global
    caches, or a call of the stat function on a path. *)
Inductive Event :=
| CacheGet (c : Which) (key : string)
| CacheSet (c : Which) (key : string) (v : bool)
| Probe (followSymlinks : bool) (path : string).

(** [statCache] and [negativeCache] are the module-level constants;
    [ticks] counts the cache operations made so far and [trace] is the
    log, newest event first. *)
Record World := mkWorld {
  statCache : LRUCache;
  negativeCache : LRUCache;
  ticks : nat;
  trace : list Event
}.

(** The state in which the module is loaded:
    [new LRUCache(500, 5000)] twice. *)
Definition initialWorld : World :=
  mkWorld (newLRUCache 500 5000) (newLRUCache 500 5000) 0 [].

Definition is_probe (e : Event) : bool :=
  match e with Probe _ _ => true | _ => false end.

Definition is_cache_event (e : Event) : bool :=
  match e with Probe _ _ => false | _ => true end.

(** The probe counter of the specification's tests. *)
Definition probe_count (w : World) : nat :=
  length (filter is_probe (trace w)).

Definition cache_events (w : World) : list Event :=
  filter is_cache_event (trace w).

(** State passing over the [World]. *)
Definition M (A : Type) : Type := World -> A * World.

Definition ret {A} (a : A) : M A := fun w => (a, w).

Definition bind {A B} (m : M A) (f : A -> M B) : M B :=
  fun w => let (a, w1) := m w in f a w1.

Notation "x <- m ;; k" := (bind m (fun x => k))
  (at level 61, m at next level, right associativity).
Notation "m ;;; k" := (bind m (fun _ => k))
  (at level 61, right associativity).

Definition when (b : bool) (m : M unit) : M unit :=
  if b then m else ret tt.

(** The outcome of a stat call: the path is not there, the call fails for
    another reason, or it answers with the metadata. *)
Inductive StatResult := NoEntry | Failure | Found (stat : Stats).

(** What a locator call gives its caller: the error it throws (rejects
    with), or the candidate it returns (resolves to), [None] for
    [undefined]. *)
Inductive Result :=
| Threw (message : string)
| Returned (candidate : option string).

(** The options object, after the defaults of the parameter list.
    [concurrency] and [preserveOrder] have no default there: [None] is
    [undefined], handed on as it is. *)
Record Options := mkOptions {
  cwd : string;
  type : string;
  allowSymlinks : bool;
  concurrency : option positive;
  preserveOrder : option bool;
  useCache : bool
}.

Definition defaultOptions (processCwd : string) : Options :=
  mkOptions processCwd "file" true None None true.

(** [negativeCache.get(cacheKey) === false] *)
Definition is_false (r : option bool) : bool :=
  match r with Some false => true | _ => false end.

(** Modelled from the spec: one call of [pLocate], of the p-locate
    package, under way: the options and candidates it was given, the
    index of the next check to start, the indices of the checks waiting
    on their stat call, and the settled checks, oldest first. *)
Record Task := mkTask {
  t_opts : Options;
  t_paths : list string;
  t_next : nat;
  t_running : list nat;
  t_settled : list (nat * bool)
}.

Definition newTask (o : Options) (paths : list string) : Task :=
  mkTask o paths 0 [] [].

(** A step of the event loop: start the next check of a call, or
    deliver the stat result a waiting check of a call waits for. *)
Inductive Action := Start (task : nat) | Finish (task slot : nat).

Fixpoint remove_nth {A} (n : nat) (l : list A) : list A :=
  match l, n with
  | [], _ => []
  | _ :: r, 0 => r
  | x :: r, S n' => x :: remove_nth n' r
  end.

Definition lookup_settled (i : nat) (settled : list (nat * bool))
  : option bool :=
  match find (fun ib => Nat.eqb (fst ib) i) settled with
  | Some ib => Some (snd ib)
  | None => None
  end.

Definition first_true (settled : list (nat * bool)) : option nat :=
  match find (fun ib => snd ib) settled with
  | Some ib => Some (fst ib)
  | None => None
  end.

(* ================================================================== *)
(** ** A small process for the examples *)

(** Paths are absolute when they start with a slash, and a relative
    path is resolved by joining it to the working directory. *)
Definition demo_isAbsolute (p : string) : bool :=
  match p with
  | String "/" _ => true
  | _ => false
  end.

Definition demo_resolve (cwd p : string) : string :=
  String.append cwd (String.append "/" p).

(** A working directory [/w] with a file, a directory and an entry that
    cannot be read. *)
Definition demo_stat (p : string) : StatResult :=
  if String.eqb p "/w/exists.txt" then Found (mkStats true false)
  else if String.eqb p "/w/dir" then Found (mkStats false true)
  else if String.eqb p "/w/locked" then Failure
  else NoEntry.

(** A clock that stands still, at 0 and at 6000. *)
Definition frozen_clock (n : nat) : Z := 0%Z.

Definition late_clock (n : nat) : Z := 6000%Z.

Definition demo_options : Options := defaultOptions "/w".

Definition numbered (prefix : string) (n : nat) : string :=
  String.append prefix (NilEmpty.string_of_uint (Nat.to_uint n)).

(** [n] candidates that are not there. *)
Definition many_missing (n : nat) : list string :=
  map (numbered "missing-") (seq 0 n).

Definition demo_key (path : string) : string := cacheKey path "file" true.

(** A full negative cache whose least recently used entry says that
    [/w/exists.txt] is not a file: the file was made after the entry. *)
Definition stale_world : World :=
  mkWorld (newLRUCache 500 5000)
    (mkLRU 500 5000
       ((demo_key "/w/exists.txt", mkEntry false 0) ::
        map (fun n => (demo_key (numbered "/w/old-" n), mkEntry false 0))
          (seq 1 499)))
    0 [].

(** The key of [/w/exists.txt] held by both caches, the negative entry
    written at 0 and the positive one at 5000. *)
Definition overlap_world : World :=
  mkWorld
    (mkLRU 500 5000 [(demo_key "/w/exists.txt", mkEntry true 5000)])
    (mkLRU 500 5000 [(demo_key "/w/exists.txt", mkEntry false 0)])
    0 [].

(** A cache of two entries. *)
Definition demo_cache : LRUCache :=
  mkLRU 2 5000 [("a", mkEntry true 0); ("b", mkEntry false 10)].

(** A cache of the same two entries with room for a third. *)
Definition roomy_cache : LRUCache :=
  mkLRU 3 5000 [("a", mkEntry true 0); ("b", mkEntry false 10)].

(** Calls on other keys than one written before them: lookups, one of
    an entry that has expired, and a write. *)
Definition later_calls : list CacheOp :=
  [OpGet 25 "b"; OpSet 30 "b" true; OpGet 6000 "a"; OpGet 6000 "b"].

(** The positive cache still holds [/w/gone.txt], a file removed since
    the entry was written. *)
Definition warm_world : World :=
  mkWorld (mkLRU 500 5000 [(demo_key "/w/gone.txt", mkEntry true 0)])
    (newLRUCache 500 5000) 0 [].

Section Program.

(** The collaborators: [path.isAbsolute], [path.resolve], the stat and
    lstat of the filesystem as it is during the calls considered, and
    the clock. *)
Variable isAbsolute : string -> bool.
Variable resolve : string -> string -> string.
Variable stat : string -> StatResult.
Variable lstat : string -> StatResult.
Variable now : nat -> Z.

(** *** The global caches, as the code reaches them *)

Definition statCache_get (key : string) : M (option bool) := fun w =>
  let (r, c) := LRU_get (now (ticks w)) key (statCache w) in
  (r, mkWorld c (negativeCache w) (S (ticks w))
        (CacheGet Positive key :: trace w)).

Definition negativeCache_get (key : string) : M (option bool) := fun w =>
  let (r, c) := LRU_get (now (ticks w)) key (negativeCache w) in
  (r, mkWorld (statCache w) c (S (ticks w))
        (CacheGet Negative key :: trace w)).

Definition statCache_set (key : string) (v : bool) : M unit := fun w =>
  (tt, mkWorld (LRU_set (now (ticks w)) key v (statCache w))
         (negativeCache w) (S (ticks w))
         (CacheSet Positive key v :: trace w)).

Definition negativeCache_set (key : string) (v : bool) : M unit := fun w =>
  (tt, mkWorld (statCache w)
         (LRU_set (now (ticks w)) key v (negativeCache w)) (S (ticks w))
         (CacheSet Negative key v :: trace w)).

(** [allowSymlinks ? stat : lstat], as a function of the filesystem. *)
Definition statFunction (allow : bool) : string -> StatResult :=
  if allow then stat else lstat.

(** Calling the stat function: the probe is logged. *)
Definition callStat (allow : bool) (path : string) : M StatResult :=
  fun w =>
    (statFunction allow path,
     mkWorld (statCache w) (negativeCache w) (ticks w)
       (Probe allow path :: trace w)).

(** [toPath]: the working directory is a string here, which [toPath]
    hands back as it is; [URL] values are outside the model. *)
Definition toPath (urlOrPath : string) : string := urlOrPath.

(** [path.isAbsolute(path_) ? path_ : path.resolve(cwd, path_)], with
    [cwd = toPath(cwd)]. *)
Definition resolvePath (o : Options) (path_ : string) : string :=
  if isAbsolute path_ then path_ else resolve (toPath (cwd o)) path_.

Definition keyOf (o : Options) (path_ : string) : string :=
  cacheKey (resolvePath o path_) (type o) (allowSymlinks o).

(** *** The synchronous locator *)

(** [checkPathSync]: with [throwIfNoEntry: false] a missing path answers
    [undefined]; any other failure, and the [TypeError] of [matchType],
    land in the [catch]. *)
Definition checkPathSync (resolvedPath key type : string)
    (allow useCache : bool) : M bool :=
  st <- callStat allow resolvedPath ;;
  match st with
  | NoEntry => when useCache (negativeCache_set key false) ;;; ret false
  | Failure => when useCache (negativeCache_set key false) ;;; ret false
  | Found s =>
      match matchType type s with
      | Some true => when useCache (statCache_set key true) ;;; ret true
      | Some false =>
          when useCache (negativeCache_set key false) ;;; ret false
      | None => when useCache (negativeCache_set key false) ;;; ret false
      end
  end.

(** The [for ... of] loop of [locatePathSync]. *)
Fixpoint scanSync (o : Options) (paths : list string)
  : M (option string) :=
  match paths with
  | [] => ret None
  | path_ :: rest =>
      let resolvedPath := resolvePath o path_ in
      let key := cacheKey resolvedPath (type o) (allowSymlinks o) in
      neg <- (if useCache o then negativeCache_get key else ret None) ;;
      if is_false neg then scanSync o rest
      else
        cached <- (if useCache o then statCache_get key else ret None) ;;
        match cached with
        | Some true => ret (Some path_)
        | Some false => scanSync o rest
        | None =>
            hit <- checkPathSync resolvedPath key (type o)
                     (allowSymlinks o) (useCache o) ;;
            if hit then ret (Some path_) else scanSync o rest
        end
  end.

Definition locatePathSync (paths : list string) (o : Options) : M Result :=
  match checkType (type o) with
  | Some message => ret (Threw message)
  | None => r <- scanSync o paths ;; ret (Returned r)
  end.

(** *** The asynchronous locator *)

(** The tester handed to [pLocate], up to its [await]: [Some b] when it
    returns [b] from the caches, [None] when it has called the stat
    function and waits. *)
Definition testerStart (o : Options) (path_ : string) : M (option bool) :=
  let resolvedPath := resolvePath o path_ in
  let key := cacheKey resolvedPath (type o) (allowSymlinks o) in
  neg <- (if useCache o then negativeCache_get key else ret None) ;;
  if is_false neg then ret (Some false)
  else
    cached <- (if useCache o then statCache_get key else ret None) ;;
    match cached with
    | Some c => ret (Some c)
    | None => callStat (allowSymlinks o) resolvedPath ;;; ret None
    end.

(** The tester from its [await] on: the promise of the stat function is
    rejected for a missing path as for any other failure. *)
Definition testerFinish (o : Options) (path_ : string) : M bool :=
  let resolvedPath := resolvePath o path_ in
  let key := cacheKey resolvedPath (type o) (allowSymlinks o) in
  match statFunction (allowSymlinks o) resolvedPath with
  | Found s =>
      match matchType (type o) s with
      | Some result =>
          when (useCache o)
            (if result then statCache_set key result
             else negativeCache_set key false) ;;;
          ret result
      | None => when (useCache o) (negativeCache_set key false) ;;; ret false
      end
  | _ => when (useCache o) (negativeCache_set key false) ;;; ret false
  end.

(** Modelled from the spec: [pLocate] of the p-locate package, which is
    not under src/. At most [concurrency] checks run at once, unbounded
    when unspecified; checks are started in list order as slots free up;
    a check that was started runs to completion whether or not its
    result is still awaited. *)
Definition can_start (t : Task) : bool :=
  (t_next t <? length (t_paths t))%nat &&
  match concurrency (t_opts t) with
  | None => true
  | Some c => (length (t_running t) <? Pos.to_nat c)%nat
  end.

(** Modelled from the spec: [pLocate] starting the check of the next
    candidate of a call, by calling the tester of src/index.js on it. *)
Definition startCheck (t : Task) : M Task :=
  match nth_error (t_paths t) (t_next t) with
  | None => ret t
  | Some path_ =>
      r <- testerStart (t_opts t) path_ ;;
      ret (match r with
           | Some b =>
               mkTask (t_opts t) (t_paths t) (S (t_next t)) (t_running t)
                 (t_settled t ++ [(t_next t, b)])
           | None =>
               mkTask (t_opts t) (t_paths t) (S (t_next t))
                 (t_running t ++ [t_next t]) (t_settled t)
           end)
  end.

(** Modelled from the spec: a waiting check of a call going on after its
    [await]; its result settles the check. *)
Definition finishCheck (slot : nat) (t : Task) : M Task :=
  match nth_error (t_running t) slot with
  | None => ret t
  | Some i =>
      match nth_error (t_paths t) i with
      | None => ret t
      | Some path_ =>
          b <- testerFinish (t_opts t) path_ ;;
          ret (mkTask (t_opts t) (t_paths t) (t_next t)
                 (remove_nth slot (t_running t))
                 (t_settled t ++ [(i, b)]))
      end
  end.

(** A step of the call at index [n] of the pool. *)
Fixpoint update_task (n : nat) (f : Task -> M Task) (pool : list Task)
  : M (list Task) :=
  match pool, n with
  | [], _ => ret []
  | t :: rest, 0 => t' <- f t ;; ret (t' :: rest)
  | t :: rest, S n' => rest' <- update_task n' f rest ;; ret (t :: rest')
  end.

Definition exec (a : Action) (pool : list Task) : M (list Task) :=
  match a with
  | Start ti => update_task ti startCheck pool
  | Finish ti slot => update_task ti (finishCheck slot) pool
  end.

(** The steps open to the call at index [ti]: the start of its next
    check when a slot is free, the completion of any waiting check. *)
Definition task_actions (ti : nat) (t : Task) : list Action :=
  (if can_start t then [Start ti] else []) ++
  map (Finish ti) (seq 0 (length (t_running t))).

Fixpoint pool_actions (ti : nat) (pool : list Task) : list Action :=
  match pool with
  | [] => []
  | t :: rest => task_actions ti t ++ pool_actions (S ti) rest
  end.

(** The steps the event loop can take next. *)
Definition enabled (pool : list Task) : list Action := pool_actions 0 pool.

(** The scheduler's number picks one of them. *)
Definition pick (choice : nat) (en : list Action) : option Action :=
  match en with
  | [] => None
  | a :: _ => Some (nth (choice mod length en) en a)
  end.

(** Modelled from the spec: the result selection of [pLocate]. With
    [preserveOrder] the candidate at index i wins once its check has
    settled true and all checks below i have settled false; without it
    the first check to settle true wins; when every check has settled
    false the result is absent. [None]: not decided yet. *)
Fixpoint ordered_verdict (paths : list string) (i : nat)
    (settled : list (nat * bool)) : option (option string) :=
  match paths with
  | [] => Some None
  | path_ :: rest =>
      match lookup_settled i settled with
      | Some true => Some (Some path_)
      | Some false => ordered_verdict rest (S i) settled
      | None => None
      end
  end.

(** Modelled from the spec: [preserveOrder] is true when unspecified. *)
Definition preserve (o : Options) : bool :=
  match preserveOrder o with Some b => b | None => true end.

(** Modelled from the spec: what [pLocate] resolves to, once decided. *)
Definition verdict (t : Task) : option (option string) :=
  if preserve (t_opts t) then ordered_verdict (t_paths t) 0 (t_settled t)
  else match first_true (t_settled t) with
       | Some i => Some (nth_error (t_paths t) i)
       | None =>
           if (length (t_paths t) <=? t_next t)%nat &&
              (length (t_running t) =? 0)%nat
           then Some None else None
       end.

(** A bound on the steps the calls of a pool can still take. *)
Definition task_measure (t : Task) : nat :=
  2 * (length (t_paths t) - t_next t) + length (t_running t).

Definition pool_measure (pool : list Task) : nat :=
  list_sum (map task_measure pool).

(** What the call at index [watch] of the pool resolves to, when it is
    decided. *)
Definition decided (watch : nat) (pool : list Task)
  : option (option string) :=
  match nth_error pool watch with
  | Some t => verdict t
  | None => None
  end.

(** Modelled from the spec: the event loop from the call of [pLocate] to
    the moment its caller sees the result. [sched] lists the scheduler's
    choices, [0] once it is used up: choice [0] hands over the result as
    soon as the watched call is decided, any other choice lets a check
    of some call go on first. [None] when the fuel ends before the call
    is decided. *)
Fixpoint run (fuel : nat) (sched : list nat) (watch : nat)
    (pool : list Task) : M (option (option string) * list Task) :=
  match fuel with
  | 0 => ret (decided watch pool, pool)
  | S fuel' =>
      if match decided watch pool with
         | Some _ => (hd 0 sched =? 0)%nat
         | None => false
         end
      then ret (decided watch pool, pool)
      else
        match pick (hd 0 sched) (enabled pool) with
        | None => ret (decided watch pool, pool)
        | Some a =>
            pool' <- exec a pool ;;
            run fuel' (tl sched) watch pool'
        end
  end.

(** [locatePath] in a process where the calls of [pool] are under way:
    the promise it returns, once settled, and the pool it leaves. *)
Definition locatePath (sched : list nat) (paths : list string)
    (o : Options) (pool : list Task) : M (option Result * list Task) :=
  match checkType (type o) with
  | Some message => ret (Some (Threw message), pool)
  | None =>
      let pool' := pool ++ [newTask o paths] in
      r <- run (pool_measure pool') sched (length pool) pool' ;;
      ret (option_map Returned (fst r), snd r)
  end.



(** The part of a key after the resolved path. *)
Definition key_suffix (type : string) (allow : bool) : string :=
  String.append ":"
    (String.append type (String.append ":" (string_of_bool allow))).

(** [get] on a held, unexpired key and [set] both leave the key last. *)
Definition touched (key : string) (e : Entry) (m : JsMap) : JsMap :=
  map_delete key m ++ [(key, e)].

(** What [set] keeps of the old entries. *)
Definition set_base (key : string) (this : LRUCache) : JsMap :=
  if map_has key (cache this) then map_delete key (cache this)
  else if (maxSize this <=? map_size (cache this))%nat then tl (cache this)
  else cache this.

(** The bounded states of a cache. *)
Definition cache_ok (this : LRUCache) : Prop :=
  map_wf (cache this) /\ 0 < maxSize this /\
  map_size (cache this) <= maxSize this.

(** The lookups both locators make for a candidate before they probe:
    the negative cache first, then the positive one. [Some b]: the
    caches answer [b]; [None]: the filesystem has to be asked. *)
Definition consult (o : Options) (key : string) : M (option bool) :=
  if useCache o then
    neg <- negativeCache_get key ;;
    if is_false neg then ret (Some false) else statCache_get key
  else ret None.

(** What a probe of the filesystem answers for a resolved path. *)
Definition probeMatch (allow : bool) (type resolvedPath : string) : bool :=
  match statFunction allow resolvedPath with
  | Found s => match matchType type s with Some b => b | None => false end
  | _ => false
  end.

(** Whether a candidate matches on the filesystem. *)
Definition matches (o : Options) (path_ : string) : bool :=
  probeMatch (allowSymlinks o) (type o) (resolvePath o path_).


(** The check of one candidate in the words of the specification, steps
    1 to 7 of its synchronous algorithm: answer from the negative cache,
    else from the positive cache, else probe, taking a failed probe for
    a non-match, and record the outcome. *)
Definition candidateCheck (o : Options) (path_ : string) : M bool :=
  c <- consult o (keyOf o path_) ;;
  match c with
  | Some b => ret b
  | None =>
      checkPathSync (resolvePath o path_) (keyOf o path_) (type o)
        (allowSymlinks o) (useCache o)
  end.



(** *** Vocabulary for the event loop *)

Definition action_task (a : Action) : nat :=
  match a with Start ti => ti | Finish ti _ => ti end.

Definition step_task (a : Action) : Task -> M Task :=
  match a with
  | Start _ => startCheck
  | Finish _ slot => finishCheck slot
  end.

Definition action_ok (a : Action) (t : Task) : Prop :=
  match a with
  | Start _ => can_start t = true
  | Finish _ slot => slot < length (t_running t)
  end.

Fixpoint replace_nth {A} (n : nat) (x : A) (l : list A) : list A :=
  match l, n with
  | [], _ => []
  | _ :: r, 0 => x :: r
  | y :: r, S n' => y :: replace_nth n' x r
  end.

(** The shape of a call under way: the checks started are those below
    [t_next], and each of them is running or settled. *)
Definition task_wf (t : Task) : Prop :=
  t_next t <= length (t_paths t) /\
  (forall i, In i (t_running t) -> i < t_next t) /\
  (forall i, i < t_next t ->
     In i (t_running t) \/ In i (map fst (t_settled t))).

(** Every settled check of the call says what the filesystem says. *)
Definition settled_sound (t : Task) : Prop :=
  forall i b, In (i, b) (t_settled t) ->
    exists path_, nth_error (t_paths t) i = Some path_ /\
                  b = matches (t_opts t) path_.

(** The states of the two caches the code can reach: no key twice, only
    [true] in the positive cache and only [false] in the negative one. *)
Definition world_wf (w : World) : Prop :=
  map_wf (cache (statCache w)) /\ map_wf (cache (negativeCache w)).

Definition vals_ok (w : World) : Prop :=
  (forall key e, In (key, e) (cache (statCache w)) -> value e = true) /\
  (forall key e, In (key, e) (cache (negativeCache w)) -> value e = false).

(** The caches agree with the filesystem: whatever query a held key
    stands for, a probe would answer as the cache holding it does. *)
Definition agrees (w : World) : Prop :=
  (forall key e r t a,
     In (key, e) (cache (statCache w)) -> valid_type t ->
     key = cacheKey r t a -> probeMatch a t r = true) /\
  (forall key e r t a,
     In (key, e) (cache (negativeCache w)) -> valid_type t ->
     key = cacheKey r t a -> probeMatch a t r = false).

Definition coherent (w : World) : Prop :=
  world_wf w /\ vals_ok w /\ agrees w.

(** The three steps a call can take: its next check is answered by the
    caches, its next check calls the stat function and waits, or one of
    its waiting checks gets its answer. *)
Inductive task_step (t : Task) (w : World) : Task -> World -> Prop :=
| step_answered (p : string) (b : bool) (w' : World) :
    nth_error (t_paths t) (t_next t) = Some p ->
    testerStart (t_opts t) p w = (Some b, w') ->
    task_step t w
      (mkTask (t_opts t) (t_paths t) (S (t_next t)) (t_running t)
         (t_settled t ++ [(t_next t, b)])) w'
| step_pending (p : string) (w' : World) :
    nth_error (t_paths t) (t_next t) = Some p ->
    testerStart (t_opts t) p w = (None, w') ->
    task_step t w
      (mkTask (t_opts t) (t_paths t) (S (t_next t))
         (t_running t ++ [t_next t]) (t_settled t)) w'
| step_finished (slot i : nat) (p : string) (b : bool) (w' : World) :
    nth_error (t_running t) slot = Some i ->
    nth_error (t_paths t) i = Some p ->
    testerFinish (t_opts t) p w = (b, w') ->
    task_step t w
      (mkTask (t_opts t) (t_paths t) (t_next t)
         (remove_nth slot (t_running t)) (t_settled t ++ [(i, b)])) w'.

(** A pool in which every call satisfies [TI], the world satisfies [WI]
    and the call at index [watch] satisfies [P]. *)
Definition watching (WI : World -> Prop) (TI P : Task -> Prop)
    (watch : nat) (pool : list Task) (w : World) : Prop :=
  WI w /\ Forall TI pool /\
  exists t, nth_error pool watch = Some t /\ P t.

(** The call watched is the one made with [o] and [paths], and its
    settled checks say what the filesystem says. *)
Definition sound_call (o : Options) (paths : list string) (t : Task)
  : Prop :=
  t_opts t = o /\ t_paths t = paths /\ settled_sound t.

(** A call under way that was let through by [checkType]. *)
Definition call_ok (t : Task) : Prop :=
  task_wf t /\ valid_type (type (t_opts t)).

(** A call under way that was made with [useCache: false]. *)
Definition call_nocache (t : Task) : Prop :=
  task_wf t /\ useCache (t_opts t) = false.

(** The caches and the log of their accesses are those of [w0]. *)
Definition same_caches (w0 w : World) : Prop :=
  statCache w = statCache w0 /\ negativeCache w = negativeCache w0 /\
  cache_events w = cache_events w0.

(** The caches hold no key twice, only [true] in the positive one and
    only [false] in the negative one. *)
Definition caches_ok (w : World) : Prop := world_wf w /\ vals_ok w.

(** The world after a [get] on the negative cache that finds [e],
    unexpired, under [key]. *)
Definition after_negative_hit (key : string) (e : Entry) (w : World)
  : World :=
  mkWorld (statCache w)
    (with_cache (negativeCache w) (touched key e (cache (negativeCache w))))
    (S (ticks w)) (CacheGet Negative key :: trace w).

(** *** Vocabulary for repeated calls *)

(** The most recently used entries of a cache, a final segment [recent]
    of its iteration order, hold only keys of [K] and hold every key
    that satisfies [T]: the keys touched since the start of a call. *)
Definition retains (K : list string) (T : string -> Prop)
    (this : LRUCache) : Prop :=
  exists old recent,
    cache this = old ++ recent /\
    incl (map_keys recent) K /\
    forall k, T k -> In k (map_keys recent).

(** The two global caches as the module creates them. *)
Definition configured (w : World) : Prop :=
  maxSize (statCache w) = 500 /\ maxSize (negativeCache w) = 500 /\
  ttl (statCache w) = 5000%Z /\ ttl (negativeCache w) = 5000%Z.



(** The candidates of [P] are held by the caches among their most
    recently used entries: by the positive cache when they match, by the
    negative cache when they do not. *)
Definition cached (o : Options) (K : list string) (P : list string)
    (w : World) : Prop :=
  retains K (fun k => exists p, In p P /\ keyOf o p = k /\
                                matches o p = false) (negativeCache w) /\
  retains K (fun k => exists p, In p P /\ keyOf o p = k /\
                                matches o p = true) (statCache w).

(** The candidates [locatePathSync] looks at: those up to the first that
    matches. *)
Fixpoint examined (o : Options) (paths : list string) : list string :=
  match paths with
  | [] => []
  | p :: rest => p :: if matches o p then [] else examined o rest
  end.


(** The world after a [get] on the positive cache that finds [e],
    unexpired, under [key], and after a [get] that finds nothing. *)
Definition after_positive_hit (key : string) (e : Entry) (w : World)
  : World :=
  mkWorld
    (with_cache (statCache w) (touched key e (cache (statCache w))))
    (negativeCache w) (S (ticks w)) (CacheGet Positive key :: trace w).

Definition after_miss (c : Which) (key : string) (w : World) : World :=
  mkWorld (statCache w) (negativeCache w) (S (ticks w))
    (CacheGet c key :: trace w).




(** What a decided call resolves to, when its settled checks say what
    the filesystem says. *)
Definition verdict_facts (o : Options) (paths : list string)
    (v : option string) : Prop :=
  (preserve o = true -> v = find (matches o) paths) /\
  (forall c, v = Some c -> In c paths /\ matches o c = true) /\
  (v = None -> forall c, In c paths -> matches o c = false).

(** *** Vocabulary for sequences of calls on one cache *)

(** A [get] or a [set] on a key other than [key]. *)
Definition on_other_key (key : string) (op : CacheOp) : Prop :=
  match op with
  | OpGet _ k => k <> key
  | OpSet _ k _ => k <> key
  | OpClear => False
  end.

(** Any call but a [set] on [key]. *)
Definition leaves_value (key : string) (op : CacheOp) : Prop :=
  match op with
  | OpSet _ k _ => k <> key
  | _ => True
  end.

(** The keys the calls are made with. *)
Definition op_keys (ops : list CacheOp) : list string :=
  flat_map (fun op => match op with
                      | OpGet _ k => [k]
                      | OpSet _ k _ => [k]
                      | OpClear => []
                      end) ops.

(** A call of [set]. *)
Definition is_set (op : CacheOp) : Prop :=
  match op with
  | OpSet _ _ _ => True
  | _ => False
  end.

(** Whether [set] on a new key has to make room, and for which key it
    does so at the cost of [k]. *)
Definition evicts (key k : string) (this : LRUCache) : bool :=
  negb (map_has key (cache this)) &&
  (maxSize this <=? map_size (cache this))%nat &&
  match map_first_key (cache this) with
  | Some firstKey => String.eqb firstKey k
  | None => false
  end.

(** *** Vocabulary for the checks of a call *)

(** The tester handed to [pLocate], run without anything else of the
    process going on while it waits for its stat call. *)
Definition tester (o : Options) (path_ : string) : M bool :=
  r <- testerStart o path_ ;;
  match r with
  | Some b => ret b
  | None => testerFinish o path_
  end.

(** The options with another working directory. *)
Definition with_cwd (o : Options) (dir : string) : Options :=
  mkOptions dir (type o) (allowSymlinks o) (concurrency o)
    (preserveOrder o) (useCache o).

(** No key is held by both caches. *)
Definition disjoint_caches (w : World) : Prop :=
  forall key,
    In key (map_keys (cache (statCache w))) ->
    ~ In key (map_keys (cache (negativeCache w))).

(** A logged event that belongs to the check of a candidate under the
    options [o]: an access of one of the caches under the candidate's
    key, writing [true] to the positive cache or [false] to the negative
    one, or the stat call on the candidate's resolved path. *)
Definition event_of (o : Options) (path_ : string) (e : Event) : Prop :=
  match e with
  | CacheGet _ key => key = keyOf o path_
  | CacheSet Positive key v => key = keyOf o path_ /\ v = true
  | CacheSet Negative key v => key = keyOf o path_ /\ v = false
  | Probe allow r => allow = allowSymlinks o /\ r = resolvePath o path_
  end.

(** The events of a call that looked at the candidates [looked]. *)
Definition events_of (o : Options) (looked : list string)
    (new : list Event) : Prop :=
  Forall (fun e => exists path_, In path_ looked /\ event_of o path_ e) new.

(** The stat call on a candidate, as the log records it. *)
Definition probe_of (o : Options) (path_ : string) : Event :=
  Probe (allowSymlinks o) (resolvePath o path_).

(** An entry that no lookup serves any more: at every cache operation
    from the [n0]-th on it is older than the [ttl] of its cache. *)
Definition lapsed (this : LRUCache) (n0 : nat) (e : Entry) : Prop :=
  forall n, n0 <= n -> (now n - timestamp e > ttl this)%Z.

(** Every entry of a cache has lapsed or says what a probe would say,
    which is [truth] for every query its key stands for. *)
Definition sound_entries (truth : bool) (this : LRUCache) (n0 : nat)
  : Prop :=
  forall key e, In (key, e) (cache this) ->
    lapsed this n0 e \/
    (value e = truth /\
     forall r t a, valid_type t -> key = cacheKey r t a ->
                   probeMatch a t r = truth).

(** The caches can be trusted: what they hold wrongly, they hold too
    long to serve it. *)
Definition trustworthy (w : World) : Prop :=
  world_wf w /\
  sound_entries true (statCache w) (ticks w) /\
  sound_entries false (negativeCache w) (ticks w).

(** The two caches as the module creates them, each within its
    capacity. *)
Definition within_capacity (w : World) : Prop :=
  cache_ok (statCache w) /\ cache_ok (negativeCache w) /\ configured w.

(** [tauto] over the propositions of the context alone: left in the
    context, a function among the section variables is taken by [tauto]
    for an implication, and the lemma then depends on it. *)
Ltac prop :=
  repeat match goal with
         | x : ?T |- _ =>
             lazymatch type of T with
             | Prop => fail
             | _ => clear x
             end
         end;
  tauto.

(* ================================================================== *)
(** ** Properties of the cache keys *)

Lemma chars_app (s1 s2 : string) :
  list_ascii_of_string (String.append s1 s2) =
  list_ascii_of_string s1 ++ list_ascii_of_string s2.
Proof.
  induction s1 as [|c s1 IH]; simpl; [reflexivity|].
  now rewrite IH.
Qed.

Lemma chars_inj (s1 s2 : string) :
  list_ascii_of_string s1 = list_ascii_of_string s2 -> s1 = s2.
Proof.
  intros H.
  rewrite <- (string_of_list_ascii_of_string s1),
          <- (string_of_list_ascii_of_string s2).
  now rewrite H.
Qed.

Lemma cacheKey_suffix (p type : string) (allow : bool) :
  cacheKey p type allow = String.append p (key_suffix type allow).
Proof. reflexivity. Qed.

Lemma rev_chars_key (p type : string) (allow : bool) :
  rev (list_ascii_of_string (cacheKey p type allow)) =
  rev (list_ascii_of_string (key_suffix type allow)) ++
  rev (list_ascii_of_string p).
Proof. now rewrite cacheKey_suffix, chars_app, rev_app_distr. Qed.

Lemma rev_inj {A} (l1 l2 : list A) : rev l1 = rev l2 -> l1 = l2.
Proof.
  intros H. rewrite <- (rev_involutive l1), <- (rev_involutive l2).
  now rewrite H.
Qed.

(** Keys built from valid selectors determine their three components:
    the last characters of a key spell the flag and the selector. *)
Lemma cacheKey_inj (p1 t1 : string) (a1 : bool) (p2 t2 : string)
    (a2 : bool) :
  valid_type t1 -> valid_type t2 ->
  cacheKey p1 t1 a1 = cacheKey p2 t2 a2 ->
  p1 = p2 /\ t1 = t2 /\ a1 = a2.
Proof.
  intros V1 V2 H.
  apply (f_equal (fun s => rev (list_ascii_of_string s))) in H.
  rewrite !rev_chars_key in H.
  destruct V1 as [->|[->| ->]], V2 as [->|[->| ->]], a1, a2;
    simpl in H; try discriminate H;
    (split; [|split; reflexivity]);
    injection H as H; apply rev_inj in H; now apply chars_inj.
Qed.

(** C7. The cache key is the resolved path, the type selector and the
    symlink flag joined by colons, a function of these three alone; for
    valid type selectors two keys are equal exactly when the three
    components are: equal inputs give equal keys, and inputs that differ
    in any component give different keys. *)
Theorem cacheKey_distinguishes (p1 t1 : string) (a1 : bool)
    (p2 t2 : string) (a2 : bool) :
  valid_type t1 -> valid_type t2 ->
  cacheKey p1 t1 a1 =
    String.append p1
      (String.append ":"
         (String.append t1
            (String.append ":" (if a1 then "true" else "false")))) /\
  (cacheKey p1 t1 a1 = cacheKey p2 t2 a2 <->
   p1 = p2 /\ t1 = t2 /\ a1 = a2).
Proof.
  intros V1 V2. split; [reflexivity|]. split.
  - now apply cacheKey_inj.
  - intros (-> & -> & ->). reflexivity.
Qed.

(* ================================================================== *)
(** ** Properties of the Map *)

Lemma map_get_none (key : string) (m : JsMap) :
  map_get key m = None <-> ~ In key (map_keys m).
Proof.
  induction m as [|[k e] m IH]; simpl.
  - prop.
  - destruct (String.eqb_spec k key) as [->|Hne].
    + split; [discriminate|]. intros H. exfalso. apply H. now left.
    + rewrite IH. split.
      * intros H [E|I]; [congruence|prop].
      * prop.
Qed.

Lemma map_get_some_in (key : string) (m : JsMap) (e : Entry) :
  map_get key m = Some e -> In (key, e) m.
Proof.
  induction m as [|[k e0] m IH]; simpl; [discriminate|].
  destruct (String.eqb_spec k key) as [->|Hne].
  - intros [= ->]. now left.
  - intros H. right. now apply IH.
Qed.

Lemma map_get_in_keys (key : string) (m : JsMap) (e : Entry) :
  map_get key m = Some e -> In key (map_keys m).
Proof.
  intros H. apply map_get_some_in in H.
  apply (in_map fst) in H. exact H.
Qed.

Lemma map_has_true (key : string) (m : JsMap) :
  map_has key m = true <-> In key (map_keys m).
Proof.
  unfold map_has. destruct (map_get key m) eqn:E.
  - split; [intros _; eapply map_get_in_keys; eauto | reflexivity].
  - apply map_get_none in E. split; [discriminate | prop].
Qed.

Lemma map_has_false (key : string) (m : JsMap) :
  map_has key m = false <-> ~ In key (map_keys m).
Proof.
  rewrite <- map_has_true. destruct (map_has key m); split; congruence.
Qed.

Lemma map_in_get (key : string) (e : Entry) (m : JsMap) :
  map_wf m -> In (key, e) m -> map_get key m = Some e.
Proof.
  unfold map_wf. induction m as [|[k e0] m IH]; simpl; [prop|].
  intros W [E|I].
  - injection E as -> ->. now rewrite String.eqb_refl.
  - inversion W as [|? ? Hn W']; subst.
    destruct (String.eqb_spec k key) as [->|Hne].
    + exfalso. apply Hn. apply (in_map fst) in I. exact I.
    + now apply IH.
Qed.

Lemma map_delete_absent (key : string) (m : JsMap) :
  ~ In key (map_keys m) -> map_delete key m = m.
Proof.
  induction m as [|[k e] m IH]; simpl; [reflexivity|].
  intros H. destruct (String.eqb_spec k key) as [->|Hne].
  - exfalso. apply H. now left.
  - f_equal. apply IH. prop.
Qed.

Lemma map_delete_keys_incl (key : string) (m : JsMap) (k : string) :
  In k (map_keys (map_delete key m)) -> In k (map_keys m).
Proof.
  induction m as [|[k0 e] m IH]; simpl; [prop|].
  destruct (String.eqb k0 key); simpl; [prop|].
  intros [E|I]; [now left | right; now apply IH].
Qed.

Lemma map_delete_in_incl (key : string) (m : JsMap) (x : string * Entry) :
  In x (map_delete key m) -> In x m.
Proof.
  induction m as [|[k0 e] m IH]; simpl; [prop|].
  destruct (String.eqb k0 key); simpl; [prop|].
  intros [E|I]; [now left | right; now apply IH].
Qed.

Lemma map_delete_wf (key : string) (m : JsMap) :
  map_wf m -> map_wf (map_delete key m).
Proof.
  unfold map_wf. induction m as [|[k e] m IH]; simpl; [trivial|].
  intros W. inversion W as [|? ? Hn W']; subst.
  destruct (String.eqb k key); [exact W'|].
  simpl. constructor; [|now apply IH].
  intros I. apply Hn. eapply map_delete_keys_incl; eauto.
Qed.

Lemma map_delete_gone (key : string) (m : JsMap) :
  map_wf m -> ~ In key (map_keys (map_delete key m)).
Proof.
  unfold map_wf. induction m as [|[k e] m IH]; simpl; [prop|].
  intros W. inversion W as [|? ? Hn W']; subst.
  destruct (String.eqb_spec k key) as [->|Hne]; [exact Hn|].
  simpl. intros [E|I]; [congruence|]. now apply IH.
Qed.

Lemma map_delete_other (key k : string) (m : JsMap) :
  k <> key -> In k (map_keys m) -> In k (map_keys (map_delete key m)).
Proof.
  intros Hne. induction m as [|[k0 e] m IH]; simpl; [prop|].
  destruct (String.eqb_spec k0 key) as [->|Hne0].
  - intros [E|I]; [congruence|exact I].
  - simpl. intros [E|I]; [now left | right; now apply IH].
Qed.

Lemma map_delete_size (key : string) (m : JsMap) :
  In key (map_keys m) -> S (map_size (map_delete key m)) = map_size m.
Proof.
  unfold map_size. induction m as [|[k e] m IH]; simpl; [prop|].
  destruct (String.eqb_spec k key) as [->|Hne]; [reflexivity|].
  intros [E|I]; [congruence|]. simpl. now rewrite IH.
Qed.

Lemma map_set_fresh (key : string) (e : Entry) (m : JsMap) :
  ~ In key (map_keys m) -> map_set key e m = m ++ [(key, e)].
Proof.
  induction m as [|[k e0] m IH]; simpl; [reflexivity|].
  intros H. destruct (String.eqb_spec k key) as [->|Hne].
  - exfalso. apply H. now left.
  - f_equal. apply IH. prop.
Qed.

Lemma map_keys_app (m1 m2 : JsMap) :
  map_keys (m1 ++ m2) = map_keys m1 ++ map_keys m2.
Proof. apply map_app. Qed.

Lemma map_wf_snoc (key : string) (e : Entry) (m : JsMap) :
  map_wf m -> ~ In key (map_keys m) -> map_wf (m ++ [(key, e)]).
Proof.
  unfold map_wf. intros W H. rewrite map_keys_app. simpl.
  apply NoDup_app; [exact W | repeat constructor; simpl; prop |].
  intros x Hx [<-|[]]. exact (H Hx).
Qed.

Lemma map_get_snoc_same (key : string) (e : Entry) (m : JsMap) :
  ~ In key (map_keys m) -> map_get key (m ++ [(key, e)]) = Some e.
Proof.
  induction m as [|[k e0] m IH]; simpl.
  - now rewrite String.eqb_refl.
  - intros H. destruct (String.eqb_spec k key) as [->|Hne].
    + exfalso. apply H. now left.
    + apply IH. prop.
Qed.

Lemma map_set_delete (key : string) (e : Entry) (m : JsMap) :
  map_wf m -> map_set key e (map_delete key m) = touched key e m.
Proof. intros W. apply map_set_fresh. now apply map_delete_gone. Qed.

Lemma touched_wf (key : string) (e : Entry) (m : JsMap) :
  map_wf m -> map_wf (touched key e m).
Proof.
  intros W. apply map_wf_snoc;
    [now apply map_delete_wf | now apply map_delete_gone].
Qed.

Lemma touched_size (key : string) (e : Entry) (m : JsMap) :
  In key (map_keys m) -> map_size (touched key e m) = map_size m.
Proof.
  intros I. unfold touched, map_size. rewrite length_app. simpl.
  pose proof (map_delete_size key m I) as H. unfold map_size in H. lia.
Qed.

(* ================================================================== *)
(** ** Properties of the LRU cache *)

Lemma LRU_get_absent (time : Z) (key : string) (this : LRUCache) :
  map_get key (cache this) = None -> LRU_get time key this = (None, this).
Proof. intros H. unfold LRU_get. now rewrite H. Qed.

Lemma LRU_get_expired (time : Z) (key : string) (this : LRUCache)
    (e : Entry) :
  map_get key (cache this) = Some e ->
  (time - timestamp e > ttl this)%Z ->
  LRU_get time key this =
  (None, with_cache this (map_delete key (cache this))).
Proof.
  intros H Hx. unfold LRU_get. rewrite H.
  destruct (Z.gtb_spec (time - timestamp e) (ttl this)); [reflexivity|lia].
Qed.

Lemma LRU_get_hit (time : Z) (key : string) (this : LRUCache) (e : Entry) :
  map_wf (cache this) ->
  map_get key (cache this) = Some e ->
  (time - timestamp e <= ttl this)%Z ->
  LRU_get time key this =
  (Some (value e), with_cache this (touched key e (cache this))).
Proof.
  intros W H Hx. unfold LRU_get. rewrite H.
  destruct (Z.gtb_spec (time - timestamp e) (ttl this)); [lia|].
  now rewrite map_set_delete.
Qed.

Lemma delete_first_key (m : JsMap) :
  match map_first_key m with
  | Some firstKey => map_delete firstKey m
  | None => m
  end = tl m.
Proof.
  destruct m as [|[k e] m]; simpl; [reflexivity|].
  now rewrite String.eqb_refl.
Qed.

Lemma set_base_fresh (key : string) (this : LRUCache) :
  map_wf (cache this) -> ~ In key (map_keys (set_base key this)).
Proof.
  intros W. unfold set_base.
  destruct (map_has key (cache this)) eqn:E.
  - now apply map_delete_gone.
  - apply map_has_false in E.
    destruct (maxSize this <=? map_size (cache this))%nat; [|exact E].
    destruct (cache this) as [|[k e] m]; simpl in *; prop.
Qed.

Lemma LRU_set_cache (time : Z) (key : string) (v : bool)
    (this : LRUCache) :
  map_wf (cache this) ->
  cache (LRU_set time key v this) =
  set_base key this ++ [(key, mkEntry v time)].
Proof.
  intros W. unfold LRU_set. rewrite delete_first_key. simpl.
  apply map_set_fresh. now apply set_base_fresh.
Qed.

Lemma tl_wf (m : JsMap) : map_wf m -> map_wf (tl m).
Proof.
  unfold map_wf. destruct m as [|x m]; simpl; [trivial|].
  intros W. now inversion W.
Qed.

Lemma set_base_wf (key : string) (this : LRUCache) :
  map_wf (cache this) -> map_wf (set_base key this).
Proof.
  intros W. unfold set_base.
  destruct (map_has key (cache this)); [now apply map_delete_wf|].
  destruct (maxSize this <=? map_size (cache this))%nat;
    [now apply tl_wf | exact W].
Qed.

Lemma LRU_set_wf (time : Z) (key : string) (v : bool) (this : LRUCache) :
  map_wf (cache this) -> map_wf (cache (LRU_set time key v this)).
Proof.
  intros W. rewrite LRU_set_cache by exact W.
  apply map_wf_snoc; [now apply set_base_wf | now apply set_base_fresh].
Qed.

Lemma LRU_get_wf (time : Z) (key : string) (this : LRUCache) :
  map_wf (cache this) -> map_wf (cache (snd (LRU_get time key this))).
Proof.
  intros W. unfold LRU_get.
  destruct (map_get key (cache this)) as [e|] eqn:E; [|exact W].
  destruct (time - timestamp e >? ttl this)%Z; simpl.
  - now apply map_delete_wf.
  - rewrite map_set_delete by exact W. now apply touched_wf.
Qed.

Lemma LRU_get_config (time : Z) (key : string) (this : LRUCache) :
  maxSize (snd (LRU_get time key this)) = maxSize this /\
  ttl (snd (LRU_get time key this)) = ttl this.
Proof.
  unfold LRU_get. destruct (map_get key (cache this)) as [e|];
    [destruct (time - timestamp e >? ttl this)%Z|]; simpl; auto.
Qed.

Lemma LRU_set_config (time : Z) (key : string) (v : bool)
    (this : LRUCache) :
  maxSize (LRU_set time key v this) = maxSize this /\
  ttl (LRU_set time key v this) = ttl this.
Proof. unfold LRU_set. simpl. auto. Qed.

Lemma LRU_get_size (time : Z) (key : string) (this : LRUCache) :
  map_wf (cache this) ->
  map_size (cache (snd (LRU_get time key this))) <= map_size (cache this).
Proof.
  intros W. unfold LRU_get.
  destruct (map_get key (cache this)) as [e|] eqn:E; [|simpl; lia].
  pose proof (map_delete_size key (cache this) (map_get_in_keys _ _ _ E)).
  destruct (time - timestamp e >? ttl this)%Z; simpl.
  - lia.
  - rewrite map_set_delete by exact W.
    rewrite touched_size by (eapply map_get_in_keys; eauto). lia.
Qed.

Lemma LRU_set_size (time : Z) (key : string) (v : bool)
    (this : LRUCache) :
  map_wf (cache this) -> 0 < maxSize this ->
  map_size (cache this) <= maxSize this ->
  map_size (cache (LRU_set time key v this)) <= maxSize this.
Proof.
  intros W Hpos Hle. rewrite LRU_set_cache by exact W.
  unfold map_size. rewrite length_app. simpl. unfold set_base.
  destruct (map_has key (cache this)) eqn:E.
  - apply map_has_true in E.
    pose proof (map_delete_size key (cache this) E) as H.
    unfold map_size in *. lia.
  - destruct (Nat.leb_spec (maxSize this) (map_size (cache this)))
      as [Hf|Hf]; unfold map_size in *.
    + destruct (cache this) as [|x m]; simpl in *; lia.
    + lia.
Qed.

Lemma apply_op_ok (op : CacheOp) (this : LRUCache) :
  cache_ok this ->
  cache_ok (apply_op op this) /\
  maxSize (apply_op op this) = maxSize this.
Proof.
  intros (W & Hpos & Hle). destruct op as [time key|time key v|]; simpl.
  - destruct (LRU_get_config time key this) as [Hm _].
    pose proof (LRU_get_size time key this W).
    unfold cache_ok. rewrite Hm.
    repeat split; auto using LRU_get_wf. lia.
  - destruct (LRU_set_config time key v this) as [Hm _].
    unfold cache_ok. rewrite Hm.
    repeat split; auto using LRU_set_wf, LRU_set_size.
  - unfold cache_ok, map_wf, map_size. simpl.
    repeat split; auto using NoDup_nil. lia.
Qed.

Lemma apply_ops_ok (ops : list CacheOp) (this : LRUCache) :
  cache_ok this ->
  cache_ok (apply_ops ops this) /\
  maxSize (apply_ops ops this) = maxSize this.
Proof.
  revert this. induction ops as [|op ops IH]; intros this H; simpl.
  - auto.
  - destruct (apply_op_ok op _ H) as [H1 E1].
    destruct (IH _ H1) as [H2 E2]. split; [exact H2 | congruence].
Qed.

Lemma newLRUCache_ok (n : nat) (t : Z) : 0 < n -> cache_ok (newLRUCache n t).
Proof.
  intros H. unfold cache_ok, map_wf, map_size. simpl.
  repeat split; auto using NoDup_nil. lia.
Qed.

(** C3. [set(key, value)]: a key already held is removed and put back
    last, in the most recently used place, with the time of the call;
    for a new key on a cache holding [maxSize] entries exactly the first
    entry in iteration order, the least recently used, is removed before
    the new one goes last; and whatever calls of get, set and clear are
    made on a cache created as [new LRUCache(500, 5000)], it never holds
    more than 500 entries. *)
Theorem LRU_set_spec (time : Z) (key : string) (v : bool)
    (this : LRUCache) :
  map_wf (cache this) ->
  (map_has key (cache this) = true ->
   cache (LRU_set time key v this) =
   map_delete key (cache this) ++ [(key, mkEntry v time)] /\
   map_size (cache (LRU_set time key v this)) = map_size (cache this)) /\
  (map_has key (cache this) = false ->
   map_size (cache this) = maxSize this -> 0 < maxSize this ->
   exists lru rest,
     cache this = lru :: rest /\
     cache (LRU_set time key v this) = rest ++ [(key, mkEntry v time)] /\
     map_size (cache (LRU_set time key v this)) = maxSize this) /\
  (forall ops : list CacheOp,
     map_size (cache (apply_ops ops (newLRUCache 500 5000))) <= 500).
Proof.
  intros W. split; [|split].
  - intros H. rewrite LRU_set_cache by exact W.
    unfold set_base. rewrite H. split; [reflexivity|].
    apply touched_size. now apply map_has_true.
  - intros H Hsz Hpos. rewrite LRU_set_cache by exact W.
    unfold set_base. rewrite H, Hsz, Nat.leb_refl.
    unfold map_size in *.
    destruct (cache this) as [|lru rest]; simpl in *; [lia|].
    exists lru, rest. rewrite length_app. simpl.
    repeat split; lia.
  - intros ops.
    assert (H : cache_ok (newLRUCache 500 5000))
      by (apply newLRUCache_ok; lia).
    destruct (apply_ops_ok ops _ H) as [(_ & _ & Hle) E].
    rewrite E in Hle. exact Hle.
Qed.

(** C4. [get(key)]: a key that is not held gives absent and changes
    nothing; an entry older than [ttl] at the time of the call is deleted
    and gives absent; any other entry is moved last, to the most
    recently used place, and its value returned, and the entry moved is
    the one that was written: its timestamp is unchanged. *)
Theorem LRU_get_spec (time : Z) (key : string) (this : LRUCache) :
  map_wf (cache this) ->
  (map_get key (cache this) = None ->
   LRU_get time key this = (None, this)) /\
  (forall e, map_get key (cache this) = Some e ->
     (time - timestamp e > ttl this)%Z ->
     LRU_get time key this =
     (None, with_cache this (map_delete key (cache this))) /\
     map_get key (cache (snd (LRU_get time key this))) = None) /\
  (forall e, map_get key (cache this) = Some e ->
     (time - timestamp e <= ttl this)%Z ->
     LRU_get time key this =
     (Some (value e),
      with_cache this (map_delete key (cache this) ++ [(key, e)])) /\
     map_get key (cache (snd (LRU_get time key this))) = Some e).
Proof.
  intros W. split; [|split].
  - apply LRU_get_absent.
  - intros e H Hx. rewrite (LRU_get_expired _ _ _ _ H Hx). split; auto.
    simpl. apply map_get_none. now apply map_delete_gone.
  - intros e H Hx. rewrite (LRU_get_hit _ _ _ _ W H Hx). split; auto.
    simpl. apply map_get_snoc_same. now apply map_delete_gone.
Qed.

Lemma LRU_get_entries (time : Z) (key : string) (this : LRUCache)
    (x : string * Entry) :
  map_wf (cache this) ->
  In x (cache (snd (LRU_get time key this))) -> In x (cache this).
Proof.
  intros W. unfold LRU_get.
  destruct (map_get key (cache this)) as [e|] eqn:E; [|trivial].
  destruct (time - timestamp e >? ttl this)%Z; simpl.
  - apply map_delete_in_incl.
  - rewrite map_set_delete by exact W. unfold touched.
    rewrite in_app_iff. intros [I|[<-|[]]].
    + eapply map_delete_in_incl; eauto.
    + now apply map_get_some_in.
Qed.

Lemma set_base_entries (key : string) (this : LRUCache)
    (x : string * Entry) :
  In x (set_base key this) -> In x (cache this).
Proof.
  unfold set_base. destruct (map_has key (cache this)).
  - apply map_delete_in_incl.
  - destruct (maxSize this <=? map_size (cache this))%nat; [|trivial].
    destruct (cache this); simpl; auto.
Qed.

Lemma LRU_set_entries (time : Z) (key : string) (v : bool)
    (this : LRUCache) (x : string * Entry) :
  map_wf (cache this) ->
  In x (cache (LRU_set time key v this)) ->
  In x (cache this) \/ x = (key, mkEntry v time).
Proof.
  intros W. rewrite LRU_set_cache by exact W. rewrite in_app_iff.
  intros [I|[<-|[]]]; [left; eapply set_base_entries; eauto | now right].
Qed.

Lemma LRU_set_holds (time : Z) (key : string) (v : bool)
    (this : LRUCache) :
  map_wf (cache this) ->
  map_get key (cache (LRU_set time key v this)) = Some (mkEntry v time).
Proof.
  intros W. rewrite LRU_set_cache by exact W.
  apply map_get_snoc_same. now apply set_base_fresh.
Qed.

(* ================================================================== *)
(** ** The steps on the world *)

Lemma negativeCache_get_eq (key : string) (w : World) :
  negativeCache_get key w =
  (fst (LRU_get (now (ticks w)) key (negativeCache w)),
   mkWorld (statCache w)
     (snd (LRU_get (now (ticks w)) key (negativeCache w)))
     (S (ticks w)) (CacheGet Negative key :: trace w)).
Proof.
  unfold negativeCache_get.
  now destruct (LRU_get (now (ticks w)) key (negativeCache w)).
Qed.

Lemma statCache_get_eq (key : string) (w : World) :
  statCache_get key w =
  (fst (LRU_get (now (ticks w)) key (statCache w)),
   mkWorld (snd (LRU_get (now (ticks w)) key (statCache w)))
     (negativeCache w) (S (ticks w)) (CacheGet Positive key :: trace w)).
Proof.
  unfold statCache_get.
  now destruct (LRU_get (now (ticks w)) key (statCache w)).
Qed.

Lemma scanSync_cons (o : Options) (path_ : string) (rest : list string)
    (w : World) :
  scanSync o (path_ :: rest) w =
  (c <- consult o (keyOf o path_) ;;
   match c with
   | Some true => ret (Some path_)
   | Some false => scanSync o rest
   | None =>
       hit <- checkPathSync (resolvePath o path_) (keyOf o path_) (type o)
                (allowSymlinks o) (useCache o) ;;
       if hit then ret (Some path_) else scanSync o rest
   end) w.
Proof.
  simpl. unfold consult, keyOf, bind, ret.
  destruct (useCache o); [|reflexivity].
  destruct (negativeCache_get _ w) as [neg w1].
  destruct (is_false neg); [reflexivity|].
  now destruct (statCache_get _ w1) as [[[|]|] w2].
Qed.

Lemma testerStart_eq (o : Options) (path_ : string) (w : World) :
  testerStart o path_ w =
  (c <- consult o (keyOf o path_) ;;
   match c with
   | Some b => ret (Some b)
   | None => callStat (allowSymlinks o) (resolvePath o path_) ;;; ret None
   end) w.
Proof.
  unfold testerStart, consult, keyOf, bind, ret.
  destruct (useCache o); [|reflexivity].
  destruct (negativeCache_get _ w) as [neg w1].
  destruct (is_false neg); [reflexivity|].
  now destruct (statCache_get _ w1) as [[c|] w2].
Qed.

Lemma checkPathSync_eq (r key t : string) (allow uc : bool) (w : World) :
  checkPathSync r key t allow uc w =
  (callStat allow r ;;;
   when uc (if probeMatch allow t r then statCache_set key true
            else negativeCache_set key false) ;;;
   ret (probeMatch allow t r)) w.
Proof.
  unfold checkPathSync, probeMatch, bind, callStat.
  destruct (statFunction allow r) as [| |s]; try reflexivity.
  now destruct (matchType t s) as [[|]|].
Qed.

Lemma testerFinish_eq (o : Options) (path_ : string) (w : World) :
  testerFinish o path_ w =
  (when (useCache o)
     (if matches o path_ then statCache_set (keyOf o path_) true
      else negativeCache_set (keyOf o path_) false) ;;;
   ret (matches o path_)) w.
Proof.
  unfold testerFinish, matches, probeMatch, keyOf, bind.
  destruct (statFunction (allowSymlinks o) (resolvePath o path_))
    as [| |s]; try reflexivity.
  now destruct (matchType (type o) s) as [[|]|].
Qed.

(** *** Type selectors *)

Lemma checkType_valid (t : string) : valid_type t -> checkType t = None.
Proof. intros [->|[->| ->]]; reflexivity. Qed.

Lemma checkType_invalid (t : string) :
  ~ valid_type t ->
  checkType t = Some (String.append "Invalid type specified: " t).
Proof.
  intros H. unfold checkType, typeMappings, valid_type in *.
  destruct (String.eqb_spec t "both"); [prop|].
  destruct (String.eqb_spec t "directory"); [prop|].
  destruct (String.eqb_spec t "file"); [prop|reflexivity].
Qed.

(** C5. For a type selector other than 'file', 'directory' and 'both',
    both locators fail at once with the error that names the selector:
    the world is the one they were called in, so no cache was read or
    written and no path probed, and the asynchronous locator has
    started no check. *)
Theorem invalid_type_fails (sched : list nat) (paths : list string)
    (o : Options) (pool : list Task) (w : World) :
  ~ valid_type (type o) ->
  locatePathSync paths o w =
    (Threw (String.append "Invalid type specified: " (type o)), w) /\
  locatePath sched paths o pool w =
    (Some (Threw (String.append "Invalid type specified: " (type o))),
     pool, w).
Proof.
  intros H. unfold locatePathSync, locatePath.
  rewrite (checkType_invalid _ H). split; reflexivity.
Qed.

(* ================================================================== *)
(** ** The sequential scan *)

(* ================================================================== *)
(** ** The sequential scan *)

Lemma scanSync_step (o : Options) (path_ : string) (rest : list string)
    (w : World) :
  scanSync o (path_ :: rest) w =
  (b <- candidateCheck o path_ ;;
   if b then ret (Some path_) else scanSync o rest) w.
Proof.
  rewrite scanSync_cons. unfold candidateCheck, bind.
  destruct (consult o (keyOf o path_) w) as [[[|]|] w1]; reflexivity.
Qed.



(* ================================================================== *)
(** ** The event loop *)

Lemma update_task_spec (n : nat) (f : Task -> M Task) (pool : list Task)
    (t : Task) (w : World) :
  nth_error pool n = Some t ->
  update_task n f pool w = (replace_nth n (fst (f t w)) pool, snd (f t w)).
Proof.
  revert n w. induction pool as [|t0 rest IH]; intros [|n] w H;
    simpl in *; try discriminate.
  - injection H as ->. unfold bind, ret. now destruct (f t w).
  - unfold bind, ret. rewrite (IH _ _ H). reflexivity.
Qed.

Lemma exec_spec (a : Action) (pool : list Task) (t : Task) (w : World) :
  nth_error pool (action_task a) = Some t ->
  exec a pool w =
  (replace_nth (action_task a) (fst (step_task a t w)) pool,
   snd (step_task a t w)).
Proof. destruct a; simpl; apply update_task_spec. Qed.

Lemma pool_actions_spec (a : Action) (k : nat) (pool : list Task) :
  In a (pool_actions k pool) ->
  exists t, k <= action_task a /\
            nth_error pool (action_task a - k) = Some t /\ action_ok a t.
Proof.
  revert k. induction pool as [|t rest IH]; intros k; simpl; [prop|].
  rewrite in_app_iff. intros [H|H].
  - exists t. unfold task_actions in H. rewrite in_app_iff in H.
    destruct H as [H|H].
    + destruct (can_start t) eqn:E; [|destruct H].
      destruct H as [<-|[]]. simpl. rewrite Nat.sub_diag. auto.
    + apply in_map_iff in H. destruct H as (slot & <- & H).
      apply in_seq in H. simpl. rewrite Nat.sub_diag. repeat split; lia.
  - destruct (IH _ H) as (t' & Hle & Hn & Hok). exists t'.
    replace (action_task a - k) with (S (action_task a - S k)) by lia.
    simpl. repeat split; auto; lia.
Qed.

Lemma enabled_spec (a : Action) (pool : list Task) :
  In a (enabled pool) ->
  exists t, nth_error pool (action_task a) = Some t /\ action_ok a t.
Proof.
  intros H. destruct (pool_actions_spec _ _ _ H) as (t & _ & Hn & Hok).
  rewrite Nat.sub_0_r in Hn. eauto.
Qed.

Lemma pool_actions_in (a : Action) (k : nat) (pool : list Task) (n : nat)
    (t : Task) :
  nth_error pool n = Some t -> In a (task_actions (k + n) t) ->
  In a (pool_actions k pool).
Proof.
  revert k n. induction pool as [|t0 rest IH]; intros k [|n] Hn Ha;
    simpl in *; try discriminate; rewrite in_app_iff.
  - injection Hn as ->. rewrite Nat.add_0_r in Ha. now left.
  - right. apply (IH (S k) n Hn).
    now replace (S k + n) with (k + S n) by lia.
Qed.

Lemma pick_in (c : nat) (en : list Action) (a : Action) :
  pick c en = Some a -> In a en.
Proof.
  unfold pick. destruct en as [|a0 en]; [discriminate|]. intros H.
  assert (E : a = nth (c mod length (a0 :: en)) (a0 :: en) a0)
    by congruence.
  rewrite E. apply nth_In. apply Nat.mod_upper_bound. discriminate.
Qed.

Lemma pick_some (c : nat) (en : list Action) :
  en <> [] -> exists a, pick c en = Some a.
Proof. destruct en; [prop|]. intros _. simpl. eauto. Qed.

Lemma Forall_replace_nth {A} (P : A -> Prop) (n : nat) (x : A)
    (l : list A) :
  Forall P l -> P x -> Forall P (replace_nth n x l).
Proof.
  intros H Hx. revert n. induction H as [|y l Hy Hl IH]; intros [|n];
    simpl; auto.
Qed.

Lemma nth_error_replace_same {A} (n : nat) (x : A) (l : list A) :
  n < length l -> nth_error (replace_nth n x l) n = Some x.
Proof.
  revert n. induction l as [|y l IH]; intros [|n] H; simpl in *;
    try lia; auto. apply IH. lia.
Qed.

Lemma nth_error_replace_other {A} (n m : nat) (x : A) (l : list A) :
  n <> m -> nth_error (replace_nth n x l) m = nth_error l m.
Proof.
  revert n m. induction l as [|y l IH]; intros [|n] [|m] H; simpl;
    try reflexivity; try congruence. apply IH. congruence.
Qed.

Lemma length_replace_nth {A} (n : nat) (x : A) (l : list A) :
  length (replace_nth n x l) = length l.
Proof.
  revert n. induction l as [|y l IH]; intros [|n]; simpl; auto.
Qed.

(** Invariants of the pool and the world pass through the loop. *)
Section Invariant.

Variable Inv : list Task -> World -> Prop.

Hypothesis Inv_exec : forall a pool w,
  Inv pool w -> In a (enabled pool) ->
  Inv (fst (exec a pool w)) (snd (exec a pool w)).

Lemma run_invariant (fuel : nat) (sched : list nat) (watch : nat)
    (pool : list Task) (w : World) :
  Inv pool w ->
  Inv (snd (fst (run fuel sched watch pool w)))
      (snd (run fuel sched watch pool w)).
Proof using Inv_exec.
  revert sched pool w. induction fuel as [|fuel IH]; intros sched pool w H;
    simpl; [exact H|].
  destruct (match decided watch pool with
            | Some _ => (hd 0 sched =? 0)%nat
            | None => false
            end); [exact H|].
  destruct (pick (hd 0 sched) (enabled pool)) as [a|] eqn:E; [|exact H].
  unfold bind. pose proof (Inv_exec a pool w H (pick_in _ _ _ E)) as H'.
  destruct (exec a pool w) as [pool' w']. apply IH. exact H'.
Qed.


End Invariant.

(** An invariant of the world and of each call passes through a step of
    the pool when it passes through each step of a call. *)
Lemma exec_pool_inv (WI : World -> Prop) (TI : Task -> Prop) :
  (forall a t w, WI w -> TI t -> action_ok a t ->
     WI (snd (step_task a t w)) /\ TI (fst (step_task a t w))) ->
  forall a pool w,
    WI w /\ Forall TI pool -> In a (enabled pool) ->
    WI (snd (exec a pool w)) /\ Forall TI (fst (exec a pool w)).
Proof.
  intros Hstep a pool w [Hw Hp] Ha.
  destruct (enabled_spec _ _ Ha) as (t & Hn & Hok).
  rewrite (exec_spec _ _ _ _ Hn). simpl.
  assert (Ht : TI t).
  { rewrite Forall_forall in Hp. apply Hp. eapply nth_error_In; eauto. }
  destruct (Hstep a t w Hw Ht Hok) as [Hw' Ht']. split; [exact Hw'|].
  now apply Forall_replace_nth.
Qed.

Lemma run_result (fuel : nat) (sched : list nat) (watch : nat)
    (pool : list Task) (w : World) :
  fst (fst (run fuel sched watch pool w)) =
  decided watch (snd (fst (run fuel sched watch pool w))).
Proof.
  revert sched pool w. induction fuel as [|fuel IH]; intros sched pool w;
    simpl; [reflexivity|].
  destruct (match decided watch pool with
            | Some _ => (hd 0 sched =? 0)%nat
            | None => false
            end); [reflexivity|].
  destruct (pick (hd 0 sched) (enabled pool)) as [a|]; [|reflexivity].
  unfold bind. destruct (exec a pool w) as [pool' w']. apply IH.
Qed.

(** *** The steps of a call *)

Lemma can_start_next (t : Task) :
  can_start t = true -> t_next t < length (t_paths t).
Proof.
  unfold can_start. intros H. apply andb_prop in H. destruct H as [H _].
  now apply Nat.ltb_lt in H.
Qed.

Lemma step_task_rel (a : Action) (t : Task) (w : World) :
  task_wf t -> action_ok a t ->
  task_step t w (fst (step_task a t w)) (snd (step_task a t w)).
Proof.
  intros (Hn & Hr & Hc) Hok. destruct a as [ti|ti slot]; simpl in *.
  - apply can_start_next in Hok.
    destruct (nth_error (t_paths t) (t_next t)) as [p|] eqn:E.
    + unfold startCheck. rewrite E. unfold bind, ret.
      destruct (testerStart (t_opts t) p w) as [[b|] w'] eqn:Et; simpl.
      * eapply step_answered; eauto.
      * eapply step_pending; eauto.
    + apply nth_error_None in E. lia.
  - destruct (nth_error (t_running t) slot) as [i|] eqn:E.
    + assert (Hi : i < length (t_paths t)).
      { apply nth_error_In in E. apply Hr in E. lia. }
      destruct (nth_error (t_paths t) i) as [p|] eqn:Ep.
      * unfold finishCheck. rewrite E, Ep. unfold bind, ret.
        destruct (testerFinish (t_opts t) p w) as [b w'] eqn:Et; simpl.
        eapply step_finished; eauto.
      * apply nth_error_None in Ep. lia.
    + apply nth_error_None in E. lia.
Qed.

Lemma remove_nth_in {A} (n : nat) (l : list A) (x : A) :
  In x (remove_nth n l) -> In x l.
Proof.
  revert n. induction l as [|y l IH]; intros [|n]; simpl; auto.
  intros [H|H]; [now left | right; eauto].
Qed.

Lemma remove_nth_or {A} (n : nat) (l : list A) (x y : A) :
  nth_error l n = Some x -> In y l -> In y (remove_nth n l) \/ y = x.
Proof.
  revert n. induction l as [|z l IH]; intros [|n]; simpl; try prop.
  - intros [= ->] [H|H]; auto.
  - intros Hn [H|H]; [left; now left|].
    destruct (IH _ Hn H); [left; now right | now right].
Qed.

Lemma remove_nth_length {A} (n : nat) (l : list A) :
  n < length l -> S (length (remove_nth n l)) = length l.
Proof.
  revert n. induction l as [|z l IH]; intros [|n] H; simpl in *;
    try lia. rewrite IH; lia.
Qed.

Lemma task_step_wf (t t' : Task) (w w' : World) :
  task_wf t -> task_step t w t' w' -> task_wf t'.
Proof.
  intros (Hn & Hr & Hc) H.
  destruct H as [p b w' Hp _|p w' Hp _|slot i p b w' Hs Hp _];
    unfold task_wf; simpl.
  - assert (t_next t < length (t_paths t))
      by (apply nth_error_Some; congruence).
    repeat split; [lia | intros i Hi; apply Hr in Hi; lia|].
    intros i Hi. rewrite map_app, in_app_iff. simpl.
    destruct (Nat.eq_dec i (t_next t)) as [->|Hne]; [auto|].
    destruct (Hc i); [lia| |]; auto.
  - assert (t_next t < length (t_paths t))
      by (apply nth_error_Some; congruence).
    repeat split; [lia | |].
    + intros i Hi. apply in_app_iff in Hi.
      destruct Hi as [Hi|[<-|[]]]; [apply Hr in Hi|]; lia.
    + intros i Hi. rewrite in_app_iff. simpl.
      destruct (Nat.eq_dec i (t_next t)) as [->|Hne]; [auto|].
      destruct (Hc i); [lia| |]; auto.
  - repeat split; [lia | intros j Hj; apply Hr; eapply remove_nth_in; eauto|].
    intros j Hj. rewrite map_app, in_app_iff. simpl.
    destruct (Hc j Hj) as [Hin|Hin]; [|auto].
    destruct (remove_nth_or _ _ _ _ Hs Hin) as [H | ->]; auto.
Qed.

Lemma task_step_measure (t t' : Task) (w w' : World) :
  task_wf t -> task_step t w t' w' -> task_measure t' < task_measure t.
Proof.
  intros (Hn & Hr & Hc) H.
  destruct H as [p b w' Hp _|p w' Hp _|slot i p b w' Hs Hp _];
    unfold task_measure; simpl.
  - assert (t_next t < length (t_paths t))
      by (apply nth_error_Some; congruence). lia.
  - assert (t_next t < length (t_paths t))
      by (apply nth_error_Some; congruence).
    rewrite length_app. simpl. lia.
  - assert (slot < length (t_running t))
      by (apply nth_error_Some; congruence).
    pose proof (remove_nth_length slot (t_running t) H). lia.
Qed.

Lemma task_step_config (t t' : Task) (w w' : World) :
  task_step t w t' w' -> t_opts t' = t_opts t /\ t_paths t' = t_paths t.
Proof. intros H. destruct H; simpl; auto. Qed.

Lemma pool_measure_replace (n : nat) (t t' : Task) (pool : list Task) :
  nth_error pool n = Some t -> task_measure t' < task_measure t ->
  pool_measure (replace_nth n t' pool) < pool_measure pool.
Proof.
  unfold pool_measure. revert n.
  induction pool as [|t0 rest IH]; intros [|n] Hn Hlt; simpl in *;
    try discriminate.
  - injection Hn as ->. lia.
  - specialize (IH _ Hn Hlt). lia.
Qed.

Lemma pool_measure_nth (n : nat) (t : Task) (pool : list Task) :
  nth_error pool n = Some t -> task_measure t <= pool_measure pool.
Proof.
  unfold pool_measure. revert n.
  induction pool as [|t0 rest IH]; intros [|n] Hn; simpl in *;
    try discriminate.
  - injection Hn as ->. lia.
  - specialize (IH _ Hn). lia.
Qed.

Lemma exec_wf_measure (a : Action) (pool : list Task) (w : World) :
  Forall task_wf pool -> In a (enabled pool) ->
  Forall task_wf (fst (exec a pool w)) /\
  pool_measure (fst (exec a pool w)) < pool_measure pool /\
  length (fst (exec a pool w)) = length pool.
Proof.
  intros Hp Ha. destruct (enabled_spec _ _ Ha) as (t & Hn & Hok).
  rewrite (exec_spec _ _ _ _ Hn). simpl.
  assert (Ht : task_wf t).
  { rewrite Forall_forall in Hp. apply Hp. eapply nth_error_In; eauto. }
  pose proof (step_task_rel a t w Ht Hok) as Hs.
  repeat split.
  - apply Forall_replace_nth; [exact Hp|]. eapply task_step_wf; eauto.
  - eapply pool_measure_replace; eauto. eapply task_step_measure; eauto.
  - apply length_replace_nth.
Qed.

(** *** The loop decides every call *)

Lemma lookup_settled_in (i : nat) (settled : list (nat * bool)) :
  In i (map fst settled) -> exists b, lookup_settled i settled = Some b.
Proof.
  unfold lookup_settled. intros H.
  destruct (find (fun ib => fst ib =? i)%nat settled) as [ib|] eqn:E;
    [eauto|].
  apply in_map_iff in H. destruct H as ([j b] & <- & H).
  pose proof (find_none _ _ E _ H) as Hn. simpl in Hn.
  now rewrite Nat.eqb_refl in Hn.
Qed.

Lemma lookup_settled_some (i : nat) (b : bool)
    (settled : list (nat * bool)) :
  lookup_settled i settled = Some b -> In (i, b) settled.
Proof.
  unfold lookup_settled.
  destruct (find (fun ib => fst ib =? i)%nat settled) as [[j c]|] eqn:E;
    [|discriminate].
  intros [= <-]. apply find_some in E. destruct E as [Hin He].
  simpl in *. apply Nat.eqb_eq in He. now subst j.
Qed.

Lemma ordered_verdict_total (paths : list string) (k : nat)
    (settled : list (nat * bool)) :
  (forall i, k <= i < k + length paths -> In i (map fst settled)) ->
  exists v, ordered_verdict paths k settled = Some v.
Proof.
  revert k. induction paths as [|p rest IH]; intros k H; simpl.
  - eauto.
  - destruct (lookup_settled_in k settled) as [[|] ->];
      [apply H; simpl; lia|eauto|].
    apply IH. intros i Hi. apply H. simpl. lia.
Qed.

Lemma verdict_done (t : Task) :
  task_wf t -> task_measure t = 0 -> exists v, verdict t = Some v.
Proof.
  intros (Hn & Hr & Hc) Hm. unfold task_measure in Hm.
  assert (Hnext : t_next t = length (t_paths t)) by lia.
  assert (Hrun : t_running t = []) by (apply length_zero_iff_nil; lia).
  assert (Hall : forall i, i < length (t_paths t) ->
                           In i (map fst (t_settled t))).
  { intros i Hi. destruct (Hc i) as [H|H]; [lia| |exact H].
    rewrite Hrun in H. destruct H. }
  unfold verdict. destruct (preserve (t_opts t)).
  - apply ordered_verdict_total. intros i Hi. apply Hall. lia.
  - destruct (first_true (t_settled t)); [eauto|].
    rewrite Hnext, Hrun, Nat.leb_refl. simpl. eauto.
Qed.

Lemma task_actions_nonempty (ti : nat) (t : Task) :
  task_wf t -> 0 < task_measure t -> exists a, In a (task_actions ti t).
Proof.
  intros (Hn & Hr & Hc) Hm. unfold task_measure in Hm.
  unfold task_actions.
  destruct (t_running t) as [|i run] eqn:Erun.
  - exists (Start ti). apply in_app_iff. left.
    assert (E : can_start t = true).
    { unfold can_start. rewrite Erun. simpl in *.
      apply andb_true_intro. split; [apply Nat.ltb_lt; lia|].
      destruct (concurrency (t_opts t)); [|reflexivity].
      apply Nat.ltb_lt. lia. }
    rewrite E. now left.
  - exists (Finish ti 0). apply in_app_iff. right. simpl. now left.
Qed.

Lemma decided_done (watch : nat) (pool : list Task) :
  Forall task_wf pool -> watch < length pool -> pool_measure pool = 0 ->
  exists v, decided watch pool = Some v.
Proof.
  intros Hp Hw Hm. unfold decided.
  destruct (nth_error pool watch) as [t|] eqn:E;
    [|apply nth_error_None in E; lia].
  apply verdict_done.
  - rewrite Forall_forall in Hp. apply Hp. eapply nth_error_In; eauto.
  - pose proof (pool_measure_nth _ _ _ E). lia.
Qed.

Lemma enabled_nonempty (watch : nat) (pool : list Task) :
  Forall task_wf pool -> watch < length pool ->
  decided watch pool = None -> enabled pool <> [].
Proof.
  intros Hp Hw Hd. unfold decided in Hd.
  destruct (nth_error pool watch) as [t|] eqn:E;
    [|apply nth_error_None in E; lia].
  assert (Ht : task_wf t).
  { rewrite Forall_forall in Hp. apply Hp. eapply nth_error_In; eauto. }
  assert (Hpos : 0 < task_measure t).
  { destruct (Nat.eq_dec (task_measure t) 0) as [Hz|Hz]; [|lia].
    destruct (verdict_done t Ht Hz) as [v Hv]. congruence. }
  destruct (task_actions_nonempty watch t Ht Hpos) as [a0 Ha0].
  assert (Hen : In a0 (enabled pool)) by (eapply pool_actions_in; eauto).
  intros Hnil. rewrite Hnil in Hen. destruct Hen.
Qed.

Lemma run_settles (fuel : nat) (sched : list nat) (watch : nat)
    (pool : list Task) (w : World) :
  Forall task_wf pool -> watch < length pool ->
  pool_measure pool <= fuel ->
  exists v, fst (fst (run fuel sched watch pool w)) = Some v.
Proof.
  revert sched pool w.
  induction fuel as [|fuel IH]; intros sched pool w Hp Hw Hm; simpl.
  - apply decided_done; auto. lia.
  - destruct (decided watch pool) as [v|] eqn:Ed.
    + destruct (hd 0 sched =? 0)%nat; [simpl; eauto|].
      destruct (pick (hd 0 sched) (enabled pool)) as [a|] eqn:Ea;
        [|simpl; eauto].
      unfold bind.
      destruct (exec_wf_measure a pool w Hp (pick_in _ _ _ Ea))
        as (Hp' & Hm' & Hl').
      destruct (exec a pool w) as [pool' w']. simpl in *.
      apply IH; [exact Hp' | lia | lia].
    + destruct (pick_some (hd 0 sched) (enabled pool)) as [a Ha];
        [now apply (enabled_nonempty watch)|].
      rewrite Ha. unfold bind.
      destruct (exec_wf_measure a pool w Hp (pick_in _ _ _ Ha))
        as (Hp' & Hm' & Hl').
      destruct (exec a pool w) as [pool' w']. simpl in *.
      apply IH; [exact Hp' | lia | lia].
Qed.

(* ================================================================== *)
(** ** Caches that agree with the filesystem *)

Lemma LRU_get_some (time : Z) (key : string) (this : LRUCache) (b : bool) :
  fst (LRU_get time key this) = Some b ->
  exists e, In (key, e) (cache this) /\ value e = b /\
            (time - timestamp e <= ttl this)%Z.
Proof.
  unfold LRU_get. destruct (map_get key (cache this)) as [e|] eqn:E;
    [|discriminate].
  destruct (Z.gtb_spec (time - timestamp e) (ttl this)); simpl;
    [discriminate|].
  intros [= <-]. exists e. repeat split; [now apply map_get_some_in|lia].
Qed.

Lemma coherent_shrink (w w' : World) :
  world_wf w' ->
  (forall x, In x (cache (statCache w')) -> In x (cache (statCache w))) ->
  (forall x, In x (cache (negativeCache w')) ->
             In x (cache (negativeCache w))) ->
  coherent w -> coherent w'.
Proof.
  intros W Hs Hn (_ & [Vs Vn] & [As An]). split; [exact W|]. split; split.
  - intros key e H. eapply Vs; eauto.
  - intros key e H. eapply Vn; eauto.
  - intros key e r t a H. eapply As; eauto.
  - intros key e r t a H. eapply An; eauto.
Qed.

Lemma negativeCache_get_coherent (key : string) (w : World) :
  coherent w -> coherent (snd (negativeCache_get key w)).
Proof.
  intros H. rewrite negativeCache_get_eq. simpl.
  pose proof H as ([Ws Wn] & _). apply (coherent_shrink w); simpl; auto.
  - split; simpl; [exact Ws|]. now apply LRU_get_wf.
  - intros x. now apply LRU_get_entries.
Qed.

Lemma statCache_get_coherent (key : string) (w : World) :
  coherent w -> coherent (snd (statCache_get key w)).
Proof.
  intros H. rewrite statCache_get_eq. simpl.
  pose proof H as ([Ws Wn] & _). apply (coherent_shrink w); simpl; auto.
  - split; simpl; [|exact Wn]. now apply LRU_get_wf.
  - intros x. now apply LRU_get_entries.
Qed.

Lemma callStat_coherent (allow : bool) (path : string) (w : World) :
  coherent w -> coherent (snd (callStat allow path w)).
Proof. intros H. exact H. Qed.

Lemma statCache_set_coherent (r t : string) (a : bool) (w : World) :
  coherent w -> valid_type t -> probeMatch a t r = true ->
  coherent (snd (statCache_set (cacheKey r t a) true w)).
Proof.
  intros ([Ws Wn] & [Vs Vn] & [As An]) V Hm. unfold statCache_set. simpl.
  split; [|split]; split; simpl; auto.
  - now apply LRU_set_wf.
  - intros key e H. apply LRU_set_entries in H; [|exact Ws].
    destruct H as [H|[= _ ->]]; [eauto | reflexivity].
  - intros key e r' t' a' H V' ->.
    apply LRU_set_entries in H; [|exact Ws].
    destruct H as [H|[= Hk _]]; [eauto|].
    destruct (cacheKey_inj _ _ _ _ _ _ V' V Hk) as (-> & -> & ->).
    exact Hm.
Qed.

Lemma negativeCache_set_coherent (r t : string) (a : bool) (w : World) :
  coherent w -> valid_type t -> probeMatch a t r = false ->
  coherent (snd (negativeCache_set (cacheKey r t a) false w)).
Proof.
  intros ([Ws Wn] & [Vs Vn] & [As An]) V Hm. unfold negativeCache_set.
  simpl. split; [|split]; split; simpl; auto.
  - now apply LRU_set_wf.
  - intros key e H. apply LRU_set_entries in H; [|exact Wn].
    destruct H as [H|[= _ ->]]; [eauto | reflexivity].
  - intros key e r' t' a' H V' ->.
    apply LRU_set_entries in H; [|exact Wn].
    destruct H as [H|[= Hk _]]; [eauto|].
    destruct (cacheKey_inj _ _ _ _ _ _ V' V Hk) as (-> & -> & ->).
    exact Hm.
Qed.

(** The caches of a coherent world answer as a probe would. *)
Lemma consult_coherent (o : Options) (r : string) (w : World) :
  coherent w -> valid_type (type o) ->
  coherent (snd (consult o (cacheKey r (type o) (allowSymlinks o)) w)) /\
  forall b,
    fst (consult o (cacheKey r (type o) (allowSymlinks o)) w) = Some b ->
    b = probeMatch (allowSymlinks o) (type o) r.
Proof.
  intros H V. unfold consult. destruct (useCache o).
  2:{ simpl. split; [exact H | discriminate]. }
  unfold bind.
  pose proof (negativeCache_get_coherent
                (cacheKey r (type o) (allowSymlinks o)) w H) as H1.
  rewrite negativeCache_get_eq in *. simpl in H1.
  destruct (fst (LRU_get (now (ticks w))
                   (cacheKey r (type o) (allowSymlinks o))
                   (negativeCache w))) as [[|]|] eqn:E; simpl.
  - rewrite statCache_get_eq. simpl. split.
    + pose proof (statCache_get_coherent
                    (cacheKey r (type o) (allowSymlinks o)) _ H1) as H2.
      rewrite statCache_get_eq in H2. exact H2.
    + intros b Hb. apply LRU_get_some in Hb.
      destruct Hb as (e & Hin & <- & _).
      destruct H as (_ & [Vs _] & [As _]).
      rewrite (Vs _ _ Hin). symmetry. eapply As; eauto.
  - split; [exact H1|]. intros b [= <-].
    apply LRU_get_some in E. destruct E as (e & Hin & _ & _).
    destruct H as (_ & _ & [_ An]). symmetry. eapply An; eauto.
  - rewrite statCache_get_eq. simpl. split.
    + pose proof (statCache_get_coherent
                    (cacheKey r (type o) (allowSymlinks o)) _ H1) as H2.
      rewrite statCache_get_eq in H2. exact H2.
    + intros b Hb. apply LRU_get_some in Hb.
      destruct Hb as (e & Hin & <- & _).
      destruct H as (_ & [Vs _] & [As _]).
      rewrite (Vs _ _ Hin). symmetry. eapply As; eauto.
Qed.

Lemma record_coherent (o : Options) (r : string) (w : World) :
  coherent w -> valid_type (type o) ->
  coherent
    (snd (when (useCache o)
            (if probeMatch (allowSymlinks o) (type o) r
             then statCache_set (cacheKey r (type o) (allowSymlinks o)) true
             else negativeCache_set
                    (cacheKey r (type o) (allowSymlinks o)) false) w)).
Proof.
  intros H V. unfold when. destruct (useCache o); [|exact H].
  destruct (probeMatch (allowSymlinks o) (type o) r) eqn:E.
  - now apply statCache_set_coherent.
  - now apply negativeCache_set_coherent.
Qed.

Lemma candidateCheck_coherent (o : Options) (path_ : string) (w : World) :
  coherent w -> valid_type (type o) ->
  coherent (snd (candidateCheck o path_ w)) /\
  fst (candidateCheck o path_ w) = matches o path_.
Proof.
  intros H V. unfold candidateCheck, bind, keyOf.
  destruct (consult_coherent o (resolvePath o path_) w H V) as [H1 Hb].
  destruct (consult o _ w) as [[b|] w1]; simpl in *.
  - split; [exact H1|]. now apply Hb.
  - rewrite checkPathSync_eq. unfold bind, callStat, ret.
    pose proof (record_coherent o (resolvePath o path_)
                  (mkWorld (statCache w1) (negativeCache w1) (ticks w1)
                     (Probe (allowSymlinks o) (resolvePath o path_)
                        :: trace w1)) H1 V) as H2.
    destruct (when (useCache o) _ _) as [u w2]. split; [exact H2|].
    reflexivity.
Qed.

Lemma scanSync_coherent (o : Options) (paths : list string) (w : World) :
  coherent w -> valid_type (type o) ->
  coherent (snd (scanSync o paths w)) /\
  fst (scanSync o paths w) = find (matches o) paths.
Proof.
  intros H V. revert w H. induction paths as [|p rest IH]; intros w H.
  - split; [exact H | reflexivity].
  - rewrite scanSync_step. unfold bind. simpl find.
    destruct (candidateCheck_coherent o p w H V) as [H1 Hb].
    destruct (candidateCheck o p w) as [b w1]. simpl in *. subst b.
    destruct (matches o p); [split; [exact H1 | reflexivity]|].
    now apply IH.
Qed.

Lemma testerStart_coherent (o : Options) (path_ : string) (w : World) :
  coherent w -> valid_type (type o) ->
  coherent (snd (testerStart o path_ w)) /\
  forall b, fst (testerStart o path_ w) = Some b -> b = matches o path_.
Proof.
  intros H V. rewrite testerStart_eq. unfold bind, keyOf.
  destruct (consult_coherent o (resolvePath o path_) w H V) as [H1 Hb].
  destruct (consult o _ w) as [[b|] w1]; simpl in *.
  - split; [exact H1|]. intros b' [= <-]. now apply Hb.
  - split; [exact H1 | discriminate].
Qed.

Lemma testerFinish_result (o : Options) (path_ : string) (w : World) :
  fst (testerFinish o path_ w) = matches o path_.
Proof.
  rewrite testerFinish_eq. unfold bind.
  now destruct (when (useCache o) _ w).
Qed.

Lemma testerFinish_coherent (o : Options) (path_ : string) (w : World) :
  coherent w -> valid_type (type o) ->
  coherent (snd (testerFinish o path_ w)).
Proof.
  intros H V. rewrite testerFinish_eq. unfold bind, keyOf.
  pose proof (record_coherent o (resolvePath o path_) w H V) as H1.
  unfold matches. now destruct (when (useCache o) _ w).
Qed.

(* ================================================================== *)
(** ** What the asynchronous locator resolves to *)

Lemma ordered_verdict_sound (o : Options) (all : list string)
    (settled : list (nat * bool)) :
  (forall i b, In (i, b) settled ->
     exists p, nth_error all i = Some p /\ b = matches o p) ->
  forall paths k v,
    (forall j, nth_error paths j = nth_error all (k + j)) ->
    ordered_verdict paths k settled = Some v ->
    v = find (matches o) paths.
Proof.
  intros Hs. induction paths as [|p rest IH]; intros k v Hn; simpl.
  - now intros [= <-].
  - destruct (lookup_settled k settled) as [b|] eqn:E; [|discriminate].
    apply lookup_settled_some in E. destruct (Hs _ _ E) as (p' & Hp & ->).
    specialize (Hn 0) as H0. simpl in H0. rewrite Nat.add_0_r in H0.
    assert (p' = p) by congruence. subst p'.
    destruct (matches o p); [now intros [= <-]|].
    apply IH. intros j. specialize (Hn (S j)). simpl in Hn.
    now replace (S k + j) with (k + S j) by lia.
Qed.

Lemma first_true_some (settled : list (nat * bool)) (i : nat) :
  first_true settled = Some i -> In (i, true) settled.
Proof.
  unfold first_true.
  destruct (find (fun ib => snd ib) settled) as [[j b]|] eqn:E;
    [|discriminate].
  intros [= <-]. apply find_some in E. destruct E as [Hin Hb].
  simpl in Hb. now subst b.
Qed.

Lemma first_true_none (settled : list (nat * bool)) (i : nat) (b : bool) :
  first_true settled = None -> In (i, b) settled -> b = false.
Proof.
  unfold first_true.
  destruct (find (fun ib => snd ib) settled) as [ib|] eqn:E;
    [discriminate|].
  intros _ Hin. pose proof (find_none _ _ E _ Hin) as H. exact H.
Qed.

Lemma verdict_sound (t : Task) (v : option string) :
  task_wf t -> settled_sound t -> verdict t = Some v ->
  verdict_facts (t_opts t) (t_paths t) v.
Proof.
  intros (Hn & Hr & Hc) Hs Hv. unfold verdict in Hv.
  destruct (preserve (t_opts t)) eqn:Ep.
  - assert (E : v = find (matches (t_opts t)) (t_paths t)).
    { apply (ordered_verdict_sound (t_opts t) (t_paths t) (t_settled t)
               Hs (t_paths t) 0 v); [intros j; reflexivity | exact Hv]. }
    split; [auto|split].
    + intros c ->. symmetry in E. now apply find_some in E.
    + intros -> c Hin. symmetry in E. exact (find_none _ _ E _ Hin).
  - split; [intros H; congruence|].
    destruct (first_true (t_settled t)) as [i|] eqn:Ef.
    + apply first_true_some in Ef. destruct (Hs _ _ Ef) as (p & Hp & Hm).
      injection Hv as <-. rewrite Hp. split.
      * intros c [= <-]. split; [eapply nth_error_In; eauto | now symmetry].
      * discriminate.
    + destruct ((length (t_paths t) <=? t_next t)%nat &&
                (length (t_running t) =? 0)%nat) eqn:Eg; [|discriminate].
      injection Hv as <-. apply andb_prop in Eg. destruct Eg as [E1 E2].
      apply Nat.leb_le in E1. apply Nat.eqb_eq in E2.
      apply length_zero_iff_nil in E2. split; [discriminate|].
      intros _ c Hin. apply In_nth_error in Hin. destruct Hin as [i Hi].
      assert (Hlt : i < length (t_paths t))
        by (apply nth_error_Some; congruence).
      destruct (Hc i) as [H|H]; [lia|rewrite E2 in H; destruct H|].
      apply in_map_iff in H. destruct H as ([j b] & Hj & Hin).
      simpl in Hj. subst j. destruct (Hs _ _ Hin) as (p & Hp & Hm).
      rewrite (first_true_none _ _ _ Ef Hin) in Hm. congruence.
Qed.

Lemma task_step_sound (t t' : Task) (w w' : World) :
  (forall p b w1, testerStart (t_opts t) p w = (Some b, w1) ->
                  b = matches (t_opts t) p) ->
  settled_sound t -> task_step t w t' w' -> settled_sound t'.
Proof.
  intros Ht Hs H.
  destruct H as [p b w' Hp Hst|p w' Hp _|slot i p b w' Hsl Hp Hf];
    unfold settled_sound; simpl; [|exact Hs|].
  - intros i c Hin. apply in_app_iff in Hin.
    destruct Hin as [Hin|[[= <- <-]|[]]]; [now apply Hs|].
    exists p. split; [exact Hp | eapply Ht; eauto].
  - intros j c Hin. apply in_app_iff in Hin.
    destruct Hin as [Hin|[[= <- <-]|[]]]; [now apply Hs|].
    exists p. split; [exact Hp|].
    rewrite <- (testerFinish_result (t_opts t) p w). now rewrite Hf.
Qed.

Lemma newTask_wf (o : Options) (paths : list string) :
  task_wf (newTask o paths).
Proof.
  unfold task_wf. simpl. repeat split; [lia|prop|intros i Hi; lia].
Qed.

Lemma nth_error_snoc {A} (l : list A) (x : A) :
  nth_error (l ++ [x]) (length l) = Some x.
Proof.
  rewrite nth_error_app2 by lia. now rewrite Nat.sub_diag.
Qed.

(** The frame of the results on [locatePath]: an invariant [WI] of the
    world and [TI] of the calls under which the caches, when they
    answer, answer as the filesystem would. *)
Section Watching.

Variable WI : World -> Prop.
Variable TI : Task -> Prop.

Hypothesis TI_wf : forall t, TI t -> task_wf t.

Hypothesis step_inv : forall t w t' w',
  WI w -> TI t -> task_step t w t' w' -> WI w' /\ TI t'.

Hypothesis start_truthful : forall t w p b w',
  WI w -> TI t -> testerStart (t_opts t) p w = (Some b, w') ->
  b = matches (t_opts t) p.

Lemma exec_watching (o : Options) (paths : list string) (watch : nat)
    (a : Action) (pool : list Task) (w : World) :
  watching WI TI (sound_call o paths) watch pool w ->
  In a (enabled pool) ->
  watching WI TI (sound_call o paths) watch
    (fst (exec a pool w)) (snd (exec a pool w)).
Proof using TI_wf start_truthful step_inv.
  intros (Hw & Hp & t & Hn & Ho & Hpa & Hs) Ha.
  destruct (enabled_spec _ _ Ha) as (t0 & Hn0 & Hok).
  rewrite (exec_spec _ _ _ _ Hn0). simpl.
  assert (Ht0 : TI t0).
  { rewrite Forall_forall in Hp. apply Hp. eapply nth_error_In; eauto. }
  pose proof (step_task_rel a t0 w (TI_wf _ Ht0) Hok) as Hstep.
  destruct (step_inv _ _ _ _ Hw Ht0 Hstep) as [Hw' Ht0'].
  split; [exact Hw'|]. split; [now apply Forall_replace_nth|].
  destruct (Nat.eq_dec (action_task a) watch) as [E|E].
  - rewrite E in *. assert (t0 = t) by congruence. subst t0.
    exists (fst (step_task a t w)). split.
    + apply nth_error_replace_same. apply nth_error_Some. congruence.
    + destruct (task_step_config _ _ _ _ Hstep) as [E1 E2].
      repeat split; try congruence.
      apply (task_step_sound t _ w (snd (step_task a t w)));
        [|exact Hs|exact Hstep].
      intros p b w1 H1. exact (start_truthful t w p b w1 Hw Ht0 H1).
  - exists t. rewrite nth_error_replace_other by exact E.
    repeat split; auto.
Qed.

Lemma locatePath_watching (sched : list nat) (paths : list string)
    (o : Options) (pool : list Task) (w : World) :
  valid_type (type o) -> WI w -> Forall TI pool ->
  TI (newTask o paths) ->
  WI (snd (locatePath sched paths o pool w)) /\
  Forall TI (snd (fst (locatePath sched paths o pool w))) /\
  exists v,
    fst (fst (locatePath sched paths o pool w)) = Some (Returned v) /\
    verdict_facts o paths v.
Proof using TI_wf start_truthful step_inv.
  intros V Hw Hp Hnew. unfold locatePath.
  rewrite (checkType_valid _ V). unfold bind, ret.
  set (pool' := pool ++ [newTask o paths]).
  assert (Hinv : watching WI TI (sound_call o paths) (length pool)
                   pool' w).
  { split; [exact Hw|]. split.
    - apply Forall_app. split; [exact Hp|]. now constructor.
    - exists (newTask o paths). split; [apply nth_error_snoc|].
      repeat split. intros i b [].
  }
  assert (Hwf : Forall task_wf pool').
  { destruct Hinv as (_ & H & _). eapply Forall_impl; [|exact H].
    exact TI_wf. }
  assert (Hlen : length pool < length pool').
  { unfold pool'. rewrite length_app. simpl. lia. }
  pose proof (run_invariant _ (exec_watching o paths (length pool))
                (pool_measure pool') sched (length pool) pool' w Hinv)
    as (Hw' & Hp' & t & Hn & Ho & Hpa & Hs).
  destruct (run_settles (pool_measure pool') sched (length pool) pool' w
              Hwf Hlen (le_n _)) as [v Hv].
  pose proof (run_result (pool_measure pool') sched (length pool) pool' w)
    as Hd.
  destruct (run (pool_measure pool') sched (length pool) pool' w)
    as [[r pool''] w'']. simpl in *.
  split; [exact Hw'|]. split; [exact Hp'|]. exists v. subst r.
  split; [reflexivity|].
  unfold decided in Hd. rewrite Hn in Hd. symmetry in Hd.
  rewrite <- Ho, <- Hpa. apply verdict_sound; auto.
  apply TI_wf. rewrite Forall_forall in Hp'. apply Hp'.
  eapply nth_error_In; eauto.
Qed.

End Watching.

(** *** With caches that agree with the filesystem *)

Lemma coherent_step (t t' : Task) (w w' : World) :
  coherent w -> call_ok t -> task_step t w t' w' ->
  coherent w' /\ call_ok t'.
Proof.
  intros Hw [Ht V] H. split.
  - destruct H as [p b w' _ Hst|p w' _ Hst|slot i p b w' _ _ Hf].
    + destruct (testerStart_coherent (t_opts t) p w Hw V) as [H _].
      now rewrite Hst in H.
    + destruct (testerStart_coherent (t_opts t) p w Hw V) as [H _].
      now rewrite Hst in H.
    + pose proof (testerFinish_coherent (t_opts t) p w Hw V) as H.
      now rewrite Hf in H.
  - split; [eapply task_step_wf; eauto|].
    destruct (task_step_config _ _ _ _ H) as [-> _]. exact V.
Qed.

Lemma coherent_truthful (t : Task) (w : World) (p : string) (b : bool)
    (w' : World) :
  coherent w -> call_ok t -> testerStart (t_opts t) p w = (Some b, w') ->
  b = matches (t_opts t) p.
Proof.
  intros Hw [_ V] H.
  destruct (testerStart_coherent (t_opts t) p w Hw V) as [_ Hb].
  apply Hb. now rewrite H.
Qed.

Lemma locatePath_coherent (sched : list nat) (paths : list string)
    (o : Options) (pool : list Task) (w : World) :
  valid_type (type o) -> coherent w -> Forall call_ok pool ->
  coherent (snd (locatePath sched paths o pool w)) /\
  Forall call_ok (snd (fst (locatePath sched paths o pool w))) /\
  exists v,
    fst (fst (locatePath sched paths o pool w)) = Some (Returned v) /\
    verdict_facts o paths v.
Proof.
  intros V Hw Hp.
  apply (locatePath_watching coherent call_ok); auto.
  - intros t [H _]. exact H.
  - intros t w1 t' w2. apply coherent_step.
  - apply coherent_truthful.
  - split; [apply newTask_wf | exact V].
Qed.

Lemma locatePathSync_coherent (paths : list string) (o : Options)
    (w : World) :
  valid_type (type o) -> coherent w ->
  coherent (snd (locatePathSync paths o w)) /\
  fst (locatePathSync paths o w) = Returned (find (matches o) paths).
Proof.
  intros V Hw. unfold locatePathSync. rewrite (checkType_valid _ V).
  unfold bind, ret.
  destruct (scanSync_coherent o paths w Hw V) as [H1 H2].
  destruct (scanSync o paths w) as [r w']. simpl in *. now subst r.
Qed.

(** *** Without the caches *)

Lemma same_caches_refl (w : World) : same_caches w w.
Proof. repeat split. Qed.

Lemma testerStart_nocache (o : Options) (path_ : string) (w : World) :
  useCache o = false ->
  testerStart o path_ w =
  (None, mkWorld (statCache w) (negativeCache w) (ticks w)
           (Probe (allowSymlinks o) (resolvePath o path_) :: trace w)).
Proof. intros H. unfold testerStart. rewrite H. reflexivity. Qed.

Lemma testerFinish_nocache (o : Options) (path_ : string) (w : World) :
  useCache o = false -> testerFinish o path_ w = (matches o path_, w).
Proof. intros H. rewrite testerFinish_eq. rewrite H. reflexivity. Qed.

Lemma candidateCheck_nocache (o : Options) (path_ : string) (w : World) :
  useCache o = false ->
  candidateCheck o path_ w =
  (matches o path_,
   mkWorld (statCache w) (negativeCache w) (ticks w)
     (Probe (allowSymlinks o) (resolvePath o path_) :: trace w)).
Proof.
  intros H. unfold candidateCheck, consult, bind. rewrite H. simpl.
  rewrite checkPathSync_eq. reflexivity.
Qed.

Lemma nocache_step (w0 : World) (t t' : Task) (w w' : World) :
  same_caches w0 w -> call_nocache t -> task_step t w t' w' ->
  same_caches w0 w' /\ call_nocache t'.
Proof.
  intros (Hs & Hn & He) [Ht Hu] H. split.
  - destruct H as [p b w' _ Hst|p w' _ Hst|slot i p b w' _ _ Hf].
    + rewrite (testerStart_nocache _ p w Hu) in Hst. discriminate.
    + rewrite (testerStart_nocache _ p w Hu) in Hst.
      injection Hst as <-. repeat split; assumption.
    + rewrite (testerFinish_nocache _ p w Hu) in Hf.
      injection Hf as _ <-. repeat split; assumption.
  - split; [eapply task_step_wf; eauto|].
    destruct (task_step_config _ _ _ _ H) as [-> _]. exact Hu.
Qed.

Lemma nocache_truthful (t : Task) (w : World) (p : string) (b : bool)
    (w' : World) :
  call_nocache t -> testerStart (t_opts t) p w = (Some b, w') ->
  b = matches (t_opts t) p.
Proof.
  intros [_ Hu] H. rewrite (testerStart_nocache _ p w Hu) in H.
  discriminate.
Qed.

Lemma scanSync_nocache (o : Options) (paths : list string) (w : World) :
  useCache o = false ->
  fst (scanSync o paths w) = find (matches o) paths /\
  same_caches w (snd (scanSync o paths w)).
Proof.
  intros Hu. revert w. induction paths as [|p rest IH]; intros w.
  - split; [reflexivity | apply same_caches_refl].
  - rewrite scanSync_step. unfold bind.
    rewrite (candidateCheck_nocache o p w Hu). simpl find.
    destruct (matches o p).
    + split; [reflexivity | repeat split].
    + destruct (IH (mkWorld (statCache w) (negativeCache w) (ticks w)
                      (Probe (allowSymlinks o) (resolvePath o p)
                         :: trace w))) as [H1 (H2 & H3 & H4)].
      split; [exact H1|]. repeat split; assumption.
Qed.

(** C9. With [useCache] false neither locator reads or writes a cache:
    after the call both caches are the ones before it and the log holds
    no new cache access, and what is returned is decided by the probes
    alone: for the synchronous locator, and for the asynchronous one
    with [preserveOrder], the first candidate that matches on the
    filesystem; without [preserveOrder] some candidate that matches,
    absent when none does. For [locatePath] this is said of a process in
    which the other calls under way do not use the caches either, since
    their checks go on during the call; no step of a call made with
    [useCache] false touches a cache, whatever else is under way. *)
Theorem no_cache_no_access (sched : list nat) (paths : list string)
    (o : Options) (pool : list Task) (w : World) :
  valid_type (type o) -> useCache o = false ->
  (fst (locatePathSync paths o w) = Returned (find (matches o) paths) /\
   same_caches w (snd (locatePathSync paths o w))) /\
  (Forall call_nocache pool ->
   same_caches w (snd (locatePath sched paths o pool w)) /\
   exists v,
     fst (fst (locatePath sched paths o pool w)) = Some (Returned v) /\
     verdict_facts o paths v) /\
  (forall t t' w1 w2,
     t_opts t = o -> task_step t w1 t' w2 ->
     statCache w2 = statCache w1 /\ negativeCache w2 = negativeCache w1 /\
     cache_events w2 = cache_events w1).
Proof.
  intros V Hu. split; [|split].
  - unfold locatePathSync. rewrite (checkType_valid _ V). unfold bind, ret.
    destruct (scanSync_nocache o paths w Hu) as [H1 H2].
    destruct (scanSync o paths w) as [r w']. simpl in *. now subst r.
  - intros Hp.
    destruct (locatePath_watching (same_caches w) call_nocache
                (fun t H => proj1 H)
                (fun t w1 t' w2 => nocache_step w t t' w1 w2)
                (fun t w1 p b w2 _ => nocache_truthful t w1 p b w2)
                sched paths o pool w V (same_caches_refl w) Hp
                (conj (newTask_wf o paths) Hu))
      as (H1 & _ & H2).
    split; assumption.
  - intros t t' w1 w2 <- H.
    destruct H as [p b w' _ Hst|p w' _ Hst|slot i p b w' _ _ Hf].
    + rewrite (testerStart_nocache _ p w1 Hu) in Hst. discriminate.
    + rewrite (testerStart_nocache _ p w1 Hu) in Hst.
      injection Hst as <-. repeat split.
    + rewrite (testerFinish_nocache _ p w1 Hu) in Hf.
      injection Hf as _ <-. repeat split.
Qed.

(* ================================================================== *)
(** ** Failed probes *)

Lemma map_get_set_same (key : string) (e : Entry) (m : JsMap) :
  map_get key (map_set key e m) = Some e.
Proof.
  induction m as [|[k e0] m IH]; simpl.
  - now rewrite String.eqb_refl.
  - destruct (String.eqb_spec k key) as [->|Hne]; simpl.
    + now rewrite String.eqb_refl.
    + apply String.eqb_neq in Hne. now rewrite Hne.
Qed.

Lemma negativeCache_set_holds (key : string) (w : World) :
  map_get key (cache (negativeCache (snd (negativeCache_set key false w))))
  = Some (mkEntry false (now (ticks w))) /\
  statCache (snd (negativeCache_set key false w)) = statCache w.
Proof.
  unfold negativeCache_set, LRU_set. simpl. split; [|reflexivity].
  apply map_get_set_same.
Qed.

Lemma probe_failed (allow : bool) (t r : string) :
  statFunction allow r = NoEntry \/ statFunction allow r = Failure ->
  probeMatch allow t r = false.
Proof. unfold probeMatch. intros [-> | ->]; reflexivity. Qed.

Lemma locatePathSync_returns (paths : list string) (o : Options)
    (w : World) :
  valid_type (type o) ->
  exists r, fst (locatePathSync paths o w) = Returned r.
Proof.
  intros V. unfold locatePathSync. rewrite (checkType_valid _ V).
  unfold bind, ret. destruct (scanSync o paths w) as [r w']. simpl. eauto.
Qed.

Lemma locatePath_resolves (sched : list nat) (paths : list string)
    (o : Options) (pool : list Task) (w : World) :
  valid_type (type o) -> Forall task_wf pool ->
  exists r,
    fst (fst (locatePath sched paths o pool w)) = Some (Returned r).
Proof.
  intros V Hp. unfold locatePath. rewrite (checkType_valid _ V).
  unfold bind, ret.
  assert (Hwf : Forall task_wf (pool ++ [newTask o paths])).
  { apply Forall_app. split; [exact Hp|]. constructor; [|constructor].
    apply newTask_wf. }
  assert (Hlen : length pool < length (pool ++ [newTask o paths])).
  { rewrite length_app. simpl. lia. }
  destruct (run_settles (pool_measure (pool ++ [newTask o paths])) sched
              (length pool) (pool ++ [newTask o paths]) w Hwf Hlen
              (le_n _)) as [v Hv].
  destruct (run _ sched (length pool) _ w) as [[r pool'] w'].
  simpl in *. subst r. exists v. reflexivity.
Qed.

(** C6. When the stat call for a candidate finds no entry or fails in
    any other way, the check of the candidate answers false in both
    locators and, with caching enabled, leaves [false] under the
    candidate's key in the negative cache; the synchronous scan then
    goes on with the rest of the list; and with a valid type selector
    neither locator ever hands an error to its caller. *)
Theorem failed_probe_is_non_match (o : Options) (path_ : string) :
  valid_type (type o) ->
  statFunction (allowSymlinks o) (resolvePath o path_) = NoEntry \/
  statFunction (allowSymlinks o) (resolvePath o path_) = Failure ->
  (forall w,
     let res := checkPathSync (resolvePath o path_) (keyOf o path_)
                  (type o) (allowSymlinks o) (useCache o) w in
     fst res = false /\
     (useCache o = true ->
      map_get (keyOf o path_) (cache (negativeCache (snd res))) =
        Some (mkEntry false (now (ticks w))) /\
      statCache (snd res) = statCache w)) /\
  (forall w,
     let res := testerFinish o path_ w in
     fst res = false /\
     (useCache o = true ->
      map_get (keyOf o path_) (cache (negativeCache (snd res))) =
        Some (mkEntry false (now (ticks w))) /\
      statCache (snd res) = statCache w)) /\
  (forall rest w w1,
     consult o (keyOf o path_) w = (None, w1) ->
     scanSync o (path_ :: rest) w =
     scanSync o rest
       (snd (checkPathSync (resolvePath o path_) (keyOf o path_)
               (type o) (allowSymlinks o) (useCache o) w1))) /\
  (forall paths w, exists r, fst (locatePathSync paths o w) = Returned r) /\
  (forall sched paths pool w,
     Forall task_wf pool ->
     exists r,
       fst (fst (locatePath sched paths o pool w)) = Some (Returned r)).
Proof.
  intros V Hf.
  pose proof (probe_failed _ (type o) _ Hf) as Hm.
  assert (Hsync : forall w,
    checkPathSync (resolvePath o path_) (keyOf o path_) (type o)
      (allowSymlinks o) (useCache o) w =
    (false,
     snd (when (useCache o) (negativeCache_set (keyOf o path_) false)
            (snd (callStat (allowSymlinks o) (resolvePath o path_) w))))).
  { intros w. rewrite checkPathSync_eq. unfold bind. rewrite Hm. simpl.
    now destruct (when (useCache o) _ _). }
  split; [|split; [|split; [|split]]].
  - intros w. simpl. rewrite Hsync. simpl. split; [reflexivity|].
    intros Hu. rewrite Hu. simpl.
    apply (negativeCache_set_holds (keyOf o path_)
             (snd (callStat (allowSymlinks o) (resolvePath o path_) w))).
  - intros w. simpl. rewrite testerFinish_eq. unfold bind, matches.
    rewrite Hm.
    destruct (when (useCache o) _ w) as [u w'] eqn:E. simpl.
    split; [reflexivity|]. intros Hu. rewrite Hu in E. simpl in E.
    pose proof (negativeCache_set_holds (keyOf o path_) w) as H.
    unfold negativeCache_set in *. injection E as _ <-. exact H.
  - intros rest w w1 Hc. rewrite scanSync_cons. unfold bind at 1.
    rewrite Hc. unfold bind. now rewrite Hsync.
  - intros paths w. now apply locatePathSync_returns.
  - intros sched paths pool w Hp. now apply locatePath_resolves.
Qed.

(* ================================================================== *)
(** ** The negative cache goes first *)

Lemma negativeCache_get_hit (key : string) (e : Entry) (w : World) :
  map_wf (cache (negativeCache w)) ->
  map_get key (cache (negativeCache w)) = Some e ->
  (now (ticks w) - timestamp e <= ttl (negativeCache w))%Z ->
  negativeCache_get key w = (Some (value e), after_negative_hit key e w).
Proof.
  intros W H Hx. rewrite negativeCache_get_eq.
  now rewrite (LRU_get_hit _ _ _ _ W H Hx).
Qed.

Lemma caches_ok_shrink (w w' : World) :
  world_wf w' ->
  (forall x, In x (cache (statCache w')) -> In x (cache (statCache w))) ->
  (forall x, In x (cache (negativeCache w')) ->
             In x (cache (negativeCache w))) ->
  caches_ok w -> caches_ok w'.
Proof.
  intros W Hs Hn (_ & [Vs Vn]). split; [exact W|]. split.
  - intros key e H. eapply Vs; eauto.
  - intros key e H. eapply Vn; eauto.
Qed.

Lemma negativeCache_get_ok (key : string) (w : World) :
  caches_ok w -> caches_ok (snd (negativeCache_get key w)).
Proof.
  intros H. rewrite negativeCache_get_eq. simpl.
  pose proof H as ([Ws Wn] & _). apply (caches_ok_shrink w); simpl; auto.
  - split; simpl; [exact Ws|]. now apply LRU_get_wf.
  - intros x. now apply LRU_get_entries.
Qed.

Lemma statCache_get_ok (key : string) (w : World) :
  caches_ok w -> caches_ok (snd (statCache_get key w)).
Proof.
  intros H. rewrite statCache_get_eq. simpl.
  pose proof H as ([Ws Wn] & _). apply (caches_ok_shrink w); simpl; auto.
  - split; simpl; [|exact Wn]. now apply LRU_get_wf.
  - intros x. now apply LRU_get_entries.
Qed.

Lemma statCache_set_ok (key : string) (w : World) :
  caches_ok w -> caches_ok (snd (statCache_set key true w)).
Proof.
  intros ([Ws Wn] & [Vs Vn]). unfold statCache_set. simpl.
  split; split; simpl; auto.
  - now apply LRU_set_wf.
  - intros k e H. apply LRU_set_entries in H; [|exact Ws].
    destruct H as [H|[= _ ->]]; [eauto | reflexivity].
Qed.

Lemma negativeCache_set_ok (key : string) (w : World) :
  caches_ok w -> caches_ok (snd (negativeCache_set key false w)).
Proof.
  intros ([Ws Wn] & [Vs Vn]). unfold negativeCache_set. simpl.
  split; split; simpl; auto.
  - now apply LRU_set_wf.
  - intros k e H. apply LRU_set_entries in H; [|exact Wn].
    destruct H as [H|[= _ ->]]; [eauto | reflexivity].
Qed.

Lemma consult_ok (o : Options) (key : string) (w : World) :
  caches_ok w -> caches_ok (snd (consult o key w)).
Proof.
  intros H. unfold consult. destruct (useCache o); [|exact H].
  unfold bind. pose proof (negativeCache_get_ok key w H) as H1.
  destruct (negativeCache_get key w) as [neg w1]. simpl in H1.
  destruct (is_false neg); [exact H1|]. now apply statCache_get_ok.
Qed.

Lemma record_ok (uc b : bool) (key : string) (w : World) :
  caches_ok w ->
  caches_ok (snd (when uc (if b then statCache_set key true
                           else negativeCache_set key false) w)).
Proof.
  intros H. destruct uc; [|exact H]. simpl.
  destruct b; [now apply statCache_set_ok | now apply negativeCache_set_ok].
Qed.

Lemma candidateCheck_ok (o : Options) (path_ : string) (w : World) :
  caches_ok w -> caches_ok (snd (candidateCheck o path_ w)).
Proof.
  intros H. unfold candidateCheck, bind.
  pose proof (consult_ok o (keyOf o path_) w H) as H1.
  destruct (consult o (keyOf o path_) w) as [[b|] w1]; simpl in *;
    [exact H1|].
  rewrite checkPathSync_eq. unfold bind, callStat.
  pose proof (record_ok (useCache o)
                (probeMatch (allowSymlinks o) (type o) (resolvePath o path_))
                (keyOf o path_)
                (mkWorld (statCache w1) (negativeCache w1) (ticks w1)
                   (Probe (allowSymlinks o) (resolvePath o path_)
                      :: trace w1)) H1) as H2.
  now destruct (when (useCache o) _ _).
Qed.

Lemma scanSync_ok (o : Options) (paths : list string) (w : World) :
  caches_ok w -> caches_ok (snd (scanSync o paths w)).
Proof.
  revert w. induction paths as [|p rest IH]; intros w H; [exact H|].
  rewrite scanSync_step. unfold bind.
  pose proof (candidateCheck_ok o p w H) as H1.
  destruct (candidateCheck o p w) as [[|] w1]; simpl in *; auto.
Qed.

Lemma task_step_ok (t t' : Task) (w w' : World) :
  caches_ok w -> task_wf t -> task_step t w t' w' ->
  caches_ok w' /\ task_wf t'.
Proof.
  intros Hw Ht H. split; [|eapply task_step_wf; eauto].
  assert (Hstart : forall p, caches_ok (snd (testerStart (t_opts t) p w))).
  { intros p. rewrite testerStart_eq. unfold bind.
    pose proof (consult_ok (t_opts t) (keyOf (t_opts t) p) w Hw) as H1.
    now destruct (consult _ _ w) as [[b|] w1]. }
  destruct H as [p b w' _ Hst|p w' _ Hst|slot i p b w' _ _ Hf].
  - specialize (Hstart p). now rewrite Hst in Hstart.
  - specialize (Hstart p). now rewrite Hst in Hstart.
  - rewrite testerFinish_eq in Hf. unfold bind in Hf.
    pose proof (record_ok (useCache (t_opts t)) (matches (t_opts t) p)
                  (keyOf (t_opts t) p) w Hw) as H1.
    destruct (when _ _ w) as [u w1]. injection Hf as _ <-. exact H1.
Qed.

Lemma locatePathSync_ok (paths : list string) (o : Options) (w : World) :
  caches_ok w -> caches_ok (snd (locatePathSync paths o w)).
Proof.
  intros H. unfold locatePathSync.
  destruct (checkType (type o)); [exact H|].
  unfold bind, ret. pose proof (scanSync_ok o paths w H) as H1.
  now destruct (scanSync o paths w).
Qed.

Lemma locatePath_ok (sched : list nat) (paths : list string)
    (o : Options) (pool : list Task) (w : World) :
  caches_ok w -> Forall task_wf pool ->
  caches_ok (snd (locatePath sched paths o pool w)).
Proof.
  intros H Hp. unfold locatePath.
  destruct (checkType (type o)); [exact H|].
  unfold bind, ret.
  assert (Hinv : caches_ok w /\ Forall task_wf (pool ++ [newTask o paths])).
  { split; [exact H|]. apply Forall_app. split; [exact Hp|].
    constructor; [apply newTask_wf | constructor]. }
  pose proof (run_invariant
                (fun pool w => caches_ok w /\ Forall task_wf pool)) as Hrun.
  specialize (Hrun (fun a pool w Hi Ha =>
    exec_pool_inv caches_ok task_wf
      (fun a t w Hw Ht Hok =>
         task_step_ok _ _ _ _ Hw Ht (step_task_rel a t w Ht Hok))
      a pool w Hi Ha)).
  destruct (Hrun (pool_measure (pool ++ [newTask o paths])) sched
              (length pool) _ w Hinv) as [H1 _].
  now destruct (run _ sched (length pool) _ w) as [[r pool'] w'].
Qed.

Lemma initialWorld_ok : caches_ok initialWorld.
Proof.
  unfold caches_ok, world_wf, vals_ok, map_wf. simpl.
  repeat split; try constructor; intros key e [].
Qed.

(** C10, as amended. With caching enabled both locators ask the negative
    cache first: when it holds an unexpired entry for the candidate's key
    the candidate is passed over, whatever the positive cache holds for
    that key. The world afterwards differs only by the read of the negative
    cache: the positive cache is untouched and unread, and no probe is
    logged. Moreover the locators keep the positive cache to values
    [true] and the negative cache to values [false], from the state in
    which the module is loaded onwards. *)
Theorem negative_cache_first (o : Options) (path_ : string) (e : Entry)
    (w : World) :
  useCache o = true ->
  map_wf (cache (negativeCache w)) ->
  map_get (keyOf o path_) (cache (negativeCache w)) = Some e ->
  value e = false ->
  (now (ticks w) - timestamp e <= ttl (negativeCache w))%Z ->
  (forall rest,
     scanSync o (path_ :: rest) w =
     scanSync o rest (after_negative_hit (keyOf o path_) e w)) /\
  testerStart o path_ w =
    (Some false, after_negative_hit (keyOf o path_) e w) /\
  caches_ok initialWorld /\
  (forall paths o' sched pool w0,
     caches_ok w0 -> Forall task_wf pool ->
     caches_ok (snd (locatePathSync paths o' w0)) /\
     caches_ok (snd (locatePath sched paths o' pool w0))).
Proof.
  intros Hu W Hg Hv Hx.
  pose proof (negativeCache_get_hit _ _ _ W Hg Hx) as Hhit.
  rewrite Hv in Hhit.
  assert (Hc : consult o (keyOf o path_) w =
               (Some false, after_negative_hit (keyOf o path_) e w)).
  { unfold consult, bind. rewrite Hu, Hhit. reflexivity. }
  split; [|split; [|split]].
  - intros rest. rewrite scanSync_cons. unfold bind. now rewrite Hc.
  - rewrite testerStart_eq. unfold bind. now rewrite Hc.
  - exact initialWorld_ok.
  - intros paths o' sched pool w0 H0 Hp. split.
    + now apply locatePathSync_ok.
    + now apply locatePath_ok.
Qed.

(* ================================================================== *)
(** ** What a call leaves in the caches *)

Lemma map_delete_app (key : string) (m1 m2 : JsMap) :
  map_wf (m1 ++ m2) ->
  map_delete key (m1 ++ m2) = map_delete key m1 ++ map_delete key m2.
Proof.
  unfold map_wf. induction m1 as [|[k e] m1 IH]; simpl; [reflexivity|].
  intros W. inversion W as [|? ? Hn W']; subst.
  destruct (String.eqb_spec k key) as [->|Hne].
  - f_equal. symmetry. apply map_delete_absent.
    intros H. apply Hn. rewrite map_keys_app. apply in_app_iff. now right.
  - simpl. f_equal. now apply IH.
Qed.

Lemma map_delete_keys_other (key k : string) (m : JsMap) :
  In k (map_keys m) -> k = key \/ In k (map_keys (map_delete key m)).
Proof.
  intros H. destruct (string_dec k key) as [->|Hne]; [now left|].
  right. now apply map_delete_other.
Qed.

Lemma retains_weaken (K : list string) (T T' : string -> Prop)
    (this : LRUCache) :
  (forall k, T' k -> T k) -> retains K T this -> retains K T' this.
Proof.
  intros H (old & recent & E & Hi & Ht). exists old, recent.
  repeat split; auto.
Qed.

Lemma retains_in (K : list string) (T : string -> Prop) (this : LRUCache)
    (k : string) :
  retains K T this -> T k -> In k (map_keys (cache this)).
Proof.
  intros (old & recent & E & Hi & Ht) H. rewrite E, map_keys_app.
  apply in_app_iff. right. now apply Ht.
Qed.

Lemma retains_same_cache (K : list string) (T : string -> Prop)
    (this this' : LRUCache) :
  cache this' = cache this -> retains K T this -> retains K T this'.
Proof.
  intros E (old & recent & E' & H). exists old, recent.
  rewrite E. now split.
Qed.

Lemma retains_touched (K : list string) (T : string -> Prop)
    (this : LRUCache) (k : string) (e : Entry) :
  map_wf (cache this) -> In k K -> retains K T this ->
  retains K (fun k' => T k' \/ k' = k)
    (with_cache this (touched k e (cache this))).
Proof.
  intros W Hk (old & recent & E & Hi & Ht).
  exists (map_delete k old), (map_delete k recent ++ [(k, e)]).
  simpl. unfold touched. rewrite E in *. split; [|split].
  - rewrite map_delete_app by exact W. now rewrite app_assoc.
  - intros x Hx. rewrite map_keys_app in Hx. apply in_app_iff in Hx.
    destruct Hx as [Hx|[<-|[]]]; [|exact Hk].
    apply Hi. eapply map_delete_keys_incl; eauto.
  - intros k' [H| ->]; rewrite map_keys_app; apply in_app_iff.
    + destruct (map_delete_keys_other k k' recent (Ht _ H)) as [->|Hin];
        [right; now left | now left].
    + right. now left.
Qed.

Lemma retains_set (K : list string) (T : string -> Prop) (this : LRUCache)
    (time : Z) (k : string) (v : bool) :
  map_wf (cache this) -> In k K ->
  length (nodup string_dec K) <= maxSize this ->
  retains K T this ->
  retains K (fun k' => T k' \/ k' = k) (LRU_set time k v this).
Proof.
  intros W Hk Hsz Hr.
  destruct (map_has k (cache this)) eqn:Eh.
  - pose proof (retains_touched K T this k (mkEntry v time) W Hk Hr) as H.
    eapply retains_same_cache; [|exact H].
    rewrite LRU_set_cache by exact W. unfold set_base, touched.
    rewrite Eh. reflexivity.
  - apply map_has_false in Eh.
    destruct Hr as (old & recent & E & Hi & Ht).
    assert (Hsnoc : forall old',
      retains K (fun k' => T k' \/ k' = k)
        (with_cache this ((old' ++ recent) ++ [(k, mkEntry v time)]))).
    { intros old'. exists old', (recent ++ [(k, mkEntry v time)]).
      simpl. split; [now rewrite app_assoc|]. split.
      - intros x Hx. rewrite map_keys_app in Hx. apply in_app_iff in Hx.
        destruct Hx as [Hx|[<-|[]]]; auto.
      - intros k' [H| ->]; rewrite map_keys_app; apply in_app_iff;
          [left; auto | right; now left]. }
    pose proof (LRU_set_cache time k v this W) as Ec.
    unfold set_base in Ec.
    rewrite (proj2 (map_has_false k (cache this)) Eh) in Ec.
    destruct (Nat.leb_spec (maxSize this) (map_size (cache this)))
      as [Hfull|Hroom].
    + destruct old as [|x old'].
      * exfalso. simpl in E. rewrite E in *.
        assert (Hnd : NoDup (k :: map_keys recent))
          by (constructor; [exact Eh | exact W]).
        assert (Hincl : incl (k :: map_keys recent)
                          (nodup string_dec K)).
        { intros x [<-|Hx]; apply nodup_In; auto. }
        pose proof (NoDup_incl_length Hnd Hincl) as Hlen.
        simpl in Hlen. unfold map_keys in Hlen.
        rewrite length_map in Hlen. unfold map_size in Hfull. lia.
      * eapply retains_same_cache; [|exact (Hsnoc old')].
        rewrite Ec, E. reflexivity.
    + eapply retains_same_cache; [|exact (Hsnoc old)].
      rewrite Ec, E. reflexivity.
Qed.











Lemma probe_count_get (c : Which) (key : string) (w w' : World) :
  trace w' = CacheGet c key :: trace w -> probe_count w' = probe_count w.
Proof. unfold probe_count. intros ->. reflexivity. Qed.

Lemma probe_count_set (c : Which) (key : string) (v : bool)
    (w w' : World) :
  trace w' = CacheSet c key v :: trace w -> probe_count w' = probe_count w.
Proof. unfold probe_count. intros ->. reflexivity. Qed.






(** Two calls with the same options on candidates whose keys are among
    [K], at most 500 of them distinct, with caching enabled. *)
Section Repeated.

Variable o : Options.
Variable K : list string.
Variable T0 : Z.

Hypothesis V : valid_type (type o).
Hypothesis U : useCache o = true.
Hypothesis HK : length (nodup string_dec K) <= 500.















End Repeated.

Lemma initialWorld_coherent : coherent initialWorld.
Proof.
  destruct initialWorld_ok as [Hw Hv]. split; [exact Hw|].
  split; [exact Hv|]. split; intros key e r t a [].
Qed.



(* ================================================================== *)
(** ** A decided call stays decided *)

Lemma find_app {A} (f : A -> bool) (l m : list A) :
  find f (l ++ m) =
  match find f l with Some x => Some x | None => find f m end.
Proof.
  induction l as [|x l IH]; simpl; [reflexivity|].
  now destruct (f x).
Qed.

Lemma lookup_settled_app (i : nat) (b : bool)
    (settled more : list (nat * bool)) :
  lookup_settled i settled = Some b ->
  lookup_settled i (settled ++ more) = Some b.
Proof.
  unfold lookup_settled. rewrite find_app.
  now destruct (find (fun ib => (fst ib =? i)%nat) settled).
Qed.

Lemma ordered_verdict_app (paths : list string) (k : nat)
    (settled more : list (nat * bool)) (v : option string) :
  ordered_verdict paths k settled = Some v ->
  ordered_verdict paths k (settled ++ more) = Some v.
Proof.
  revert k. induction paths as [|p rest IH]; intros k; simpl; [trivial|].
  destruct (lookup_settled k settled) as [b|] eqn:E; [|discriminate].
  rewrite (lookup_settled_app _ _ _ more E). destruct b; auto.
Qed.

(** The value [pLocate] resolves to is the one of the moment it is
    decided: the checks that go on afterwards do not change it. *)
Lemma verdict_stable (t t' : Task) (w w' : World) (v : option string) :
  verdict t = Some v -> task_step t w t' w' -> verdict t' = Some v.
Proof.
  intros Hv H. unfold verdict in *.
  assert (Happ : forall more,
    (if preserve (t_opts t)
     then ordered_verdict (t_paths t) 0 (t_settled t ++ more)
     else match first_true (t_settled t ++ more) with
          | Some i => Some (nth_error (t_paths t) i)
          | None => None
          end) = Some v \/
    (preserve (t_opts t) = false /\ first_true (t_settled t) = None /\
     (length (t_paths t) <=? t_next t)%nat &&
     (length (t_running t) =? 0)%nat = true)).
  { intros more. destruct (preserve (t_opts t)).
    - left. now apply ordered_verdict_app.
    - unfold first_true in *. rewrite find_app.
      destruct (find (fun ib => snd ib) (t_settled t)) as [ib|];
        [now left|].
      right. repeat split.
      destruct ((length (t_paths t) <=? t_next t)%nat &&
                (length (t_running t) =? 0)%nat); [reflexivity|
                                                    discriminate]. }
  destruct H as [p b w' Hp _|p w' Hp _|slot i p b w' Hs Hp _]; simpl.
  - destruct (Happ [(t_next t, b)]) as [H|(H1 & H2 & H3)].
    + destruct (preserve (t_opts t)); [exact H|].
      now destruct (first_true (t_settled t ++ [(t_next t, b)])).
    + exfalso. apply andb_prop in H3. destruct H3 as [H3 _].
      apply Nat.leb_le in H3.
      assert (t_next t < length (t_paths t))
        by (apply nth_error_Some; congruence). lia.
  - destruct (Happ []) as [H|(H1 & H2 & H3)].
    + rewrite app_nil_r in H. destruct (preserve (t_opts t)); [exact H|].
      now destruct (first_true (t_settled t)).
    + exfalso. apply andb_prop in H3. destruct H3 as [H3 _].
      apply Nat.leb_le in H3.
      assert (t_next t < length (t_paths t))
        by (apply nth_error_Some; congruence). lia.
  - destruct (Happ [(i, b)]) as [H|(H1 & H2 & H3)].
    + destruct (preserve (t_opts t)); [exact H|].
      now destruct (first_true (t_settled t ++ [(i, b)])).
    + exfalso. apply andb_prop in H3. destruct H3 as [_ H3].
      apply Nat.eqb_eq in H3. apply length_zero_iff_nil in H3.
      rewrite H3 in Hs. destruct slot; discriminate.
Qed.

(* ================================================================== *)
(** ** Further properties of the type selectors *)

(** X1. [checkType] lets through exactly the selectors 'file',
    'directory' and 'both', and these are exactly the selectors for
    which [matchType] answers: after [checkType] has returned,
    [matchType] never fails on a [Stats] object. *)
Theorem checkType_guards_matchType (t : string) (s : Stats) :
  (checkType t = None <-> valid_type t) /\
  (checkType t = None <-> exists b, matchType t s = Some b).
Proof.
  unfold checkType, matchType, typeMappings, valid_type.
  destruct (String.eqb_spec t "both") as [->|Hb].
  { simpl. split; split; eauto. }
  destruct (String.eqb_spec t "directory") as [->|Hd].
  { simpl. split; split; eauto. }
  destruct (String.eqb_spec t "file") as [->|Hf].
  { simpl. split; split; eauto. }
  split; split; try discriminate.
  - intros [H|[H|H]]; congruence.
  - intros [b H]. discriminate H.
Qed.

(** X2. The selector 'both' is the disjunction of the other two: an
    entry matches 'both' exactly when it matches 'file' or matches
    'directory'. *)
Theorem matchType_both (s : Stats) (b : bool) :
  matchType "both" s = Some b <->
  exists f d, matchType "file" s = Some f /\
              matchType "directory" s = Some d /\ b = (f || d).
Proof.
  simpl. split.
  - intros [= <-]. exists (isFile s), (isDirectory s). auto.
  - intros (f & d & [= <-] & [= <-] & ->). reflexivity.
Qed.

(* ================================================================== *)
(** ** Further properties of the LRU cache *)

Lemma map_get_delete_other (key k : string) (m : JsMap) :
  k <> key -> map_get k (map_delete key m) = map_get k m.
Proof.
  intros Hne. induction m as [|[k0 e] m IH]; simpl; [reflexivity|].
  destruct (String.eqb_spec k0 key) as [->|H0]; simpl.
  - apply String.eqb_neq in Hne. rewrite String.eqb_sym. now rewrite Hne.
  - now rewrite IH.
Qed.

Lemma map_get_set_other (key k : string) (e : Entry) (m : JsMap) :
  k <> key -> map_get k (map_set key e m) = map_get k m.
Proof.
  intros Hne. apply String.eqb_neq in Hne. rewrite String.eqb_sym in Hne.
  induction m as [|[k0 e0] m IH]; simpl.
  - now rewrite Hne.
  - destruct (String.eqb_spec k0 key) as [->|H0]; simpl.
    + now rewrite Hne.
    + now rewrite IH.
Qed.

Lemma map_delete_touched (key : string) (e : Entry) (m : JsMap) :
  map_wf m -> map_delete key (touched key e m) = map_delete key m.
Proof.
  intros W. unfold touched.
  rewrite map_delete_app by (now apply touched_wf).
  rewrite (map_delete_absent key (map_delete key m))
    by (now apply map_delete_gone).
  simpl. rewrite String.eqb_refl. apply app_nil_r.
Qed.

(** X3. A [set] followed by a [get] of the same key gives back the value
    that was written, unless more than [ttl] has passed between the two
    calls, in which case it gives absent: whatever the cache held. *)
Theorem LRU_set_then_get (t t' : Z) (key : string) (v : bool)
    (this : LRUCache) :
  fst (LRU_get t' key (LRU_set t key v this)) =
  if (t' - t >? ttl this)%Z then None else Some v.
Proof.
  unfold LRU_get, LRU_set. simpl. rewrite map_get_set_same. simpl.
  now destruct (t' - t >? ttl this)%Z.
Qed.

(** X4. [get(key)] leaves every other key alone: what the cache holds
    for another key is unchanged, and so are the other entries and the
    order among them, whether the looked-up entry is missing, expired
    or moved to the end. *)
Theorem LRU_get_frame (time : Z) (key k : string) (this : LRUCache) :
  map_wf (cache this) -> k <> key ->
  map_get k (cache (snd (LRU_get time key this))) = map_get k (cache this) /\
  map_delete key (cache (snd (LRU_get time key this))) =
    map_delete key (cache this).
Proof.
  intros W Hne. unfold LRU_get.
  destruct (map_get key (cache this)) as [e|] eqn:E; [|split; reflexivity].
  destruct (time - timestamp e >? ttl this)%Z; simpl.
  - split; [now apply map_get_delete_other|].
    apply map_delete_absent. now apply map_delete_gone.
  - rewrite map_get_set_other, map_get_delete_other by exact Hne.
    split; [reflexivity|].
    rewrite map_set_delete by exact W. now apply map_delete_touched.
Qed.

(** X5. What [set(key, value)] does to another key [k]: its entry is
    lost only when [key] is new, the cache is full and [k] is the first
    key in iteration order; in every other case the entry of [k] is the
    one held before. *)
Theorem LRU_set_frame (time : Z) (key k : string) (v : bool)
    (this : LRUCache) :
  map_wf (cache this) -> k <> key ->
  map_get k (cache (LRU_set time key v this)) =
  if evicts key k this then None else map_get k (cache this).
Proof.
  intros W Hne. unfold LRU_set, evicts. simpl.
  rewrite map_get_set_other by exact Hne.
  destruct (map_has key (cache this)); simpl.
  - now apply map_get_delete_other.
  - destruct (maxSize this <=? map_size (cache this))%nat; simpl;
      [|reflexivity].
    destruct (cache this) as [|[k0 e0] m]; simpl in *; [reflexivity|].
    rewrite String.eqb_refl.
    destruct (String.eqb_spec k0 k) as [->|H0]; [|reflexivity].
    apply map_get_none. unfold map_wf in W. simpl in W.
    now inversion W.
Qed.

(** X6. The last write wins: two calls of [set] on the same key leave
    the cache as the second call alone would, entry, order and
    evictions included. *)
Theorem LRU_set_overwrites (t1 t2 : Z) (key : string) (v1 v2 : bool)
    (this : LRUCache) :
  map_wf (cache this) ->
  LRU_set t2 key v2 (LRU_set t1 key v1 this) = LRU_set t2 key v2 this.
Proof.
  intros W.
  assert (E : cache (LRU_set t2 key v2 (LRU_set t1 key v1 this)) =
              cache (LRU_set t2 key v2 this)).
  { rewrite (LRU_set_cache t2 key v2 this W).
    rewrite LRU_set_cache by (now apply LRU_set_wf).
    f_equal. unfold set_base at 1. unfold map_has.
    rewrite LRU_set_holds by exact W.
    pose proof (LRU_set_wf t1 key v1 this W) as W1.
    rewrite LRU_set_cache in * by exact W.
    rewrite map_delete_app by exact W1.
    rewrite (map_delete_absent key (set_base key this))
      by (now apply set_base_fresh).
    simpl. rewrite String.eqb_refl. apply app_nil_r. }
  unfold LRU_set in *. unfold with_cache in *. simpl in *. now rewrite E.
Qed.

(** X7. [get] is idempotent: a second [get] of the same key at the same
    clock reading answers as the first and leaves the cache as the first
    left it. *)
Theorem LRU_get_again (time : Z) (key : string) (this : LRUCache) :
  map_wf (cache this) ->
  LRU_get time key (snd (LRU_get time key this)) = LRU_get time key this.
Proof.
  intros W. unfold LRU_get at 2 3.
  destruct (map_get key (cache this)) as [e|] eqn:E.
  - destruct (Z.gtb_spec (time - timestamp e) (ttl this)) as [Hx|Hx]; simpl.
    + apply LRU_get_absent. simpl. apply map_get_none.
      now apply map_delete_gone.
    + rewrite map_set_delete by exact W.
      rewrite (LRU_get_hit time key _ e); simpl.
      * change (touched key e (touched key e (cache this)))
          with (map_delete key (touched key e (cache this)) ++ [(key, e)]).
        now rewrite map_delete_touched.
      * now apply touched_wf.
      * apply map_get_snoc_same. now apply map_delete_gone.
      * exact Hx.
  - simpl. now apply LRU_get_absent.
Qed.

(** An entry found in a later state of the cache is the entry held
    before, when nothing new was written under its key. *)
Lemma kept_entry (key : string) (e : Entry) (m m' : JsMap) :
  map_wf m -> map_get key m = Some e ->
  In key (map_keys m') ->
  (forall e', In (key, e') m' -> In (key, e') m) ->
  map_get key m' = Some e.
Proof.
  intros W Hg Hin Hsub.
  destruct (map_get key m') as [e'|] eqn:E.
  - apply map_get_some_in in E. apply Hsub in E.
    apply (map_in_get _ _ _ W) in E. congruence.
  - apply map_get_none in E. contradiction.
Qed.

Lemma retains_get (K : list string) (T : string -> Prop)
    (this : LRUCache) (time : Z) (k : string) :
  map_wf (cache this) -> In k K -> (forall k', T k' -> k' <> k) ->
  retains K T this -> retains K T (snd (LRU_get time k this)).
Proof.
  intros W Hk Hne Hr. unfold LRU_get.
  destruct (map_get k (cache this)) as [e|] eqn:E; [|exact Hr].
  destruct (time - timestamp e >? ttl this)%Z; simpl.
  - destruct Hr as (old & recent & Ec & Hi & Ht).
    exists (map_delete k old), (map_delete k recent). simpl.
    split; [|split].
    + rewrite Ec in *. now apply map_delete_app.
    + intros x Hx. apply Hi. eapply map_delete_keys_incl; eauto.
    + intros k' Hk'. apply map_delete_other; auto.
  - rewrite map_set_delete by exact W.
    apply (retains_weaken K (fun k' => T k' \/ k' = k)); [auto|].
    now apply retains_touched.
Qed.

Lemma op_keys_in (op : CacheOp) (ops : list CacheOp) (k : string) :
  In op ops ->
  match op with
  | OpGet _ k' => k' = k
  | OpSet _ k' _ => k' = k
  | OpClear => False
  end -> In k (op_keys ops).
Proof.
  intros Hin Hk. unfold op_keys. apply in_flat_map. exists op.
  split; [exact Hin|]. destruct op; simpl; auto.
Qed.

(** One call on another key among [K], at most [maxSize] keys in all,
    keeps the entry of [key] where it is among the recently used. *)
Lemma recent_entry_step (K : list string) (key : string) (e : Entry)
    (op : CacheOp) (this : LRUCache) :
  length (nodup string_dec K) <= maxSize this ->
  on_other_key key op ->
  (forall k, match op with
             | OpGet _ k' => k' = k
             | OpSet _ k' _ => k' = k
             | OpClear => False
             end -> In k K) ->
  map_wf (cache this) ->
  retains K (fun k => k = key) this ->
  map_get key (cache this) = Some e ->
  map_wf (cache (apply_op op this)) /\
  maxSize (apply_op op this) = maxSize this /\
  retains K (fun k => k = key) (apply_op op this) /\
  map_get key (cache (apply_op op this)) = Some e.
Proof.
  intros HK Hop Hin W Hr Hg.
  destruct op as [time k|time k v|]; simpl in *; [| |contradiction].
  - assert (Hr' : retains K (fun k' => k' = key)
                    (snd (LRU_get time k this))).
    { apply retains_get; auto. intros k' ->. congruence. }
    split; [now apply LRU_get_wf|].
    split; [apply LRU_get_config|]. split; [exact Hr'|].
    apply (kept_entry key e (cache this)); auto.
    + apply (retains_in _ _ _ key Hr'). reflexivity.
    + intros e'. now apply LRU_get_entries.
  - assert (Hr' : retains K (fun k' => k' = key) (LRU_set time k v this)).
    { apply (retains_weaken K (fun k' => k' = key \/ k' = k)); [auto|].
      apply retains_set; auto. }
    split; [now apply LRU_set_wf|].
    split; [reflexivity|]. split; [exact Hr'|].
    apply (kept_entry key e (cache this)); auto.
    + apply (retains_in _ _ _ key Hr'). reflexivity.
    + intros e' H. apply LRU_set_entries in H; [|exact W].
      destruct H as [H|[= Hk _]]; [exact H | congruence].
Qed.

Lemma recent_entry_steps (K : list string) (key : string) (e : Entry)
    (ops : list CacheOp) (this : LRUCache) :
  length (nodup string_dec K) <= maxSize this ->
  Forall (on_other_key key) ops ->
  incl (op_keys ops) K ->
  map_wf (cache this) ->
  retains K (fun k => k = key) this ->
  map_get key (cache this) = Some e ->
  map_get key (cache (apply_ops ops this)) = Some e.
Proof.
  revert this. induction ops as [|op ops IH];
    intros this HK Hops Hin W Hr Hg; [exact Hg|].
  inversion Hops as [|? ? Hop Hops']; subst. simpl.
  destruct (recent_entry_step K key e op this HK Hop) as (W' & Hm & Hr' & Hg');
    auto.
  { intros k Hk. apply Hin. apply (op_keys_in op); [now left | exact Hk]. }
  apply IH; auto.
  - now rewrite Hm.
  - intros k Hk. apply Hin. unfold op_keys in *. simpl.
    apply in_app_iff. now right.
Qed.

Lemma LRU_set_retains (t : Z) (key : string) (v : bool) (this : LRUCache)
    (K : list string) :
  map_wf (cache this) ->
  retains (key :: K) (fun k => k = key) (LRU_set t key v this).
Proof.
  intros W. exists (set_base key this), [(key, mkEntry v t)].
  split; [now apply LRU_set_cache|]. split.
  - intros k [<-|[]]. now left.
  - intros k ->. now left.
Qed.

(** X8. Recently used means kept: after [set(key, value)], whatever
    calls of [get] and [set] follow on other keys, the entry of [key] is
    still held, with its value and timestamp, as long as [key] and the
    keys of these calls are at most [maxSize] distinct keys. *)
Theorem recently_set_entry_is_kept (t : Z) (key : string) (v : bool)
    (this : LRUCache) (ops : list CacheOp) :
  map_wf (cache this) ->
  Forall (on_other_key key) ops ->
  length (nodup string_dec (key :: op_keys ops)) <= maxSize this ->
  map_get key (cache (apply_ops ops (LRU_set t key v this))) =
  Some (mkEntry v t).
Proof.
  intros W Hops HK.
  apply (recent_entry_steps (key :: op_keys ops)).
  - exact HK.
  - exact Hops.
  - intros k Hk. now right.
  - now apply LRU_set_wf.
  - now apply LRU_set_retains.
  - now apply LRU_set_holds.
Qed.

(** X9. A lookup keeps an entry from eviction as a write does: after a
    [get(key)] that finds an entry that has not expired, whatever calls
    of [get] and [set] follow on other keys, the entry is still held,
    unchanged, as long as [key] and the keys of these calls are at most
    [maxSize] distinct keys. The cache evicts by last use, not by
    insertion. *)
Theorem recently_read_entry_is_kept (time : Z) (key : string) (e : Entry)
    (this : LRUCache) (ops : list CacheOp) :
  map_wf (cache this) ->
  map_get key (cache this) = Some e ->
  (time - timestamp e <= ttl this)%Z ->
  Forall (on_other_key key) ops ->
  length (nodup string_dec (key :: op_keys ops)) <= maxSize this ->
  fst (LRU_get time key this) = Some (value e) /\
  map_get key (cache (apply_ops ops (snd (LRU_get time key this)))) =
  Some e.
Proof.
  intros W Hg Hx Hops HK. rewrite (LRU_get_hit _ _ _ _ W Hg Hx). simpl.
  split; [reflexivity|].
  apply (recent_entry_steps (key :: op_keys ops)).
  - exact HK.
  - exact Hops.
  - intros k Hk. now right.
  - simpl. now apply touched_wf.
  - exists (map_delete key (cache this)), [(key, e)].
    split; [reflexivity|]. split.
    + intros k [<-|[]]. now left.
    + intros k ->. now left.
  - simpl. apply map_get_snoc_same. now apply map_delete_gone.
Qed.

Lemma apply_ops_app (ops1 ops2 : list CacheOp) (this : LRUCache) :
  apply_ops (ops1 ++ ops2) this = apply_ops ops2 (apply_ops ops1 this).
Proof. apply fold_left_app. Qed.

Lemma op_keys_app (ops1 ops2 : list CacheOp) :
  op_keys (ops1 ++ ops2) = op_keys ops1 ++ op_keys ops2.
Proof. apply flat_map_app. Qed.

Lemma op_keys_length (ops : list CacheOp) :
  length (op_keys ops) <= length ops.
Proof.
  induction ops as [|[t k|t k v|] ops IH]; simpl; lia.
Qed.

Lemma sets_keys_length (ops : list CacheOp) :
  Forall is_set ops -> length (op_keys ops) = length ops.
Proof.
  induction 1 as [|[t k|t k v|] ops Hop _ IH]; simpl in *;
    try contradiction; auto.
Qed.

Lemma op_keys_split (ops : list CacheOp) (k : string) :
  Forall is_set ops -> In k (op_keys ops) ->
  exists ops1 t v ops2, ops = ops1 ++ OpSet t k v :: ops2.
Proof.
  intros Hs Hin. unfold op_keys in Hin. apply in_flat_map in Hin.
  destruct Hin as (op & Hop & Hk).
  rewrite Forall_forall in Hs. specialize (Hs op Hop).
  destruct op as [t k'|t k' v|]; simpl in *; try contradiction.
  destruct Hk as [->|[]].
  apply in_split in Hop. destruct Hop as (ops1 & ops2 & ->).
  now exists ops1, t, v, ops2.
Qed.

(** Every key written by a run of at most [maxSize] calls of [set] on
    pairwise distinct keys is held at the end of the run. *)
Lemma distinct_sets_held (ops : list CacheOp) (this : LRUCache)
    (k : string) :
  cache_ok this -> Forall is_set ops -> NoDup (op_keys ops) ->
  length ops <= maxSize this -> In k (op_keys ops) ->
  In k (map_keys (cache (apply_ops ops this))).
Proof.
  intros Hok Hs Hnd Hlen Hin.
  destruct (op_keys_split ops k Hs Hin) as (ops1 & t & v & ops2 & ->).
  rewrite apply_ops_app. simpl.
  destruct (apply_ops_ok ops1 this Hok) as [(W1 & _) Hm1].
  rewrite op_keys_app in Hnd. simpl in Hnd.
  apply NoDup_remove_2 in Hnd.
  apply Forall_app in Hs. destruct Hs as [_ Hs2].
  inversion Hs2 as [|? ? _ Hs2']; subst.
  rewrite length_app in Hlen. simpl in Hlen.
  apply (map_get_in_keys k _ (mkEntry v t)).
  apply (recent_entry_steps (k :: op_keys ops2));
    [ | | intros x Hx; now right | now apply LRU_set_wf
    | now apply LRU_set_retains | now apply LRU_set_holds ].
  2:{ rewrite Forall_forall in *. intros op Hop. specialize (Hs2' op Hop).
      destruct op as [t' k'|t' k' v'|]; simpl in *; try contradiction.
      intros ->. apply Hnd. apply in_app_iff. right.
      apply (op_keys_in (OpSet t' k v') ops2); [exact Hop | reflexivity]. }
  - change (maxSize (LRU_set t k v (apply_ops ops1 this)))
      with (maxSize (apply_ops ops1 this)). rewrite Hm1.
    pose proof (NoDup_incl_length
                  (NoDup_nodup string_dec (k :: op_keys ops2))
                  (fun x (Hx : In x (nodup string_dec (k :: op_keys ops2))) =>
                     proj1 (nodup_In string_dec _ x) Hx)) as Hle.
    simpl length in Hle at 2. pose proof (op_keys_length ops2). lia.
Qed.

(** X10. Least recently used goes first: once [set] has been called on
    [maxSize] pairwise distinct other keys, a key is no longer held,
    whatever the cache held before and however recently the key was
    used before these calls. The bound of the two preceding properties is the best possible. *)
Theorem least_recently_used_is_evicted (key : string) (this : LRUCache)
    (ops : list CacheOp) :
  cache_ok this ->
  Forall is_set ops -> NoDup (op_keys ops) -> ~ In key (op_keys ops) ->
  length ops = maxSize this ->
  map_get key (cache (apply_ops ops this)) = None.
Proof.
  intros Hok Hs Hnd Hk Hlen. apply map_get_none. intros Hin.
  destruct (apply_ops_ok ops this Hok) as [(_ & _ & Hsz) Hm].
  rewrite Hm in Hsz. unfold map_size in Hsz.
  assert (Hincl : incl (op_keys ops) (map_keys (cache (apply_ops ops this)))).
  { intros k Hkin. apply distinct_sets_held; auto. lia. }
  assert (Hsub : incl (map_keys (cache (apply_ops ops this))) (op_keys ops)).
  { apply NoDup_length_incl; [exact Hnd| |exact Hincl].
    unfold map_keys. rewrite length_map, (sets_keys_length ops Hs). lia. }
  exact (Hk (Hsub _ Hin)).
Qed.

(** X11. A capacity of zero is a capacity of one: on a cache created
    with [maxSize] 0, which holds at most the entry of an earlier
    [set], the test [size >= maxSize] always holds, [set] deletes the
    first key, [undefined] when there is none, and then writes: the
    cache holds the one entry written last, one more than [maxSize]. *)
Theorem capacity_zero_holds_one (time : Z) (key : string) (v : bool)
    (this : LRUCache) :
  maxSize this = 0 -> map_size (cache this) <= 1 ->
  cache (LRU_set time key v this) = [(key, mkEntry v time)] /\
  map_size (cache (LRU_set time key v this)) = S (maxSize this).
Proof.
  intros Hm Hsz. unfold LRU_set, map_has. rewrite Hm. simpl.
  destruct (cache this) as [|[k0 e0] [|x m]]; simpl in *; try lia.
  - auto.
  - destruct (String.eqb k0 key) eqn:E; simpl.
    + auto.
    + rewrite String.eqb_refl. auto.
Qed.

Lemma written_entry_step (key : string) (e : Entry) (op : CacheOp)
    (this : LRUCache) :
  leaves_value key op ->
  map_wf (cache this) ->
  (forall e', In (key, e') (cache this) -> e' = e) ->
  map_wf (cache (apply_op op this)) /\
  ttl (apply_op op this) = ttl this /\
  (forall e', In (key, e') (cache (apply_op op this)) -> e' = e).
Proof.
  intros Hop W He. destruct op as [time k|time k v|]; simpl in *.
  - split; [now apply LRU_get_wf|]. split; [apply LRU_get_config|].
    intros e' H. apply He. now apply LRU_get_entries in H.
  - split; [now apply LRU_set_wf|]. split; [reflexivity|].
    intros e' H. apply LRU_set_entries in H; [|exact W].
    destruct H as [H|[= Hk _]]; [now apply He | congruence].
  - split; [constructor|]. split; [reflexivity|]. intros e' [].
Qed.

Lemma written_entry_steps (key : string) (e : Entry) (ops : list CacheOp)
    (this : LRUCache) :
  Forall (leaves_value key) ops ->
  map_wf (cache this) ->
  (forall e', In (key, e') (cache this) -> e' = e) ->
  ttl (apply_ops ops this) = ttl this /\
  (forall e', In (key, e') (cache (apply_ops ops this)) -> e' = e).
Proof.
  revert this. induction ops as [|op ops IH]; intros this Hops W He;
    [split; [reflexivity | exact He]|].
  inversion Hops as [|? ? Hop Hops']; subst. simpl.
  destruct (written_entry_step key e op this Hop W He) as (W' & Ht & He').
  destruct (IH _ Hops' W' He') as [Ht' He''].
  split; [congruence | exact He''].
Qed.

(** X12. The lifetime of an entry counts from its writing: after
    [set(key, value)] at time [t], and whatever calls other than a [set]
    on [key] are made in between, lookups of [key] included, a [get] of
    [key] answers either absent or the value written, and the value only
    if no more than [ttl] has passed since [t]. A lookup moves an entry
    to the end but does not renew it. *)
Theorem LRU_entry_lifetime (t t' : Z) (key : string) (v b : bool)
    (this : LRUCache) (ops : list CacheOp) :
  map_wf (cache this) ->
  Forall (leaves_value key) ops ->
  fst (LRU_get t' key (apply_ops ops (LRU_set t key v this))) = Some b ->
  b = v /\ (t' - t <= ttl this)%Z.
Proof.
  intros W Hops Hb.
  destruct (written_entry_steps key (mkEntry v t) ops
              (LRU_set t key v this) Hops) as [Ht He].
  - now apply LRU_set_wf.
  - intros e' H. rewrite LRU_set_cache in H by exact W.
    apply in_app_iff in H. destruct H as [H|[[= <-]|[]]]; [|reflexivity].
    exfalso. apply (set_base_fresh key this W).
    apply (in_map fst) in H. exact H.
  - apply LRU_get_some in Hb. destruct Hb as (e & Hin & Hv & Hx).
    apply He in Hin. subst e. simpl in *.
    rewrite Ht in Hx. auto.
Qed.

(* ================================================================== *)
(** ** Further properties of the synchronous locator *)

(** X13. The body of the loop of [locatePathSync], [checkPathSync]
    included, does to the caches, the log and the result exactly what
    the tester of [locatePath] does when it is run in one go: the
    synchronous locator is the asynchronous tester applied to the
    candidates one after the other, up to the first that answers
    true. *)
Theorem scanSync_runs_tester (o : Options) (path_ : string)
    (rest : list string) (w : World) :
  scanSync o (path_ :: rest) w =
  (b <- tester o path_ ;;
   if b then ret (Some path_) else scanSync o rest) w.
Proof.
  rewrite scanSync_cons. unfold tester, bind. rewrite testerStart_eq.
  unfold bind.
  destruct (consult o (keyOf o path_) w) as [[[|]|] w1]; try reflexivity.
  simpl. rewrite checkPathSync_eq, testerFinish_eq.
  unfold bind, callStat, matches. reflexivity.
Qed.

(** X14. What [checkPathSync] does, in all its branches: it calls the
    stat function once and answers true exactly when the call finds an
    entry that [matchType] accepts; with [useCache] it then writes one
    entry under the key, [true] to the positive cache after the answer
    true and [false] to the negative cache after the answer false, and
    leaves the other cache alone; without [useCache] it leaves both. *)
Theorem checkPathSync_effect (r key t : string) (allow uc : bool)
    (w : World) :
  let res := checkPathSync r key t allow uc w in
  (fst res = true <->
   exists s, statFunction allow r = Found s /\ matchType t s = Some true) /\
  trace (snd res) =
    (if uc then [CacheSet (if fst res then Positive else Negative) key
                   (fst res)]
     else []) ++ Probe allow r :: trace w /\
  statCache (snd res) =
    (if uc && fst res then LRU_set (now (ticks w)) key true (statCache w)
     else statCache w) /\
  negativeCache (snd res) =
    (if uc && negb (fst res)
     then LRU_set (now (ticks w)) key false (negativeCache w)
     else negativeCache w).
Proof.
  unfold checkPathSync, bind, callStat, when.
  destruct (statFunction allow r) as [| |s] eqn:Es.
  1,2: destruct uc; simpl; (split; [split; [discriminate|]|auto]);
       intros (s & Hs & _); discriminate Hs.
  destruct (matchType t s) as [[|]|] eqn:Em; destruct uc; simpl;
    (split; [split|auto]); try discriminate; eauto;
    intros (s' & [= <-] & Hm); congruence.
Qed.

Lemma scanSync_app (o : Options) (l1 l2 : list string) (w : World) :
  scanSync o (l1 ++ l2) w =
  match scanSync o l1 w with
  | (None, w1) => scanSync o l2 w1
  | found => found
  end.
Proof.
  revert w. induction l1 as [|p l1 IH]; intros w; [reflexivity|].
  rewrite <- app_comm_cons, !scanSync_step. unfold bind.
  destruct (candidateCheck o p w) as [[|] w1]; [reflexivity|].
  apply IH.
Qed.

(** X15. Searching a list put together from two is searching the first
    and, when that returns absent, searching the second in the state the
    first search has left: a longer list of candidates changes nothing
    for the candidates before its first match. *)
Theorem locatePathSync_app (l1 l2 : list string) (o : Options)
    (w : World) :
  locatePathSync (l1 ++ l2) o w =
  match locatePathSync l1 o w with
  | (Returned None, w1) => locatePathSync l2 o w1
  | found => found
  end.
Proof.
  unfold locatePathSync. destruct (checkType (type o)); [reflexivity|].
  unfold bind, ret. rewrite scanSync_app.
  destruct (scanSync o l1 w) as [[c|] w1]; reflexivity.
Qed.

Lemma scanSync_cwd (o : Options) (dir : string) (paths : list string)
    (w : World) :
  Forall (fun p => isAbsolute p = true) paths ->
  scanSync (with_cwd o dir) paths w = scanSync o paths w.
Proof.
  intros H. revert w. induction H as [|p paths Hp _ IH]; intros w;
    [reflexivity|].
  simpl. unfold resolvePath. rewrite Hp. simpl. unfold bind.
  destruct (if useCache o then _ else _) as [neg w1].
  destruct (is_false neg); [apply IH|].
  destruct (if useCache o then _ else _) as [[[|]|] w2];
    [reflexivity | apply IH |].
  destruct (checkPathSync _ _ _ _ _ w2) as [[|] w3]; [reflexivity|].
  apply IH.
Qed.

(** X16. The working directory matters for relative candidates only:
    when every candidate is absolute, the [cwd] option changes neither
    what [locatePathSync] returns nor what it does to the caches and
    the log, and the tester of [locatePath] is the same for every
    [cwd]. *)
Theorem absolute_candidates_ignore_cwd (paths : list string) (o : Options)
    (dir : string) (w : World) :
  Forall (fun p => isAbsolute p = true) paths ->
  locatePathSync paths (with_cwd o dir) w = locatePathSync paths o w /\
  forall p w', In p paths ->
    testerStart (with_cwd o dir) p w' = testerStart o p w' /\
    testerFinish (with_cwd o dir) p w' = testerFinish o p w'.
Proof.
  intros H. split.
  - unfold locatePathSync. simpl.
    destruct (checkType (type o)); [reflexivity|].
    unfold bind. now rewrite scanSync_cwd.
  - intros p w' Hin. rewrite Forall_forall in H. specialize (H p Hin).
    unfold testerStart, testerFinish, resolvePath. rewrite H. simpl.
    split; reflexivity.
Qed.

Lemma scanSync_nocache_trace (o : Options) (paths : list string)
    (w : World) :
  useCache o = false ->
  trace (snd (scanSync o paths w)) =
  rev (map (probe_of o) (examined o paths)) ++ trace w.
Proof.
  intros Hu. revert w. induction paths as [|p rest IH]; intros w;
    [reflexivity|].
  rewrite scanSync_step. unfold bind.
  rewrite (candidateCheck_nocache o p w Hu). simpl examined.
  destruct (matches o p); [reflexivity|].
  rewrite IH. simpl. now rewrite <- app_assoc.
Qed.

(** X17. With [useCache] false the synchronous locator calls the stat
    function once for each candidate up to and including the first that
    matches, in list order, and for no candidate after it; the log
    grows by these calls and nothing else. *)
Theorem locatePathSync_nocache_probes (paths : list string) (o : Options)
    (w : World) :
  valid_type (type o) -> useCache o = false ->
  trace (snd (locatePathSync paths o w)) =
  rev (map (probe_of o) (examined o paths)) ++ trace w.
Proof.
  intros V Hu. unfold locatePathSync. rewrite (checkType_valid _ V).
  unfold bind, ret.
  pose proof (scanSync_nocache_trace o paths w Hu) as H.
  now destruct (scanSync o paths w).
Qed.

Lemma events_of_one (o : Options) (p : string) (new : list Event) :
  Forall (event_of o p) new -> events_of o [p] new.
Proof.
  intros H. unfold events_of. eapply Forall_impl; [|exact H].
  intros e He. exists p. split; [now left | exact He].
Qed.

Lemma events_of_incl (o : Options) (l l' : list string) (new : list Event) :
  incl l l' -> events_of o l new -> events_of o l' new.
Proof.
  intros Hi H. unfold events_of in *. eapply Forall_impl; [|exact H].
  intros e (p & Hp & He). exists p. auto.
Qed.

(** The events of the check of one candidate: they are its own, and at
    most one of them is a stat call. *)
Lemma candidateCheck_events (o : Options) (p : string) (w : World) :
  exists new,
    trace (snd (candidateCheck o p w)) = new ++ trace w /\
    Forall (event_of o p) new /\
    length (filter is_probe new) <= 1.
Proof.
  unfold candidateCheck, consult, bind.
  destruct (useCache o) eqn:U.
  - rewrite negativeCache_get_eq.
    destruct (is_false _).
    + exists [CacheGet Negative (keyOf o p)]. simpl.
      repeat split; auto. repeat constructor.
    + rewrite statCache_get_eq.
      destruct (fst (LRU_get _ _ (statCache _))) as [b|].
      * exists [CacheGet Positive (keyOf o p);
                CacheGet Negative (keyOf o p)]. simpl.
        repeat split; auto. repeat constructor.
      * rewrite checkPathSync_eq. unfold bind, callStat. simpl.
        destruct (probeMatch (allowSymlinks o) (type o) (resolvePath o p)).
        -- exists [CacheSet Positive (keyOf o p) true;
                   Probe (allowSymlinks o) (resolvePath o p);
                   CacheGet Positive (keyOf o p);
                   CacheGet Negative (keyOf o p)]. simpl.
           repeat split; auto. repeat constructor.
        -- exists [CacheSet Negative (keyOf o p) false;
                   Probe (allowSymlinks o) (resolvePath o p);
                   CacheGet Positive (keyOf o p);
                   CacheGet Negative (keyOf o p)]. simpl.
           repeat split; auto. repeat constructor.
  - simpl. rewrite checkPathSync_eq. unfold bind, callStat.
    exists [Probe (allowSymlinks o) (resolvePath o p)]. simpl.
    repeat split; auto. repeat constructor.
Qed.

Lemma scanSync_events (o : Options) (paths : list string) (w : World) :
  exists looked rest new,
    paths = looked ++ rest /\
    trace (snd (scanSync o paths w)) = new ++ trace w /\
    events_of o looked new /\
    length (filter is_probe new) <= length looked /\
    (forall c, fst (scanSync o paths w) = Some c ->
               exists before, looked = before ++ [c]) /\
    (fst (scanSync o paths w) = None -> rest = []).
Proof.
  revert w. induction paths as [|p paths IH]; intros w.
  - exists [], [], []. simpl. repeat split; auto; try constructor.
    intros c H. discriminate H.
  - rewrite scanSync_step. unfold bind.
    destruct (candidateCheck_events o p w) as (new1 & Ht1 & He1 & Hp1).
    destruct (candidateCheck o p w) as [[|] w1]; simpl in Ht1.
    + exists [p], paths, new1. simpl.
      split; [reflexivity|]. split; [exact Ht1|].
      split; [now apply events_of_one|]. split; [exact Hp1|]. split.
      * intros c [= <-]. now exists [].
      * discriminate.
    + destruct (IH w1) as (looked & rest & new & Hl & Ht & He & Hp & Hc & Hn).
      exists (p :: looked), rest, (new ++ new1).
      split; [simpl; now rewrite Hl|].
      split; [now rewrite Ht, Ht1, app_assoc|]. split; [|split; [|split]].
      * unfold events_of. apply Forall_app. split.
        -- apply (events_of_incl o looked); [|exact He].
           intros x Hx. now right.
        -- apply (events_of_incl o [p]); [|now apply events_of_one].
           intros x [<-|[]]. now left.
      * rewrite filter_app, length_app. simpl. lia.
      * intros c H. destruct (Hc c H) as [before ->].
        now exists (p :: before).
      * exact Hn.
Qed.

(** X18. [locatePathSync] looks no further than it has to and touches
    nothing but its own candidates: the log grows by events that belong
    to the checks of an initial part of the list, which ends with the
    returned candidate when one is returned and is the whole list when
    the result is absent. Each event is a cache access under the key of
    one of these candidates or the stat call on its resolved path, and
    only [true] is written to the positive cache, only [false] to the
    negative one. *)
Theorem locatePathSync_looks_no_further (paths : list string)
    (o : Options) (w : World) :
  exists looked rest new,
    paths = looked ++ rest /\
    trace (snd (locatePathSync paths o w)) = new ++ trace w /\
    events_of o looked new /\
    (forall c, fst (locatePathSync paths o w) = Returned (Some c) ->
               exists before, looked = before ++ [c]) /\
    (fst (locatePathSync paths o w) = Returned None -> rest = []).
Proof.
  unfold locatePathSync. destruct (checkType (type o)).
  - exists [], paths, []. simpl. repeat split; try constructor;
      discriminate.
  - unfold bind, ret.
    destruct (scanSync_events o paths w)
      as (looked & rest & new & Hl & Ht & He & _ & Hc & Hn).
    exists looked, rest, new.
    destruct (scanSync o paths w) as [r w']. simpl in *.
    repeat split; auto.
    + intros c [= ->]. now apply Hc.
    + intros [= ->]. now apply Hn.
Qed.

(** X19. [locatePathSync] calls the stat function at most once for each
    candidate of its list, whatever the caches hold and whatever the
    clock reads, also for a candidate named twice. *)
Theorem locatePathSync_probe_bound (paths : list string) (o : Options)
    (w : World) :
  probe_count (snd (locatePathSync paths o w)) <=
  probe_count w + length paths.
Proof.
  unfold locatePathSync. destruct (checkType (type o)); [simpl; lia|].
  unfold bind, ret.
  destruct (scanSync_events o paths w)
    as (looked & rest & new & Hl & Ht & _ & Hp & _).
  destruct (scanSync o paths w) as [r w']. simpl in *.
  unfold probe_count. rewrite Ht, filter_app, length_app.
  rewrite Hl, length_app. lia.
Qed.

(** X20. A hit in the positive cache is served without a look at the
    filesystem: with caching enabled, when the negative cache does not
    hold the key of the candidate and the positive cache holds it with
    an entry that has not expired, the synchronous locator returns the
    candidate, or passes it over should the entry say [false], and the
    tester of [locatePath] answers with the value of the entry; the
    state afterwards differs by the two lookups, no stat call is
    made and nothing is written. *)
Theorem positive_cache_hit (o : Options) (path_ : string) (e : Entry)
    (w : World) :
  useCache o = true ->
  map_wf (cache (statCache w)) ->
  map_get (keyOf o path_) (cache (negativeCache w)) = None ->
  map_get (keyOf o path_) (cache (statCache w)) = Some e ->
  (now (S (ticks w)) - timestamp e <= ttl (statCache w))%Z ->
  (forall rest,
     scanSync o (path_ :: rest) w =
     (if value e then ret (Some path_) else scanSync o rest)
       (after_positive_hit (keyOf o path_) e
          (after_miss Negative (keyOf o path_) w))) /\
  testerStart o path_ w =
    (Some (value e),
     after_positive_hit (keyOf o path_) e
       (after_miss Negative (keyOf o path_) w)) /\
  probe_count
    (after_positive_hit (keyOf o path_) e
       (after_miss Negative (keyOf o path_) w)) = probe_count w.
Proof.
  intros U W Hn Hs Hx.
  assert (Hc : consult o (keyOf o path_) w =
               (Some (value e),
                after_positive_hit (keyOf o path_) e
                  (after_miss Negative (keyOf o path_) w))).
  { unfold consult, bind. rewrite U, negativeCache_get_eq.
    rewrite (LRU_get_absent _ _ _ Hn). simpl.
    rewrite statCache_get_eq. simpl.
    now rewrite (LRU_get_hit _ _ _ _ W Hs Hx). }
  split; [|split].
  - intros rest. rewrite scanSync_cons. unfold bind. rewrite Hc.
    now destruct (value e).
  - rewrite testerStart_eq. unfold bind. now rewrite Hc.
  - reflexivity.
Qed.

(* ================================================================== *)
(** ** The two caches side by side *)

Lemma keys_of_entries (m m' : JsMap) :
  (forall x, In x m' -> In x m) ->
  forall k, In k (map_keys m') -> In k (map_keys m).
Proof.
  intros H k Hk. apply in_map_iff in Hk. destruct Hk as (x & <- & Hx).
  apply in_map. now apply H.
Qed.

Lemma LRU_get_keys (time : Z) (key : string) (this : LRUCache) (k : string) :
  map_wf (cache this) ->
  In k (map_keys (cache (snd (LRU_get time key this)))) ->
  In k (map_keys (cache this)).
Proof.
  intros W. apply keys_of_entries. intros x. now apply LRU_get_entries.
Qed.

Lemma LRU_set_keys (time : Z) (key : string) (v : bool) (this : LRUCache)
    (k : string) :
  map_wf (cache this) ->
  In k (map_keys (cache (LRU_set time key v this))) ->
  In k (map_keys (cache this)) \/ k = key.
Proof.
  intros W Hk. apply in_map_iff in Hk. destruct Hk as (x & <- & Hx).
  apply LRU_set_entries in Hx; [|exact W].
  destruct Hx as [Hx| ->]; [left; now apply in_map | now right].
Qed.

(** A lookup that answers absent leaves the cache without the key. *)
Lemma LRU_get_miss_gone (time : Z) (key : string) (this : LRUCache) :
  map_wf (cache this) ->
  fst (LRU_get time key this) = None ->
  ~ In key (map_keys (cache (snd (LRU_get time key this)))).
Proof.
  intros W. unfold LRU_get.
  destruct (map_get key (cache this)) as [e|] eqn:E.
  - destruct (time - timestamp e >? ttl this)%Z; simpl; [|discriminate].
    intros _. now apply map_delete_gone.
  - intros _. now apply map_get_none.
Qed.

(** With sound values in the negative cache, a lookup there that does
    not answer [false] has answered absent. *)
Lemma negative_lookup_none (time : Z) (key : string) (w : World) :
  vals_ok w ->
  is_false (fst (LRU_get time key (negativeCache w))) = false ->
  fst (LRU_get time key (negativeCache w)) = None.
Proof.
  intros [_ Vn] H.
  destruct (fst (LRU_get time key (negativeCache w))) as [[|]|] eqn:E;
    [|discriminate|reflexivity].
  apply LRU_get_some in E. destruct E as (e & Hin & Hv & _).
  rewrite (Vn _ _ Hin) in Hv. discriminate.
Qed.

(** After lookups that leave the filesystem to be asked, neither cache
    holds the key. *)
Lemma consult_apart (o : Options) (key : string) (w : World) :
  caches_ok w -> disjoint_caches w ->
  disjoint_caches (snd (consult o key w)) /\
  (useCache o = true -> fst (consult o key w) = None ->
   ~ In key (map_keys (cache (statCache (snd (consult o key w))))) /\
   ~ In key (map_keys (cache (negativeCache (snd (consult o key w)))))).
Proof.
  intros ([Ws Wn] & Hv) Hd. unfold consult.
  destruct (useCache o); [|split; [exact Hd | discriminate]].
  unfold bind. rewrite negativeCache_get_eq.
  destruct (is_false (fst (LRU_get (now (ticks w)) key (negativeCache w))))
    eqn:En.
  - simpl. split; [|discriminate].
    intros k Hs Hk. apply (Hd k Hs). eapply LRU_get_keys; eauto.
  - apply negative_lookup_none in En; [|exact Hv].
    rewrite statCache_get_eq. simpl. split.
    + intros k Hs Hk. apply LRU_get_keys in Hs; [|exact Ws].
      apply LRU_get_keys in Hk; [|exact Wn]. exact (Hd k Hs Hk).
    + intros _ Hnone. split.
      * now apply LRU_get_miss_gone.
      * now apply LRU_get_miss_gone.
Qed.

Lemma record_apart (uc b : bool) (key : string) (w : World) :
  world_wf w -> disjoint_caches w ->
  (uc = true ->
   ~ In key (map_keys (cache (statCache w))) /\
   ~ In key (map_keys (cache (negativeCache w)))) ->
  disjoint_caches
    (snd (when uc (if b then statCache_set key true
                   else negativeCache_set key false) w)).
Proof.
  intros [Ws Wn] Hd Hk. destruct uc; [|exact Hd].
  destruct (Hk eq_refl) as [Hs Hn].
  destruct b; simpl; intros k Hks Hkn; simpl in *.
  - apply LRU_set_keys in Hks; [|exact Ws].
    destruct Hks as [Hks| ->]; [exact (Hd k Hks Hkn) | exact (Hn Hkn)].
  - apply LRU_set_keys in Hkn; [|exact Wn].
    destruct Hkn as [Hkn| ->]; [exact (Hd k Hks Hkn) | exact (Hs Hks)].
Qed.

Lemma candidateCheck_apart (o : Options) (p : string) (w : World) :
  caches_ok w -> disjoint_caches w ->
  disjoint_caches (snd (candidateCheck o p w)).
Proof.
  intros Hok Hd. unfold candidateCheck, bind.
  pose proof (consult_ok o (keyOf o p) w Hok) as Hok1.
  destruct (consult_apart o (keyOf o p) w Hok Hd) as [Hd1 Hk].
  destruct (consult o (keyOf o p) w) as [[b|] w1]; simpl in *;
    [exact Hd1|].
  rewrite checkPathSync_eq. unfold bind, callStat.
  pose proof (record_apart (useCache o)
                (probeMatch (allowSymlinks o) (type o) (resolvePath o p))
                (keyOf o p)
                (mkWorld (statCache w1) (negativeCache w1) (ticks w1)
                   (Probe (allowSymlinks o) (resolvePath o p) :: trace w1))
                (proj1 Hok1) Hd1) as H.
  destruct (when (useCache o) _ _) as [u w2]. simpl in *.
  apply H. intros U. now apply Hk.
Qed.

Lemma scanSync_apart (o : Options) (paths : list string) (w : World) :
  caches_ok w -> disjoint_caches w ->
  disjoint_caches (snd (scanSync o paths w)).
Proof.
  revert w. induction paths as [|p rest IH]; intros w Hok Hd; [exact Hd|].
  rewrite scanSync_step. unfold bind.
  pose proof (candidateCheck_ok o p w Hok) as Hok1.
  pose proof (candidateCheck_apart o p w Hok Hd) as Hd1.
  destruct (candidateCheck o p w) as [[|] w1]; simpl in *; auto.
Qed.

(** X21. The synchronous locator never leaves a key in both caches:
    when no key is held by both before a call of [locatePathSync], none
    is after it, whatever the filesystem and the clock do between
    calls. An outcome is recorded only after both lookups have answered
    absent, which leaves neither cache with the key. *)
Theorem locatePathSync_keeps_caches_apart (paths : list string)
    (o : Options) (w : World) :
  caches_ok w -> disjoint_caches w ->
  disjoint_caches (snd (locatePathSync paths o w)).
Proof.
  intros Hok Hd. unfold locatePathSync.
  destruct (checkType (type o)); [exact Hd|].
  unfold bind, ret. pose proof (scanSync_apart o paths w Hok Hd) as H.
  now destruct (scanSync o paths w).
Qed.

Lemma statCache_get_last (key : string) (b : bool) (w : World) :
  map_wf (cache (statCache w)) ->
  fst (statCache_get key w) = Some b ->
  exists m e,
    cache (statCache (snd (statCache_get key w))) = m ++ [(key, e)] /\
    value e = b.
Proof.
  intros W. rewrite statCache_get_eq. simpl. unfold LRU_get.
  destruct (map_get key (cache (statCache w))) as [e|]; [|discriminate].
  destruct (now (ticks w) - timestamp e >? ttl (statCache w))%Z; simpl;
    [discriminate|].
  intros [= <-]. rewrite map_set_delete by exact W. unfold touched. eauto.
Qed.

Lemma consult_true_last (o : Options) (key : string) (b : bool)
    (w : World) :
  caches_ok w -> fst (consult o key w) = Some b ->
  b = false \/
  exists m e,
    cache (statCache (snd (consult o key w))) = m ++ [(key, e)] /\
    value e = true.
Proof.
  intros ([Ws Wn] & Hv). unfold consult.
  destruct (useCache o); [|discriminate].
  unfold bind. rewrite negativeCache_get_eq.
  destruct (is_false _); simpl; [intros [= <-]; now left|].
  intros H. destruct b; [right|now left].
  now apply statCache_get_last.
Qed.

(** The check of a candidate that answers true leaves the key of the
    candidate last in the positive cache. *)
Lemma candidateCheck_true_last (o : Options) (p : string) (w : World) :
  caches_ok w -> useCache o = true ->
  fst (candidateCheck o p w) = true ->
  exists m e,
    cache (statCache (snd (candidateCheck o p w))) =
      m ++ [(keyOf o p, e)] /\
    value e = true.
Proof.
  intros Hok U. unfold candidateCheck, bind.
  pose proof (consult_ok o (keyOf o p) w Hok) as Hok1.
  pose proof (fun b => consult_true_last o (keyOf o p) b w Hok) as Hl.
  destruct (consult o (keyOf o p) w) as [[b|] w1]; simpl in *.
  - intros ->. destruct (Hl true eq_refl) as [H|H];
      [discriminate | exact H].
  - rewrite checkPathSync_eq. unfold bind, callStat. rewrite U. simpl.
    destruct (probeMatch _ _ _); simpl; [intros _|discriminate].
    destruct Hok1 as [[W _] _].
    exists (set_base (keyOf o p) (statCache w1)),
           (mkEntry true (now (ticks w1))).
    split; [|reflexivity].
    exact (LRU_set_cache (now (ticks w1)) (keyOf o p) true (statCache w1) W).
Qed.

(** X22. With caching enabled, the candidate that [locatePathSync]
    returns is held by the positive cache afterwards, with the value
    [true], as the most recently used entry: the last in iteration
    order and so the last to be evicted. *)
Theorem returned_candidate_is_cached (paths : list string) (o : Options)
    (c : string) (w : World) :
  caches_ok w -> useCache o = true ->
  fst (locatePathSync paths o w) = Returned (Some c) ->
  exists m e,
    cache (statCache (snd (locatePathSync paths o w))) =
      m ++ [(keyOf o c, e)] /\
    value e = true.
Proof.
  intros Hok U. unfold locatePathSync.
  destruct (checkType (type o)); [discriminate|].
  unfold bind, ret.
  assert (H : fst (scanSync o paths w) = Some c ->
              exists m e,
                cache (statCache (snd (scanSync o paths w))) =
                  m ++ [(keyOf o c, e)] /\ value e = true).
  { clear - Hok U. revert w Hok.
    induction paths as [|p rest IH]; intros w Hok; [discriminate|].
    rewrite scanSync_step. unfold bind.
    pose proof (candidateCheck_ok o p w Hok) as Hok1.
    pose proof (candidateCheck_true_last o p w Hok U) as Hl.
    destruct (candidateCheck o p w) as [[|] w1]; simpl in *.
    - intros [= <-]. now apply Hl.
    - now apply IH. }
  destruct (scanSync o paths w) as [r w']. simpl in *.
  intros [= ->]. now apply H.
Qed.

(* ================================================================== *)
(** ** Entries that have outlived the TTL *)

Lemma sound_entries_later (truth : bool) (this this' : LRUCache)
    (n n' : nat) :
  n <= n' -> ttl this' = ttl this ->
  (forall x, In x (cache this') -> In x (cache this)) ->
  sound_entries truth this n -> sound_entries truth this' n'.
Proof.
  intros Hn Ht Hsub H key e Hin.
  destruct (H key e (Hsub _ Hin)) as [Hl|Hs]; [left|now right].
  intros m Hm. unfold lapsed in Hl. rewrite Ht. apply Hl. lia.
Qed.

Lemma sound_entries_get (truth : bool) (this : LRUCache) (n n' : nat)
    (time : Z) (key : string) :
  map_wf (cache this) -> n <= n' ->
  sound_entries truth this n ->
  sound_entries truth (snd (LRU_get time key this)) n'.
Proof.
  intros W Hn. apply sound_entries_later; [exact Hn | |].
  - apply LRU_get_config.
  - intros x. now apply LRU_get_entries.
Qed.

Lemma sound_entries_set (truth : bool) (this : LRUCache) (n n' : nat)
    (time : Z) (r t : string) (a : bool) :
  map_wf (cache this) -> n <= n' ->
  valid_type t -> probeMatch a t r = truth ->
  sound_entries truth this n ->
  sound_entries truth (LRU_set time (cacheKey r t a) truth this) n'.
Proof.
  intros W Hn V Hm H key e Hin.
  apply LRU_set_entries in Hin; [|exact W].
  destruct Hin as [Hin|[= -> ->]].
  - destruct (H key e Hin) as [Hl|Hs]; [left|now right].
    intros m Hm'. apply Hl. lia.
  - right. split; [reflexivity|]. intros r' t' a' V' Hk.
    destruct (cacheKey_inj _ _ _ _ _ _ V V' Hk) as (<- & <- & <-).
    exact Hm.
Qed.

(** What a lookup answers from such a cache is what a probe would
    say. *)
Lemma sound_entries_answer (truth : bool) (this : LRUCache) (n : nat)
    (r t : string) (a v : bool) :
  sound_entries truth this n -> valid_type t ->
  fst (LRU_get (now n) (cacheKey r t a) this) = Some v ->
  v = truth /\ probeMatch a t r = truth.
Proof.
  intros H V Hg. apply LRU_get_some in Hg.
  destruct Hg as (e & Hin & <- & Hx).
  destruct (H _ _ Hin) as [Hl|[Hv Hp]].
  - specialize (Hl n (le_n n)). lia.
  - split; [exact Hv | now apply Hp].
Qed.

Lemma consult_trustworthy (o : Options) (r : string) (w : World) :
  trustworthy w -> valid_type (type o) ->
  trustworthy (snd (consult o (cacheKey r (type o) (allowSymlinks o)) w)) /\
  forall b,
    fst (consult o (cacheKey r (type o) (allowSymlinks o)) w) = Some b ->
    b = probeMatch (allowSymlinks o) (type o) r.
Proof.
  intros ([Ws Wn] & Hs & Hn) V. unfold consult.
  destruct (useCache o).
  2:{ split; [repeat split; assumption | discriminate]. }
  unfold bind. rewrite negativeCache_get_eq.
  assert (H1 : trustworthy
                 (mkWorld (statCache w)
                    (snd (LRU_get (now (ticks w))
                            (cacheKey r (type o) (allowSymlinks o))
                            (negativeCache w)))
                    (S (ticks w))
                    (CacheGet Negative
                       (cacheKey r (type o) (allowSymlinks o)) :: trace w))).
  { split; [split; simpl; [exact Ws | now apply LRU_get_wf]|].
    split; simpl.
    - apply (sound_entries_later true (statCache w) _ (ticks w)); auto.
    - apply (sound_entries_get false _ (ticks w)); auto. }
  destruct (fst (LRU_get (now (ticks w))
                   (cacheKey r (type o) (allowSymlinks o))
                   (negativeCache w))) as [[|]|] eqn:E; simpl.
  2:{ split; [exact H1|]. intros b [= <-].
      destruct (sound_entries_answer false _ _ _ _ _ _ Hn V E) as [_ Hp].
      now rewrite Hp. }
  all: rewrite statCache_get_eq; simpl; split;
    [ split; [split; simpl; [now apply LRU_get_wf | now apply LRU_get_wf]|];
      split; simpl;
      [ apply (sound_entries_get true _ (ticks w)); auto
      | apply (sound_entries_get false _ (ticks w)); auto ]
    | intros b Hb;
      destruct H1 as (_ & Hs1 & _); simpl in Hs1;
      destruct (sound_entries_answer true _ _ _ _ _ _ Hs1 V Hb)
        as [-> Hp]; now rewrite Hp ].
Qed.

Lemma record_trustworthy (o : Options) (r : string) (w : World) :
  trustworthy w -> valid_type (type o) ->
  trustworthy
    (snd (when (useCache o)
            (if probeMatch (allowSymlinks o) (type o) r
             then statCache_set (cacheKey r (type o) (allowSymlinks o)) true
             else negativeCache_set
                    (cacheKey r (type o) (allowSymlinks o)) false) w)).
Proof.
  intros ([Ws Wn] & Hs & Hn) V. unfold when.
  destruct (useCache o); [|repeat split; assumption].
  destruct (probeMatch (allowSymlinks o) (type o) r) eqn:E; simpl.
  - split; [split; simpl; [now apply LRU_set_wf | exact Wn]|].
    split; simpl.
    + apply (sound_entries_set true _ (ticks w)); auto.
    + apply (sound_entries_later false (negativeCache w) _ (ticks w)); auto.
  - split; [split; simpl; [exact Ws | now apply LRU_set_wf]|].
    split; simpl.
    + apply (sound_entries_later true (statCache w) _ (ticks w)); auto.
    + apply (sound_entries_set false _ (ticks w)); auto.
Qed.

Lemma candidateCheck_trustworthy (o : Options) (p : string) (w : World) :
  trustworthy w -> valid_type (type o) ->
  trustworthy (snd (candidateCheck o p w)) /\
  fst (candidateCheck o p w) = matches o p.
Proof.
  intros H V. unfold candidateCheck, bind, keyOf.
  destruct (consult_trustworthy o (resolvePath o p) w H V) as [H1 Hb].
  destruct (consult o _ w) as [[b|] w1]; simpl in *.
  - split; [exact H1|]. now apply Hb.
  - rewrite checkPathSync_eq. unfold bind, callStat, ret.
    pose proof (record_trustworthy o (resolvePath o p)
                  (mkWorld (statCache w1) (negativeCache w1) (ticks w1)
                     (Probe (allowSymlinks o) (resolvePath o p)
                        :: trace w1)) H1 V) as H2.
    destruct (when (useCache o) _ _) as [u w2]. split; [exact H2|].
    reflexivity.
Qed.

Lemma scanSync_trustworthy (o : Options) (paths : list string)
    (w : World) :
  trustworthy w -> valid_type (type o) ->
  trustworthy (snd (scanSync o paths w)) /\
  fst (scanSync o paths w) = find (matches o) paths.
Proof.
  intros H V. revert w H. induction paths as [|p rest IH]; intros w H.
  - split; [exact H | reflexivity].
  - rewrite scanSync_step. unfold bind. simpl find.
    destruct (candidateCheck_trustworthy o p w H V) as [H1 Hb].
    destruct (candidateCheck o p w) as [b w1]. simpl in *. subst b.
    destruct (matches o p); [split; [exact H1 | reflexivity]|].
    now apply IH.
Qed.

(** X23. The TTL bounds how long a wrong entry can mislead: when every
    entry of the two caches either agrees with the filesystem or is
    older than the TTL at every clock reading from now on,
    [locatePathSync] returns the first candidate that matches on the
    filesystem, and leaves the caches in such a state again. Entries
    that have outlived the TTL are never served, whatever they say. *)
Theorem lapsed_entries_do_not_mislead (paths : list string) (o : Options)
    (w : World) :
  valid_type (type o) -> trustworthy w ->
  fst (locatePathSync paths o w) = Returned (find (matches o) paths) /\
  trustworthy (snd (locatePathSync paths o w)).
Proof.
  intros V Hw. unfold locatePathSync. rewrite (checkType_valid _ V).
  unfold bind, ret.
  destruct (scanSync_trustworthy o paths w Hw V) as [H1 H2].
  destruct (scanSync o paths w) as [r w']. simpl in *. now subst r.
Qed.

(* ================================================================== *)
(** ** Checks under way *)

Lemma consult_none_gone (o : Options) (key : string) (w : World) :
  caches_ok w -> useCache o = true -> fst (consult o key w) = None ->
  ~ In key (map_keys (cache (statCache (snd (consult o key w))))) /\
  ~ In key (map_keys (cache (negativeCache (snd (consult o key w))))).
Proof.
  intros ([Ws Wn] & Hv) U. unfold consult. rewrite U.
  unfold bind. rewrite negativeCache_get_eq.
  destruct (is_false (fst (LRU_get (now (ticks w)) key (negativeCache w))))
    eqn:En; [discriminate|].
  apply negative_lookup_none in En; [|exact Hv].
  rewrite statCache_get_eq. simpl. intros Hnone.
  split; now apply LRU_get_miss_gone.
Qed.

Lemma consult_absent (o : Options) (key : string) (w : World) :
  useCache o = true ->
  ~ In key (map_keys (cache (statCache w))) ->
  ~ In key (map_keys (cache (negativeCache w))) ->
  consult o key w =
  (None, mkWorld (statCache w) (negativeCache w) (S (S (ticks w)))
           (CacheGet Positive key :: CacheGet Negative key :: trace w)).
Proof.
  intros U Hs Hn. unfold consult. rewrite U. unfold bind.
  rewrite negativeCache_get_eq.
  rewrite LRU_get_absent by (now apply map_get_none). simpl.
  rewrite statCache_get_eq. simpl.
  rewrite LRU_get_absent by (now apply map_get_none). reflexivity.
Qed.

(** X24. Checks under way are not shared: when the tester of
    [locatePath] has called the stat function for a candidate and
    waits, a second check of the same candidate started in the
    meantime finds nothing in the caches, which are written only when a
    stat call is back, and calls the stat function again. *)
Theorem pending_check_is_not_shared (o : Options) (p : string)
    (w : World) :
  caches_ok w -> fst (testerStart o p w) = None ->
  fst (testerStart o p (snd (testerStart o p w))) = None /\
  probe_count (snd (testerStart o p (snd (testerStart o p w)))) =
    2 + probe_count w.
Proof.
  intros Hok. destruct (useCache o) eqn:U.
  2:{ intros _. rewrite !testerStart_nocache by exact U.
      split; reflexivity. }
  rewrite (testerStart_eq o p w). unfold bind.
  pose proof (consult_none_gone o (keyOf o p) w Hok U) as Hg.
  assert (Ht : exists new,
             trace (snd (consult o (keyOf o p) w)) = new ++ trace w /\
             filter is_probe new = []).
  { unfold consult. rewrite U. unfold bind. rewrite negativeCache_get_eq.
    destruct (is_false _); simpl.
    - now exists [CacheGet Negative (keyOf o p)].
    - rewrite statCache_get_eq. simpl.
      now exists [CacheGet Positive (keyOf o p);
                  CacheGet Negative (keyOf o p)]. }
  destruct (consult o (keyOf o p) w) as [[b|] w1]; simpl in *;
    [discriminate|].
  intros _. destruct (Hg eq_refl) as [Hs Hn].
  destruct Ht as (new & Ht & Hf).
  rewrite testerStart_eq. unfold bind, callStat.
  rewrite consult_absent by (simpl; assumption). simpl.
  split; [reflexivity|].
  unfold probe_count. simpl. rewrite Ht, filter_app, Hf. reflexivity.
Qed.

(* ================================================================== *)
(** ** The capacity of the global caches *)

Lemma apply_op_capacity (op : CacheOp) (this : LRUCache) :
  cache_ok this -> maxSize this = 500 -> ttl this = 5000%Z ->
  cache_ok (apply_op op this) /\ maxSize (apply_op op this) = 500 /\
  ttl (apply_op op this) = 5000%Z.
Proof.
  intros Hok Hm Ht. destruct (apply_op_ok op this Hok) as [Hok' Hm'].
  split; [exact Hok'|]. split; [congruence|].
  destruct op as [time k|time k v|]; simpl; [|exact Ht|exact Ht].
  destruct (LRU_get_config time k this) as [_ E]. congruence.
Qed.

Lemma statCache_op_capacity (op : CacheOp) (w : World) (n : nat)
    (tr : list Event) :
  within_capacity w ->
  within_capacity (mkWorld (apply_op op (statCache w)) (negativeCache w)
                     n tr).
Proof.
  intros (Hs & Hn & (M1 & M2 & T1 & T2)).
  destruct (apply_op_capacity op _ Hs M1 T1) as (Hs' & M1' & T1').
  repeat split; simpl; try apply Hs'; try apply Hn; assumption.
Qed.

Lemma negativeCache_op_capacity (op : CacheOp) (w : World) (n : nat)
    (tr : list Event) :
  within_capacity w ->
  within_capacity (mkWorld (statCache w) (apply_op op (negativeCache w))
                     n tr).
Proof.
  intros (Hs & Hn & (M1 & M2 & T1 & T2)).
  destruct (apply_op_capacity op _ Hn M2 T2) as (Hn' & M2' & T2').
  repeat split; simpl; try apply Hs; try apply Hn'; assumption.
Qed.

Lemma consult_capacity (o : Options) (key : string) (w : World) :
  within_capacity w -> within_capacity (snd (consult o key w)).
Proof.
  intros H. unfold consult. destruct (useCache o); [|exact H].
  unfold bind. rewrite negativeCache_get_eq.
  pose proof (negativeCache_op_capacity (OpGet (now (ticks w)) key) w
                (S (ticks w)) (CacheGet Negative key :: trace w) H) as H1.
  simpl in H1. destruct (is_false _); [exact H1|].
  rewrite statCache_get_eq.
  exact (statCache_op_capacity (OpGet _ key) _ _ _ H1).
Qed.

Lemma record_capacity (uc b : bool) (key : string) (w : World) :
  within_capacity w ->
  within_capacity (snd (when uc (if b then statCache_set key true
                                 else negativeCache_set key false) w)).
Proof.
  intros H. destruct uc; [|exact H]. destruct b; simpl.
  - exact (statCache_op_capacity (OpSet _ key true) _ _ _ H).
  - exact (negativeCache_op_capacity (OpSet _ key false) _ _ _ H).
Qed.

Lemma candidateCheck_capacity (o : Options) (p : string) (w : World) :
  within_capacity w -> within_capacity (snd (candidateCheck o p w)).
Proof.
  intros H. unfold candidateCheck, bind.
  pose proof (consult_capacity o (keyOf o p) w H) as H1.
  destruct (consult o (keyOf o p) w) as [[b|] w1]; simpl in *;
    [exact H1|].
  rewrite checkPathSync_eq. unfold bind, callStat.
  pose proof (record_capacity (useCache o)
                (probeMatch (allowSymlinks o) (type o) (resolvePath o p))
                (keyOf o p)
                (mkWorld (statCache w1) (negativeCache w1) (ticks w1)
                   (Probe (allowSymlinks o) (resolvePath o p) :: trace w1))
                H1) as H2.
  now destruct (when (useCache o) _ _).
Qed.

Lemma scanSync_capacity (o : Options) (paths : list string) (w : World) :
  within_capacity w -> within_capacity (snd (scanSync o paths w)).
Proof.
  revert w. induction paths as [|p rest IH]; intros w H; [exact H|].
  rewrite scanSync_step. unfold bind.
  pose proof (candidateCheck_capacity o p w H) as H1.
  destruct (candidateCheck o p w) as [[|] w1]; simpl in *; auto.
Qed.

(** X25. The global caches stay as the module created them: from a
    state in which each holds at most its 500 entries under distinct
    keys, a call of [locatePathSync], and each half of a check of
    [locatePath], leaves each cache with at most 500 entries, and with
    its capacity and TTL unchanged. The state in which the module is
    loaded is such a state. *)
Theorem caches_stay_within_capacity (paths : list string) (o : Options)
    (p : string) (w : World) :
  within_capacity w ->
  (within_capacity (snd (locatePathSync paths o w)) /\
   map_size (cache (statCache (snd (locatePathSync paths o w)))) <= 500 /\
   map_size (cache (negativeCache (snd (locatePathSync paths o w))))
     <= 500) /\
  within_capacity (snd (testerStart o p w)) /\
  within_capacity (snd (testerFinish o p w)) /\
  within_capacity initialWorld.
Proof.
  intros H. split; [|split; [|split]].
  - assert (H1 : within_capacity (snd (locatePathSync paths o w))).
    { unfold locatePathSync. destruct (checkType (type o)); [exact H|].
      unfold bind, ret. pose proof (scanSync_capacity o paths w H) as H1.
      now destruct (scanSync o paths w). }
    split; [exact H1|].
    destruct H1 as ((_ & _ & Hs) & (_ & _ & Hn) & (M1 & M2 & _)).
    rewrite M1 in Hs. rewrite M2 in Hn. auto.
  - rewrite testerStart_eq. unfold bind.
    pose proof (consult_capacity o (keyOf o p) w H) as H1.
    now destruct (consult o (keyOf o p) w) as [[b|] w1].
  - rewrite testerFinish_eq. unfold bind.
    pose proof (record_capacity (useCache o) (matches o p) (keyOf o p) w H)
      as H1.
    now destruct (when (useCache o) _ w).
  - unfold within_capacity, configured. simpl.
    split; [apply newLRUCache_ok; lia|].
    split; [apply newLRUCache_ok; lia|]. auto.
Qed.

End Program.

(* ================================================================== *)
(** ** The two locators compared *)

(** C1, as amended. With [preserveOrder] true (the default) and caches
    that agree with the filesystem, [locatePath] resolves to the first
    candidate in list order that matches on the filesystem, absent when
    none matches, and that is what [locatePathSync] returns for the same
    list and options: whatever the concurrency bound, whatever the order
    in which the scheduler lets the checks go on, whatever other calls
    are under way and whatever the two clocks read. *)
Theorem locatePath_lowest_index_match
    (isAbsolute : string -> bool) (resolve : string -> string -> string)
    (stat lstat : string -> StatResult) (now_async now_sync : nat -> Z)
    (sched : list nat) (paths : list string) (o : Options)
    (pool : list Task) (w : World) :
  valid_type (type o) -> preserve o = true ->
  coherent stat lstat w -> Forall call_ok pool ->
  fst (fst (locatePath isAbsolute resolve stat lstat now_async sched
              paths o pool w)) =
    Some (Returned (find (matches isAbsolute resolve stat lstat o) paths)) /\
  fst (locatePathSync isAbsolute resolve stat lstat now_sync paths o w) =
    Returned (find (matches isAbsolute resolve stat lstat o) paths).
Proof.
  intros V Hpre Hw Hp. split.
  - destruct (locatePath_coherent isAbsolute resolve stat lstat now_async
                sched paths o pool w V Hw Hp)
      as (_ & _ & v & Hv & Hf & _).
    rewrite Hv. now rewrite (Hf Hpre).
  - now apply locatePathSync_coherent.
Qed.

(* ================================================================== *)
(** ** Examples *)

Ltac distinct_keys :=
  unfold map_wf; simpl;
  repeat (constructor; [simpl; intuition discriminate|]); constructor.

Lemma locatePath_lowest_index_match_witness :
  (valid_type (type demo_options) /\ preserve demo_options = true /\
   coherent demo_stat demo_stat initialWorld /\ Forall call_ok []) /\
  fst (fst (locatePath demo_isAbsolute demo_resolve demo_stat demo_stat
              frozen_clock [] ["absent.txt"; "exists.txt"] demo_options
              [] initialWorld)) =
  Some (Returned (Some "exists.txt")).
Proof.
  assert (V : valid_type (type demo_options)) by (left; reflexivity).
  pose proof (initialWorld_coherent demo_stat demo_stat) as Hw.
  split;
    [split; [exact V | split; [reflexivity | split; [exact Hw|constructor]]]|].
  exact (proj1 (locatePath_lowest_index_match demo_isAbsolute
                  demo_resolve demo_stat demo_stat frozen_clock
                  late_clock [] ["absent.txt"; "exists.txt"] demo_options
                  [] initialWorld V eq_refl Hw (Forall_nil _))).
Defined.

(** Where C1 fails as stated: the negative cache is full and its least
    recently used entry is a stale one for the second candidate. The
    synchronous scan records the first candidate, which evicts that
    entry, probes the second and returns it; the asynchronous locator
    has looked the second up before the first probe is back and
    resolves to absent; bounded to one check at a time it resolves to
    the second candidate. *)
Lemma stale_entry_divides_locators :
  map_size (cache (negativeCache stale_world)) = 500 /\
  fst (locatePathSync demo_isAbsolute demo_resolve demo_stat demo_stat
         frozen_clock ["absent.txt"; "exists.txt"] demo_options
         stale_world) =
    Returned (Some "exists.txt") /\
  fst (fst (locatePath demo_isAbsolute demo_resolve demo_stat demo_stat
              frozen_clock [] ["absent.txt"; "exists.txt"] demo_options
              [] stale_world)) =
    Some (Returned None) /\
  fst (fst (locatePath demo_isAbsolute demo_resolve demo_stat demo_stat
              frozen_clock [] ["absent.txt"; "exists.txt"]
              (mkOptions "/w" "file" true (Some 1%positive) None true)
              [] stale_world)) =
    Some (Returned (Some "exists.txt")).
Proof. vm_compute. repeat split. Qed.


Lemma LRU_set_spec_witness :
  map_wf (cache demo_cache) /\
  cache (LRU_set 20 "a" true demo_cache) =
    [("b", mkEntry false 10); ("a", mkEntry true 20)] /\
  (exists lru rest,
     cache demo_cache = lru :: rest /\
     cache (LRU_set 20 "c" true demo_cache) =
       rest ++ [("c", mkEntry true 20)] /\
     map_size (cache (LRU_set 20 "c" true demo_cache)) =
       maxSize demo_cache).
Proof.
  assert (W : map_wf (cache demo_cache)) by distinct_keys.
  split; [exact W|]. split.
  - exact (proj1 (proj1 (LRU_set_spec 20 "a" true demo_cache W) eq_refl)).
  - apply (proj1 (proj2 (LRU_set_spec 20 "c" true demo_cache W)));
      [reflexivity | reflexivity | simpl; lia].
Defined.

Lemma LRU_get_spec_witness :
  map_wf (cache demo_cache) /\
  LRU_get 20 "a" demo_cache =
    (Some true,
     with_cache demo_cache
       [("b", mkEntry false 10); ("a", mkEntry true 0)]) /\
  LRU_get 6000 "a" demo_cache =
    (None, with_cache demo_cache [("b", mkEntry false 10)]) /\
  LRU_get 20 "c" demo_cache = (None, demo_cache).
Proof.
  assert (W : map_wf (cache demo_cache)) by distinct_keys.
  split; [exact W|]. split; [|split].
  - apply (proj2 (proj2 (LRU_get_spec 20 "a" demo_cache W))
             (mkEntry true 0)); [reflexivity | simpl; lia].
  - apply (proj1 (proj2 (LRU_get_spec 6000 "a" demo_cache W))
             (mkEntry true 0)); [reflexivity | simpl; lia].
  - apply (proj1 (LRU_get_spec 20 "c" demo_cache W)). reflexivity.
Defined.

Lemma invalid_type_fails_witness :
  ~ valid_type "bogus" /\
  locatePathSync demo_isAbsolute demo_resolve demo_stat demo_stat
    frozen_clock ["exists.txt"]
    (mkOptions "/w" "bogus" true None None true) initialWorld =
  (Threw "Invalid type specified: bogus", initialWorld) /\
  locatePath demo_isAbsolute demo_resolve demo_stat demo_stat
    frozen_clock [] ["exists.txt"]
    (mkOptions "/w" "bogus" true None None true) [] initialWorld =
  (Some (Threw "Invalid type specified: bogus"), [], initialWorld).
Proof.
  assert (H : ~ valid_type "bogus")
    by (intros [H|[H|H]]; discriminate H).
  split; [exact H|].
  exact (invalid_type_fails demo_isAbsolute demo_resolve demo_stat
           demo_stat frozen_clock [] ["exists.txt"]
           (mkOptions "/w" "bogus" true None None true) [] initialWorld H).
Defined.

Lemma failed_probe_is_non_match_witness :
  (valid_type (type demo_options) /\
   (statFunction demo_stat demo_stat (allowSymlinks demo_options)
      (resolvePath demo_isAbsolute demo_resolve demo_options "locked") =
    NoEntry \/
    statFunction demo_stat demo_stat (allowSymlinks demo_options)
      (resolvePath demo_isAbsolute demo_resolve demo_options "locked") =
    Failure)) /\
  fst (testerFinish demo_isAbsolute demo_resolve demo_stat demo_stat
         frozen_clock demo_options "locked" initialWorld) = false.
Proof.
  assert (V : valid_type (type demo_options)) by (left; reflexivity).
  assert (F : statFunction demo_stat demo_stat (allowSymlinks demo_options)
                (resolvePath demo_isAbsolute demo_resolve demo_options
                   "locked") = NoEntry \/
              statFunction demo_stat demo_stat (allowSymlinks demo_options)
                (resolvePath demo_isAbsolute demo_resolve demo_options
                   "locked") = Failure)
    by (right; reflexivity).
  split; [split; [exact V | exact F]|].
  exact (proj1 (proj1 (proj2 (failed_probe_is_non_match demo_isAbsolute
                                demo_resolve demo_stat demo_stat
                                frozen_clock demo_options "locked" V F))
                  initialWorld)).
Defined.

Lemma cacheKey_distinguishes_witness :
  (valid_type "file" /\ valid_type "directory") /\
  cacheKey "/w/dir" "file" true = "/w/dir:file:true" /\
  cacheKey "/w/dir" "file" true <> cacheKey "/w/dir" "directory" true.
Proof.
  assert (V1 : valid_type "file") by (left; reflexivity).
  assert (V2 : valid_type "directory") by (right; left; reflexivity).
  split; [split; assumption|].
  destruct (cacheKey_distinguishes "/w/dir" "file" true "/w/dir"
              "directory" true V1 V2) as [E [Hinj _]].
  split; [exact E|].
  intros H. destruct (Hinj H) as (_ & Ht & _). discriminate Ht.
Defined.



Lemma no_cache_no_access_witness :
  (valid_type "file" /\
   useCache (mkOptions "/w" "file" true None None false) = false) /\
  fst (locatePathSync demo_isAbsolute demo_resolve demo_stat demo_stat
         frozen_clock ["absent.txt"; "exists.txt"]
         (mkOptions "/w" "file" true None None false) stale_world) =
    Returned (Some "exists.txt") /\
  same_caches stale_world
    (snd (locatePathSync demo_isAbsolute demo_resolve demo_stat demo_stat
            frozen_clock ["absent.txt"; "exists.txt"]
            (mkOptions "/w" "file" true None None false) stale_world)).
Proof.
  assert (V : valid_type "file") by (left; reflexivity).
  split; [split; [exact V | reflexivity]|].
  exact (proj1 (no_cache_no_access demo_isAbsolute demo_resolve demo_stat
                  demo_stat frozen_clock [] ["absent.txt"; "exists.txt"]
                  (mkOptions "/w" "file" true None None false) []
                  stale_world V eq_refl)).
Defined.

Lemma negative_cache_first_witness :
  (useCache demo_options = true /\
   map_wf (cache (negativeCache overlap_world)) /\
   map_get (keyOf demo_isAbsolute demo_resolve demo_options "exists.txt")
     (cache (negativeCache overlap_world)) = Some (mkEntry false 0) /\
   (frozen_clock (ticks overlap_world) - 0 <=
    ttl (negativeCache overlap_world))%Z) /\
  testerStart demo_isAbsolute demo_resolve demo_stat demo_stat
    frozen_clock demo_options "exists.txt" overlap_world =
  (Some false,
   after_negative_hit
     (keyOf demo_isAbsolute demo_resolve demo_options "exists.txt")
     (mkEntry false 0) overlap_world).
Proof.
  assert (W : map_wf (cache (negativeCache overlap_world)))
    by distinct_keys.
  assert (Hx : (frozen_clock (ticks overlap_world) - 0 <=
                ttl (negativeCache overlap_world))%Z)
    by (vm_compute; discriminate).
  split; [split; [reflexivity | split; [exact W | split;
                                         [reflexivity | exact Hx]]]|].
  exact (proj1 (proj2 (negative_cache_first demo_isAbsolute demo_resolve
                         demo_stat demo_stat frozen_clock demo_options
                         "exists.txt" (mkEntry false 0) overlap_world
                         eq_refl W eq_refl eq_refl Hx))).
Defined.

(** Where C10 fails as stated: the key of the candidate is held by both
    caches, and the entry of the negative cache is older than the TTL.
    Its lookup deletes it, the positive cache is read, and both locators
    take the candidate for a match. *)
Lemma expired_negative_entry_is_passed :
  map_has (demo_key "/w/exists.txt")
    (cache (negativeCache overlap_world)) = true /\
  map_has (demo_key "/w/exists.txt")
    (cache (statCache overlap_world)) = true /\
  fst (locatePathSync demo_isAbsolute demo_resolve demo_stat demo_stat
         late_clock ["exists.txt"] demo_options overlap_world) =
    Returned (Some "exists.txt") /\
  trace (snd (locatePathSync demo_isAbsolute demo_resolve demo_stat
                demo_stat late_clock ["exists.txt"] demo_options
                overlap_world)) =
    [CacheGet Positive (demo_key "/w/exists.txt");
     CacheGet Negative (demo_key "/w/exists.txt")] /\
  fst (fst (locatePath demo_isAbsolute demo_resolve demo_stat demo_stat
              late_clock [] ["exists.txt"] demo_options [] overlap_world)) =
    Some (Returned (Some "exists.txt")).
Proof. vm_compute. repeat split. Qed.

(* ================================================================== *)
(** ** The stat function of a call *)

(** X26. A call looks at the filesystem through one stat function only,
    the one its [allowSymlinks] option selects: two filesystems on which
    that function answers alike give the same result and the same
    effects, for [locatePathSync] and for both halves of the tester of
    [locatePath]. With [allowSymlinks] true what [lstat] would answer
    does not matter, and with [allowSymlinks] false what [stat] would
    answer does not. *)
Theorem symlink_flag_selects_stat
    (isAbsolute : string -> bool) (resolve : string -> string -> string)
    (stat lstat stat' lstat' : string -> StatResult) (now : nat -> Z)
    (paths : list string) (o : Options) (w : World) :
  (forall p, statFunction stat lstat (allowSymlinks o) p =
             statFunction stat' lstat' (allowSymlinks o) p) ->
  locatePathSync isAbsolute resolve stat lstat now paths o w =
  locatePathSync isAbsolute resolve stat' lstat' now paths o w /\
  forall p w',
    testerStart isAbsolute resolve stat lstat now o p w' =
    testerStart isAbsolute resolve stat' lstat' now o p w' /\
    testerFinish isAbsolute resolve stat lstat now o p w' =
    testerFinish isAbsolute resolve stat' lstat' now o p w'.
Proof.
  intros H.
  assert (Hc : forall r key uc w0,
    checkPathSync stat lstat now r key (type o) (allowSymlinks o) uc w0 =
    checkPathSync stat' lstat' now r key (type o) (allowSymlinks o) uc w0).
  { intros r key uc w0. unfold checkPathSync, bind, callStat.
    now rewrite H. }
  split.
  - unfold locatePathSync. destruct (checkType (type o)); [reflexivity|].
    unfold bind. f_equal.
    revert w. induction paths as [|p rest IH]; intros w; [reflexivity|].
    simpl. unfold bind.
    destruct (if useCache o then _ else _) as [neg w1].
    destruct (is_false neg); [apply IH|].
    destruct (if useCache o then _ else _) as [[[|]|] w2];
      [reflexivity | apply IH |].
    rewrite Hc.
    destruct (checkPathSync _ _ _ _ _ _ _ _ w2) as [[|] w3];
      [reflexivity | apply IH].
  - intros p w'. split.
    + unfold testerStart, bind, callStat. reflexivity.
    + unfold testerFinish. now rewrite H.
Qed.

(* ================================================================== *)
(** ** Further examples *)

Lemma LRU_get_frame_witness :
  (map_wf (cache demo_cache) /\ "b" <> "a") /\
  map_get "b" (cache (snd (LRU_get 20 "a" demo_cache))) =
    Some (mkEntry false 10) /\
  map_delete "a" (cache (snd (LRU_get 20 "a" demo_cache))) =
    [("b", mkEntry false 10)].
Proof.
  assert (W : map_wf (cache demo_cache)) by distinct_keys.
  assert (N : "b" <> "a") by discriminate.
  split; [split; assumption|].
  exact (LRU_get_frame 20 "a" "b" demo_cache W N).
Defined.

Lemma LRU_set_frame_witness :
  (map_wf (cache demo_cache) /\ "a" <> "c" /\ "b" <> "c") /\
  map_get "a" (cache (LRU_set 20 "c" true demo_cache)) = None /\
  map_get "b" (cache (LRU_set 20 "c" true demo_cache)) =
    Some (mkEntry false 10).
Proof.
  assert (W : map_wf (cache demo_cache)) by distinct_keys.
  assert (Na : "a" <> "c") by discriminate.
  assert (Nb : "b" <> "c") by discriminate.
  split; [split; [exact W | split; assumption]|]. split.
  - exact (LRU_set_frame 20 "c" "a" true demo_cache W Na).
  - exact (LRU_set_frame 20 "c" "b" true demo_cache W Nb).
Defined.

Lemma LRU_set_overwrites_witness :
  map_wf (cache demo_cache) /\
  LRU_set 30 "c" false (LRU_set 20 "c" true demo_cache) =
  LRU_set 30 "c" false demo_cache.
Proof.
  assert (W : map_wf (cache demo_cache)) by distinct_keys.
  split; [exact W|].
  exact (LRU_set_overwrites 20 30 "c" true false demo_cache W).
Defined.

Lemma LRU_get_again_witness :
  map_wf (cache demo_cache) /\
  LRU_get 20 "a" (snd (LRU_get 20 "a" demo_cache)) =
  LRU_get 20 "a" demo_cache.
Proof.
  assert (W : map_wf (cache demo_cache)) by distinct_keys.
  split; [exact W|].
  exact (LRU_get_again 20 "a" demo_cache W).
Defined.

Lemma recently_set_entry_is_kept_witness :
  (map_wf (cache roomy_cache) /\
   Forall (on_other_key "c") later_calls /\
   length (nodup string_dec ("c" :: op_keys later_calls)) <=
   maxSize roomy_cache) /\
  map_get "c"
    (cache (apply_ops later_calls (LRU_set 20 "c" true roomy_cache))) =
  Some (mkEntry true 20).
Proof.
  assert (W : map_wf (cache roomy_cache)) by distinct_keys.
  assert (F : Forall (on_other_key "c") later_calls)
    by (repeat constructor; discriminate).
  assert (L : length (nodup string_dec ("c" :: op_keys later_calls)) <=
              maxSize roomy_cache) by (vm_compute; lia).
  split; [split; [exact W | split; [exact F | exact L]]|].
  exact (recently_set_entry_is_kept 20 "c" true roomy_cache later_calls
           W F L).
Defined.

Lemma recently_read_entry_is_kept_witness :
  (map_wf (cache demo_cache) /\
   map_get "a" (cache demo_cache) = Some (mkEntry true 0) /\
   (20 - 0 <= ttl demo_cache)%Z /\
   Forall (on_other_key "a") [OpSet 30 "c" true; OpGet 40 "c"] /\
   length (nodup string_dec
             ("a" :: op_keys [OpSet 30 "c" true; OpGet 40 "c"])) <=
   maxSize demo_cache) /\
  map_get "a"
    (cache (apply_ops [OpSet 30 "c" true; OpGet 40 "c"]
              (snd (LRU_get 20 "a" demo_cache)))) =
    Some (mkEntry true 0) /\
  map_get "a"
    (cache (apply_ops [OpSet 30 "c" true; OpGet 40 "c"] demo_cache)) = None.
Proof.
  assert (W : map_wf (cache demo_cache)) by distinct_keys.
  assert (Hx : (20 - 0 <= ttl demo_cache)%Z) by (simpl; lia).
  assert (F : Forall (on_other_key "a") [OpSet 30 "c" true; OpGet 40 "c"])
    by (repeat constructor; discriminate).
  assert (L : length (nodup string_dec
                        ("a" :: op_keys [OpSet 30 "c" true; OpGet 40 "c"])) <=
              maxSize demo_cache) by (vm_compute; lia).
  split; [split; [exact W | split; [reflexivity | split;
            [exact Hx | split; [exact F | exact L]]]]|].
  split; [|reflexivity].
  exact (proj2 (recently_read_entry_is_kept 20 "a" (mkEntry true 0)
                  demo_cache [OpSet 30 "c" true; OpGet 40 "c"]
                  W eq_refl Hx F L)).
Defined.

Lemma least_recently_used_is_evicted_witness :
  (cache_ok (LRU_set 20 "c" true demo_cache) /\
   Forall is_set [OpSet 30 "d" true; OpSet 40 "e" false] /\
   NoDup (op_keys [OpSet 30 "d" true; OpSet 40 "e" false]) /\
   ~ In "c" (op_keys [OpSet 30 "d" true; OpSet 40 "e" false]) /\
   length [OpSet 30 "d" true; OpSet 40 "e" false] =
   maxSize (LRU_set 20 "c" true demo_cache)) /\
  map_get "c"
    (cache (apply_ops [OpSet 30 "d" true; OpSet 40 "e" false]
              (LRU_set 20 "c" true demo_cache))) = None.
Proof.
  assert (Hok : cache_ok (LRU_set 20 "c" true demo_cache)).
  { split; [distinct_keys | simpl; lia]. }
  assert (F : Forall is_set [OpSet 30 "d" true; OpSet 40 "e" false])
    by (repeat constructor).
  assert (D : NoDup (op_keys [OpSet 30 "d" true; OpSet 40 "e" false])).
  { simpl. repeat (constructor; [simpl; intuition discriminate|]).
    constructor. }
  assert (N : ~ In "c" (op_keys [OpSet 30 "d" true; OpSet 40 "e" false]))
    by (simpl; intuition discriminate).
  split; [split; [exact Hok | split; [exact F | split;
                     [exact D | split; [exact N | reflexivity]]]]|].
  exact (least_recently_used_is_evicted "c"
           (LRU_set 20 "c" true demo_cache) _ Hok F D N eq_refl).
Defined.

Lemma LRU_entry_lifetime_witness :
  (map_wf (cache demo_cache) /\
   Forall (leaves_value "c") [OpGet 30 "c"; OpSet 40 "b" true;
                              OpGet 5000 "c"] /\
   fst (LRU_get 5020 "c"
          (apply_ops [OpGet 30 "c"; OpSet 40 "b" true; OpGet 5000 "c"]
             (LRU_set 20 "c" true demo_cache))) = Some true) /\
  (5020 - 20 <= ttl demo_cache)%Z.
Proof.
  assert (W : map_wf (cache demo_cache)) by distinct_keys.
  assert (F : Forall (leaves_value "c")
                [OpGet 30 "c"; OpSet 40 "b" true; OpGet 5000 "c"]).
  { repeat constructor. simpl. discriminate. }
  assert (G : fst (LRU_get 5020 "c"
                     (apply_ops [OpGet 30 "c"; OpSet 40 "b" true;
                                 OpGet 5000 "c"]
                        (LRU_set 20 "c" true demo_cache))) = Some true)
    by reflexivity.
  split; [split; [exact W | split; [exact F | exact G]]|].
  exact (proj2 (LRU_entry_lifetime 20 5020 "c" true true demo_cache _
                  W F G)).
Defined.

Lemma absolute_candidates_ignore_cwd_witness :
  Forall (fun p => demo_isAbsolute p = true) ["/w/none"; "/w/exists.txt"] /\
  locatePathSync demo_isAbsolute demo_resolve demo_stat demo_stat
    frozen_clock ["/w/none"; "/w/exists.txt"]
    (with_cwd demo_options "/elsewhere") initialWorld =
  locatePathSync demo_isAbsolute demo_resolve demo_stat demo_stat
    frozen_clock ["/w/none"; "/w/exists.txt"] demo_options initialWorld.
Proof.
  assert (A : Forall (fun p => demo_isAbsolute p = true)
                ["/w/none"; "/w/exists.txt"])
    by (repeat constructor).
  split; [exact A|].
  exact (proj1 (absolute_candidates_ignore_cwd demo_isAbsolute demo_resolve
                  demo_stat demo_stat frozen_clock
                  ["/w/none"; "/w/exists.txt"] demo_options "/elsewhere"
                  initialWorld A)).
Defined.

Lemma locatePathSync_nocache_probes_witness :
  (valid_type "file" /\
   useCache (mkOptions "/w" "file" true None None false) = false) /\
  trace
    (snd (locatePathSync demo_isAbsolute demo_resolve demo_stat demo_stat
            frozen_clock ["absent.txt"; "exists.txt"; "dir"]
            (mkOptions "/w" "file" true None None false) initialWorld)) =
  [Probe true "/w/exists.txt"; Probe true "/w/absent.txt"].
Proof.
  assert (V : valid_type "file") by (left; reflexivity).
  split; [split; [exact V | reflexivity]|].
  exact (locatePathSync_nocache_probes demo_isAbsolute demo_resolve
           demo_stat demo_stat frozen_clock
           ["absent.txt"; "exists.txt"; "dir"]
           (mkOptions "/w" "file" true None None false) initialWorld
           V eq_refl).
Defined.

Lemma initialWorld_apart : disjoint_caches initialWorld.
Proof. intros key []. Qed.

Lemma locatePathSync_keeps_caches_apart_witness :
  (caches_ok initialWorld /\ disjoint_caches initialWorld) /\
  disjoint_caches
    (snd (locatePathSync demo_isAbsolute demo_resolve demo_stat demo_stat
            frozen_clock ["absent.txt"; "exists.txt"; "dir"] demo_options
            initialWorld)).
Proof.
  split; [split; [exact initialWorld_ok | exact initialWorld_apart]|].
  exact (locatePathSync_keeps_caches_apart demo_isAbsolute demo_resolve
           demo_stat demo_stat frozen_clock
           ["absent.txt"; "exists.txt"; "dir"] demo_options initialWorld
           initialWorld_ok initialWorld_apart).
Defined.

Lemma returned_candidate_is_cached_witness :
  (caches_ok initialWorld /\ useCache demo_options = true /\
   fst (locatePathSync demo_isAbsolute demo_resolve demo_stat demo_stat
          frozen_clock ["absent.txt"; "exists.txt"; "dir"] demo_options
          initialWorld) = Returned (Some "exists.txt")) /\
  exists m e,
    cache
      (statCache
         (snd (locatePathSync demo_isAbsolute demo_resolve demo_stat
                 demo_stat frozen_clock ["absent.txt"; "exists.txt"; "dir"]
                 demo_options initialWorld))) =
    m ++ [(demo_key "/w/exists.txt", e)] /\
    value e = true.
Proof.
  split; [split; [exact initialWorld_ok | split; reflexivity]|].
  exact (returned_candidate_is_cached demo_isAbsolute demo_resolve
           demo_stat demo_stat frozen_clock
           ["absent.txt"; "exists.txt"; "dir"] demo_options "exists.txt"
           initialWorld initialWorld_ok eq_refl eq_refl).
Defined.

(** The caches of [overlap_world] at 6000: the wrong entry of the
    negative cache has outlived the TTL, the entry of the positive cache
    is right. *)
Lemma overlap_world_trustworthy :
  trustworthy demo_stat demo_stat late_clock overlap_world.
Proof.
  split; [split; distinct_keys|]. split.
  - intros key e [[= <- <-]|[]]. right. split; [reflexivity|].
    intros r t a V Hk. unfold demo_key in Hk.
    assert (V0 : valid_type "file") by (left; reflexivity).
    destruct (cacheKey_inj _ _ _ _ _ _ V0 V Hk) as (<- & <- & <-).
    reflexivity.
  - intros key e [[= <- <-]|[]]. left. intros n _.
    unfold late_clock. simpl. lia.
Qed.

Lemma lapsed_entries_do_not_mislead_witness :
  (valid_type (type demo_options) /\
   trustworthy demo_stat demo_stat late_clock overlap_world) /\
  fst (locatePathSync demo_isAbsolute demo_resolve demo_stat demo_stat
         late_clock ["absent.txt"; "exists.txt"] demo_options
         overlap_world) =
  Returned (Some "exists.txt").
Proof.
  assert (V : valid_type (type demo_options)) by (left; reflexivity).
  split; [split; [exact V | exact overlap_world_trustworthy]|].
  exact (proj1 (lapsed_entries_do_not_mislead demo_isAbsolute demo_resolve
                  demo_stat demo_stat late_clock
                  ["absent.txt"; "exists.txt"] demo_options overlap_world
                  V overlap_world_trustworthy)).
Defined.

Lemma pending_check_is_not_shared_witness :
  (caches_ok initialWorld /\
   fst (testerStart demo_isAbsolute demo_resolve demo_stat demo_stat
          frozen_clock demo_options "exists.txt" initialWorld) = None) /\
  probe_count
    (snd (testerStart demo_isAbsolute demo_resolve demo_stat demo_stat
            frozen_clock demo_options "exists.txt"
            (snd (testerStart demo_isAbsolute demo_resolve demo_stat
                    demo_stat frozen_clock demo_options "exists.txt"
                    initialWorld)))) = 2.
Proof.
  split; [split; [exact initialWorld_ok | reflexivity]|].
  exact (proj2 (pending_check_is_not_shared demo_isAbsolute demo_resolve
                  demo_stat demo_stat frozen_clock demo_options
                  "exists.txt" initialWorld initialWorld_ok eq_refl)).
Defined.

Lemma initialWorld_within_capacity : within_capacity initialWorld.
Proof.
  unfold within_capacity, configured. simpl.
  split; [apply newLRUCache_ok; lia|].
  split; [apply newLRUCache_ok; lia|]. auto.
Qed.

Lemma caches_stay_within_capacity_witness :
  within_capacity initialWorld /\
  map_size
    (cache
       (negativeCache
          (snd (locatePathSync demo_isAbsolute demo_resolve demo_stat
                  demo_stat frozen_clock (many_missing 3) demo_options
                  initialWorld)))) <= 500.
Proof.
  split; [exact initialWorld_within_capacity|].
  exact (proj2 (proj2 (proj1 (caches_stay_within_capacity demo_isAbsolute
                                demo_resolve demo_stat demo_stat
                                frozen_clock (many_missing 3) demo_options
                                "exists.txt" initialWorld
                                initialWorld_within_capacity)))).
Defined.

(** A filesystem that differs from the one of the examples in what
    [lstat] answers. *)
Lemma symlink_flag_selects_stat_witness :
  (forall p, statFunction demo_stat demo_stat (allowSymlinks demo_options) p =
             statFunction demo_stat (fun _ => Failure)
               (allowSymlinks demo_options) p) /\
  locatePathSync demo_isAbsolute demo_resolve demo_stat demo_stat
    frozen_clock ["absent.txt"; "exists.txt"] demo_options initialWorld =
  locatePathSync demo_isAbsolute demo_resolve demo_stat (fun _ => Failure)
    frozen_clock ["absent.txt"; "exists.txt"] demo_options initialWorld.
Proof.
  assert (H : forall p,
             statFunction demo_stat demo_stat (allowSymlinks demo_options) p =
             statFunction demo_stat (fun _ => Failure)
               (allowSymlinks demo_options) p)
    by (intros p; reflexivity).
  split; [exact H|].
  exact (proj1 (symlink_flag_selects_stat demo_isAbsolute demo_resolve
                  demo_stat demo_stat demo_stat (fun _ => Failure)
                  frozen_clock ["absent.txt"; "exists.txt"] demo_options
                  initialWorld H)).
Defined.

Lemma capacity_zero_holds_one_witness :
  (maxSize (newLRUCache 0 5000) = 0 /\
   map_size (cache (newLRUCache 0 5000)) <= 1) /\
  cache (LRU_set 20 "a" true (newLRUCache 0 5000)) =
    [("a", mkEntry true 20)].
Proof.
  assert (S : map_size (cache (newLRUCache 0 5000)) <= 1) by (simpl; lia).
  split; [split; [reflexivity | exact S]|].
  exact (proj1 (capacity_zero_holds_one 20 "a" true (newLRUCache 0 5000)
                  eq_refl S)).
Defined.

Lemma positive_cache_hit_witness :
  (useCache demo_options = true /\
   map_wf (cache (statCache warm_world)) /\
   map_get (keyOf demo_isAbsolute demo_resolve demo_options "gone.txt")
     (cache (negativeCache warm_world)) = None /\
   map_get (keyOf demo_isAbsolute demo_resolve demo_options "gone.txt")
     (cache (statCache warm_world)) = Some (mkEntry true 0) /\
   (frozen_clock (S (ticks warm_world)) - 0 <= ttl (statCache warm_world))%Z) /\
  demo_stat "/w/gone.txt" = NoEntry /\
  fst (testerStart demo_isAbsolute demo_resolve demo_stat demo_stat
         frozen_clock demo_options "gone.txt" warm_world) = Some true.
Proof.
  assert (W : map_wf (cache (statCache warm_world))) by distinct_keys.
  assert (Hx : (frozen_clock (S (ticks warm_world)) - 0 <=
                ttl (statCache warm_world))%Z)
    by (vm_compute; discriminate).
  split; [split; [reflexivity | split; [exact W | split;
            [reflexivity | split; [reflexivity | exact Hx]]]]|].
  split; [reflexivity|].
  exact (f_equal fst
           (proj1 (proj2 (positive_cache_hit demo_isAbsolute demo_resolve
                            demo_stat demo_stat frozen_clock demo_options
                            "gone.txt" (mkEntry true 0) warm_world
                            eq_refl W eq_refl eq_refl Hx)))).
Defined.
